(** * Metadata integration dashboard: ingestion, classification and colouring

    A shallow embedding of the data core of the dashboard script
    (the latest revision, [src/unnamed/part_001]): the Newick parser
    [parseNewick], the descriptor classifier [analyzeDescriptors], the
    colour pass of [drawTree], the [hash] palette of the scatter plot, the
    search handler of [bindEvents] and the state changes of [loadDashboard].

    JavaScript values are modelled as the script uses them:
    - a string is a [string] of code units (the model covers code units
      below 256, where a code point is one code unit);
    - a Number is an IEEE-754 binary64 value, [spec_float] of the standard
      library with precision 53 and maximal exponent 1024;
    - an object used as a dictionary is a [gmap] keyed by strings, a missing
      property ([undefined]) is [None];
    - an array is a [list]. *)

From Stdlib Require Import ZArith String Ascii List Lia Permutation Sorted.
From Stdlib Require Import DecimalString DecimalPos SpecFloat.
From stdpp Require Import base option list strings gmap.

Local Open Scope string_scope.
Local Open Scope Z_scope.

(** ** JavaScript primitives *)

Module JS.

(** *** Strings *)

Definition charCode (c : ascii) : Z := Z.of_N (N_of_ascii c).

(** WhiteSpace and LineTerminator code units (TAB, LF, VT, FF, CR, SP and
    NBSP), the ones [String.prototype.trim] and the numeric grammar strip. *)
Definition isWhiteSpace (c : ascii) : bool :=
  let n := charCode c in
  ((9 <=? n) && (n <=? 13)) || (n =? 32) || (n =? 160).

Fixpoint trimStart (s : string) : string :=
  match s with
  | String c s' => if isWhiteSpace c then trimStart s' else s
  | EmptyString => EmptyString
  end.

Fixpoint trimEnd (s : string) : string :=
  match s with
  | EmptyString => EmptyString
  | String c s' =>
      match trimEnd s' with
      | EmptyString => if isWhiteSpace c then EmptyString else String c EmptyString
      | t => String c t
      end
  end.

Definition trim (s : string) : string := trimEnd (trimStart s).

(** [toUpperCase] on the letters a-z, which is the script's on a text of
    code units below 128. Above 127 the script also changes the code
    units 181, 223 to 246 and 248 to 255, which are left as they are
    here; not one of them maps to [N] or [A], so the comparisons with
    ['NA'] in the script are not affected, and what is stated of the
    search box is stated for texts below 128. *)
Definition upperChar (c : ascii) : ascii :=
  let n := charCode c in
  if (97 <=? n) && (n <=? 122) then ascii_of_N (Z.to_N (n - 32)) else c.

Fixpoint toUpperCase (s : string) : string :=
  match s with
  | EmptyString => EmptyString
  | String c s' => String (upperChar c) (toUpperCase s')
  end.

Fixpoint startsWith (p s : string) : bool :=
  match p, s with
  | EmptyString, _ => true
  | String a p', String b s' => Ascii.eqb a b && startsWith p' s'
  | String _ _, EmptyString => false
  end.

Fixpoint includes (s t : string) : bool :=
  startsWith t s ||
  match s with
  | EmptyString => false
  | String _ s' => includes s' t
  end.

Fixpoint endsWith (s t : string) : bool :=
  String.eqb s t ||
  match s with
  | EmptyString => false
  | String _ s' => endsWith s' t
  end.

(** [s.slice(0, -1)] *)
Fixpoint dropLast (s : string) : string :=
  match s with
  | EmptyString => EmptyString
  | String c EmptyString => EmptyString
  | String c s' => String c (dropLast s')
  end.

(** [s.split(sep)] for a one-character separator. *)
Fixpoint splitOn (sep : ascii) (cur : string) (s : string) : list string :=
  match s with
  | EmptyString => [String.rev cur]
  | String c s' =>
      if Ascii.eqb c sep then String.rev cur :: splitOn sep EmptyString s'
      else splitOn sep (String c cur) s'
  end.

Definition split (sep : ascii) (s : string) : list string :=
  splitOn sep EmptyString s.

Fixpoint chars (s : string) : list ascii :=
  match s with
  | EmptyString => []
  | String c s' => c :: chars s'
  end.

Definition isUndefined {A : Type} (o : option A) : bool :=
  match o with None => true | Some _ => false end.

(** *** Numbers *)

Definition number : Type := spec_float.

Definition prec : Z := 53.
Definition emax : Z := 1024.

Definition NaN : number := S754_nan.
Definition Infinity : number := S754_infinity false.
Definition zero : number := S754_zero false.

Definition ofZ (z : Z) : number := binary_normalize prec emax z 0 false.
Definition ofNat (n : nat) : number := ofZ (Z.of_nat n).

(** The Number nearest to [m * 10^e] (ties to even), signed by [neg]. *)
Definition ofDecimal (neg : bool) (m : Z) (e : Z) : number :=
  if m <=? 0 then S754_zero neg
  else if 0 <=? e then binary_normalize prec emax ((if neg then - m else m) * 10 ^ e) 0 neg
  else
    let '(q, e', l) := SFdiv_core_binary prec emax m 0 (10 ^ (- e)) 0 in
    binary_round_aux prec emax neg q e' l.

Definition isNaN (x : number) : bool :=
  match x with S754_nan => true | _ => false end.

Definition isFiniteNumber (x : number) : bool :=
  match x with S754_zero _ | S754_finite _ _ _ => true | _ => false end.

Definition isZero (x : number) : bool :=
  match x with S754_zero _ => true | _ => false end.

Definition numLt (x y : number) : bool := SFltb x y.
Definition numGt (x y : number) : bool := SFltb y x.
Definition numGe (x y : number) : bool := SFleb y x.
Definition numDiv (x y : number) : number := SFdiv prec emax x y.

(**  [a || b] on numbers: [a] when it is truthy. *)
Definition numberTruthy (x : number) : bool := negb (isNaN x || isZero x).

(** *** Numeric literals: [Number(string)] and [parseFloat]

    The grammar is ECMAScript's StringNumericLiteral: white space around a
    StrDecimalLiteral (sign, [Infinity] or digits with an optional fraction
    and exponent) or an unsigned hexadecimal, octal or binary integer. *)

Definition isDigit (c : ascii) : bool :=
  let n := charCode c in (48 <=? n) && (n <=? 57).

Fixpoint spanDigits (s : string) : string * string :=
  match s with
  | String c s' =>
      if isDigit c then let '(d, r) := spanDigits s' in (String c d, r)
      else (EmptyString, s)
  | EmptyString => (EmptyString, EmptyString)
  end.

Definition decimalValue (d : string) : Z :=
  fold_left (fun acc c => 10 * acc + (charCode c - 48)) (chars d) 0.

Definition isEmpty (s : string) : bool :=
  match s with EmptyString => true | _ => false end.

(** ExponentPart, when complete: the exponent and the rest of the text. *)
Definition exponentPart (s : string) : Z * string :=
  match s with
  | String c r =>
      if Ascii.eqb c "e" || Ascii.eqb c "E" then
        let '(sign, r1) :=
          match r with
          | String "+" r' => (1, r')
          | String "-" r' => (-1, r')
          | _ => (1, r)
          end in
        let '(d, r2) := spanDigits r1 in
        if isEmpty d then (0, s) else (sign * decimalValue d, r2)
      else (0, s)
  | EmptyString => (0, s)
  end.

Fixpoint dropChars (n : nat) (s : string) : string :=
  match n, s with
  | S n', String _ s' => dropChars n' s'
  | _, _ => s
  end.

(** The longest prefix that is a StrUnsignedDecimalLiteral: its value and
    the text left after it. *)
Definition scanUnsignedDecimal (neg : bool) (s : string) : option (number * string) :=
  if startsWith "Infinity" s then Some (S754_infinity neg, dropChars 8 s)
  else
    let '(ip, r1) := spanDigits s in
    match r1 with
    | String "." r1' =>
        let '(fp, r2) := spanDigits r1' in
        if isEmpty ip && isEmpty fp then None
        else
          let '(ex, r3) := exponentPart r2 in
          Some (ofDecimal neg (decimalValue (ip ++ fp)) (ex - Z.of_nat (String.length fp)), r3)
    | _ =>
        if isEmpty ip then None
        else
          let '(ex, r3) := exponentPart r1 in
          Some (ofDecimal neg (decimalValue ip) ex, r3)
    end.

Definition scanDecimal (s : string) : option (number * string) :=
  match s with
  | String "+" r => scanUnsignedDecimal false r
  | String "-" r => scanUnsignedDecimal true r
  | _ => scanUnsignedDecimal false s
  end.

Definition digitOfBase (base : Z) (c : ascii) : option Z :=
  let n := charCode c in
  let d :=
    if isDigit c then n - 48
    else if (97 <=? n) && (n <=? 102) then n - 87
    else if (65 <=? n) && (n <=? 70) then n - 55
    else base in
  if d <? base then Some d else None.

Fixpoint baseValue (base acc : Z) (s : string) : option Z :=
  match s with
  | EmptyString => Some acc
  | String c s' =>
      match digitOfBase base c with
      | Some d => baseValue base (base * acc + d) s'
      | None => None
      end
  end.

(** NonDecimalIntegerLiteral: [0x], [0o] or [0b] and at least one digit. *)
Definition nonDecimalLiteral (s : string) : option Z :=
  match s with
  | String "0" (String x (String c r)) =>
      let body := String c r in
      if Ascii.eqb x "x" || Ascii.eqb x "X" then baseValue 16 0 body
      else if Ascii.eqb x "o" || Ascii.eqb x "O" then baseValue 8 0 body
      else if Ascii.eqb x "b" || Ascii.eqb x "B" then baseValue 2 0 body
      else None
  | _ => None
  end.

(** [Number(s)], [+s]: the whole trimmed text must be a literal. *)
Definition stringToNumber (s : string) : number :=
  let t := trim s in
  if isEmpty t then zero
  else
    match nonDecimalLiteral t with
    | Some z => ofZ z
    | None =>
        match scanDecimal t with
        | Some (x, EmptyString) => x
        | _ => NaN
        end
    end.

(** [parseFloat(s)]: the longest decimal literal after leading white space. *)
Definition parseFloatString (s : string) : number :=
  match scanDecimal (trimStart s) with
  | Some (x, _) => x
  | None => NaN
  end.

(** *** [Number.prototype.toString]

    The digits are the shortest decimal that reads back as the same Number,
    the closest one to it when several do. *)

Definition sameNumber (x y : number) : bool :=
  match x, y with
  | S754_nan, S754_nan => true
  | S754_zero a, S754_zero b => Bool.eqb a b
  | S754_infinity a, S754_infinity b => Bool.eqb a b
  | S754_finite a m e, S754_finite b m' e' => Bool.eqb a b && Pos.eqb m m' && (e =? e')
  | _, _ => false
  end.

(** [m * 2^e / 10^q] as a fraction of two positive integers. *)
Definition scaled (m : positive) (e q : Z) : Z * Z :=
  (Zpos m * 2 ^ Z.max e 0 * 10 ^ Z.max (- q) 0,
   2 ^ Z.max (- e) 0 * 10 ^ Z.max q 0).

Fixpoint raiseExponent (fuel : nat) (m : positive) (e n : Z) : Z :=
  match fuel with
  | O => n
  | S fuel' =>
      let '(a, b) := scaled m e n in
      if b <=? a then raiseExponent fuel' m e (n + 1) else n
  end.

(** The [n] with [10^(n-1) <= m * 2^e < 10^n]. *)
Definition decimalExponent (m : positive) (e : Z) : Z :=
  let b := Zpos (digits2_pos m) + e in
  raiseExponent 8 m e ((b - 1) * 30103 / 100000 - 1).

Definition readsBack (m : positive) (e c q : Z) : bool :=
  sameNumber (ofDecimal false c q) (S754_finite false m e).

Fixpoint shortestDigits (fuel : nat) (m : positive) (e n k : Z) : Z * Z :=
  let q := n - k in
  let '(a, b) := scaled m e q in
  let lo := a / b in
  let hi := lo + 1 in
  let nearest :=
    match 2 * a ?= (2 * lo + 1) * b with
    | Lt => lo
    | Gt => hi
    | Eq => if Z.even lo then lo else hi
    end in
  match fuel with
  | O => (nearest, q)
  | S fuel' =>
      match readsBack m e lo q, readsBack m e hi q with
      | true, true => (nearest, q)
      | true, false => (lo, q)
      | false, true => (hi, q)
      | false, false => shortestDigits fuel' m e n (k + 1)
      end
  end.

Fixpoint stripZeros (fuel : nat) (c q : Z) : Z * Z :=
  match fuel with
  | O => (c, q)
  | S fuel' =>
      if (c mod 10 =? 0) && (0 <? c) then stripZeros fuel' (c / 10) (q + 1)
      else (c, q)
  end.

Definition digitsOf (c : Z) : string :=
  NilEmpty.string_of_uint (Pos.to_uint (Z.to_pos c)).

Fixpoint zeros (n : nat) : string :=
  match n with
  | O => EmptyString
  | S n' => String "0" (zeros n')
  end.

Definition formatDigits (ds : string) (n : Z) : string :=
  let k := Z.of_nat (String.length ds) in
  if (k <=? n) && (n <=? 21) then ds ++ zeros (Z.to_nat (n - k))
  else if (0 <? n) && (n <=? 21) then
    substring 0 (Z.to_nat n) ds ++ "." ++ substring (Z.to_nat n) (Z.to_nat (k - n)) ds
  else if (-6 <? n) && (n <=? 0) then "0." ++ zeros (Z.to_nat (- n)) ++ ds
  else
    let ex := n - 1 in
    let es := (if ex <? 0 then "-" else "+") ++ digitsOf (Z.abs ex) in
    if k =? 1 then ds ++ "e" ++ es
    else substring 0 1 ds ++ "." ++ substring 1 (Z.to_nat (k - 1)) ds ++ "e" ++ es.

Definition positiveToString (m : positive) (e : Z) : string :=
  let n := decimalExponent m e in
  let '(c, q) := shortestDigits 16 m e n 1 in
  let '(c', q') := stripZeros 20 c q in
  let ds := digitsOf c' in
  formatDigits ds (Z.of_nat (String.length ds) + q').

Definition numberToString (x : number) : string :=
  match x with
  | S754_nan => "NaN"
  | S754_zero _ => "0"
  | S754_infinity false => "Infinity"
  | S754_infinity true => "-Infinity"
  | S754_finite false m e => positiveToString m e
  | S754_finite true m e => "-" ++ positiveToString m e
  end.

(** *** Values of a descriptor: a string or a Number *)

Inductive value : Type :=
  | VStr (s : string)
  | VNum (x : number).

(** [String(v)] *)
Definition toString (v : value) : string :=
  match v with
  | VStr s => s
  | VNum x => numberToString x
  end.

(** [+v], [Number(v)] *)
Definition toNumber (v : value) : number :=
  match v with
  | VStr s => stringToNumber s
  | VNum x => x
  end.

(** Truthiness: [''], [0], [-0] and [NaN] are falsy. *)
Definition truthy (v : value) : bool :=
  match v with
  | VStr s => negb (isEmpty s)
  | VNum x => numberTruthy x
  end.

(** [parseFloat(v)] converts its argument to a string first. *)
Definition parseFloat (v : value) : number := parseFloatString (toString v).

(** [isFinite(v)] converts its argument to a Number first. *)
Definition isFinite (v : value) : bool := isFiniteNumber (toNumber v).

(** SameValueZero, the equality of [Set] and [Map] keys. *)
Definition sameValueZero (a b : value) : bool :=
  match a, b with
  | VStr s, VStr t => String.eqb s t
  | VNum x, VNum y => (isNaN x && isNaN y) || SFeqb x y
  | _, _ => false
  end.

(** [===] on two possibly undefined strings. *)
Definition strictEqual (a b : option string) : bool :=
  match a, b with
  | Some s, Some t => String.eqb s t
  | None, None => true
  | _, _ => false
  end.

End JS.

Import JS.

(** ** The Newick parser: [parseNewick] *)

Module Newick.

(** A parsed node. A leaf is [{name, length}]; a node opened by a
    parenthesis is [{branchset}] with [name] and [length] set only when
    they are truthy. *)
#[warnings="-register-all"]
Inductive Node : Type :=
  | Leaf (name : string) (length : number)
  | Group (branchset : list Node) (name : option string) (length : option number).

Definition charAt (s : string) (pos : nat) : option ascii := chars s !! pos.

(** The characters that end a name or a length: [,], [)] and [;]. *)
Definition isStop (c : ascii) : bool :=
  Ascii.eqb c "," || Ascii.eqb c ")" || Ascii.eqb c ";".

Definition isChar (c : ascii) (o : option ascii) : bool :=
  match o with
  | Some c' => Ascii.eqb c' c
  | None => false
  end.

Definition orZero (x : number) : number :=
  if numberTruthy x then x else zero.

Section Parser.

(** The text under the cursor; the cursor [pos] is threaded through the
    calls. *)
Variable newick : string.

(** The [while] loop of [parseNameAndLength]; [steps] bounds the
    iterations by the characters left. *)
Fixpoint scanNameAndLength (steps pos : nat) (name lengthStr : string)
    (readingName : bool) : string * string * nat :=
  match steps with
  | O => (name, lengthStr, pos)
  | S steps' =>
      match charAt newick pos with
      | None => (name, lengthStr, pos)
      | Some c =>
          if isStop c then (name, lengthStr, pos)
          else if Ascii.eqb c ":" then
            scanNameAndLength steps' (S pos) name lengthStr false
          else if readingName then
            scanNameAndLength steps' (S pos) (name ++ String c "") lengthStr readingName
          else
            scanNameAndLength steps' (S pos) name (lengthStr ++ String c "") readingName
      end
  end.

(** [{name: name.trim() || undefined, length: parseFloat(lengthStr) || 0}]
    and the new cursor. *)
Definition parseNameAndLength (pos : nat) : option string * number * nat :=
  let '(name, lengthStr, pos') :=
    scanNameAndLength (String.length newick - pos) pos "" "" true in
  (if isEmpty (trim name) then None else Some (trim name),
   orZero (parseFloatString lengthStr),
   pos').

(** [parseSubtree] and the [while (newick[pos] !== ')')] loop of its
    group branch. The loop need not end, so both take fuel; [None] says
    the fuel ran out before the call returned. Memory has no bound in the
    model: the array [children] and the call stack grow as far as the
    text takes them. *)
Fixpoint parseSubtree (fuel pos : nat) {struct fuel} : option (Node * nat) :=
  match fuel with
  | O => None
  | S fuel' =>
      if isChar "(" (charAt newick pos) then
        match parseChildren fuel' (S pos) [] with
        | None => None
        | Some (children, pos1) =>
            let '(name, length, pos2) := parseNameAndLength (S pos1) in
            Some (Group children name
                    (if numberTruthy length then Some length else None),
                  pos2)
        end
      else
        let '(name, length, pos') := parseNameAndLength pos in
        Some (Leaf (default "internal" name) length, pos')
  end
with parseChildren (fuel pos : nat) (children : list Node) {struct fuel}
    : option (list Node * nat) :=
  match fuel with
  | O => None
  | S fuel' =>
      if isChar ")" (charAt newick pos) then Some (children, pos)
      else
        match parseSubtree fuel' pos with
        | None => None
        | Some (child, pos1) =>
            parseChildren fuel'
              (if isChar "," (charAt newick pos1) then S pos1 else pos1)
              (children ++ [child])
        end
  end.

End Parser.

(** [parseNewick]. The trimmed text is computed and passed to
    [parseSubtree], which takes no parameter: the cursor runs over the
    text as given. *)
Definition parseNewick (fuel : nat) (newick : string) : option Node :=
  let trimmedNewick :=
    if endsWith (trim newick) ";" then dropLast (trim newick) else trim newick in
  fst <$> parseSubtree newick fuel 0.

(** The call returns [node]. *)
Definition returns (newick : string) (node : Node) : Prop :=
  exists fuel, parseNewick fuel newick = Some node.

(** The call never returns: the loop goes on for as long as the engine
    lets the array grow. *)
Definition diverges (newick : string) : Prop :=
  forall fuel, parseNewick fuel newick = None.

End Newick.

(** ** The global [state] *)

(** One row of the table: [{accession, pmid, descriptors}]. *)
Module Seq.
Record t : Type := mk {
  accession : option string;
  pmid : option string;
  descriptors : gmap string value
}.
End Seq.

Inductive DescriptorType : Type := numerical | categorical.

(** The [domain] array of a descriptor: the pair of [d3.extent] (both
    entries undefined when there is no comparable number) or the sorted
    distinct values. *)
Inductive Domain : Type :=
  | Extent (range : option (number * number))
  | Categories (values : list value).

Record DescriptorInfo : Type := mkInfo {
  type : DescriptorType;
  domain : Domain
}.

Record State : Type := mkState {
  allSequences : list Seq.t;
  sequences : list Seq.t;
  papers : list (option string);
  tree : option Newick.Node;
  activePanel : option string;
  descriptors : list string;
  descriptorInfo : gmap string DescriptorInfo
}.

(** The initial [state]; its [filters] object is never read or written. *)
Definition initialState : State :=
  mkState [] [] [] None None [] ∅.

Definition setSequences (seqs : list Seq.t) (st : State) : State :=
  mkState (allSequences st) seqs (papers st) (tree st) (activePanel st)
    (descriptors st) (descriptorInfo st).

Definition setDescriptorInfo (info : gmap string DescriptorInfo) (st : State) : State :=
  mkState (allSequences st) (sequences st) (papers st) (tree st) (activePanel st)
    (descriptors st) info.

Definition setTree (t : option Newick.Node) (st : State) : State :=
  mkState (allSequences st) (sequences st) (papers st) t (activePanel st)
    (descriptors st) (descriptorInfo st).

(** ** The descriptor classifier: [analyzeDescriptors] *)

Module Classifier.

(** The filter of [analyzeDescriptors]:
    [v !== null && v !== undefined && String(v).trim() !== ''
     && String(v).toUpperCase() !== 'NA']. *)
Definition isPresent (v : option value) : bool :=
  match v with
  | None => false
  | Some v =>
      negb (isEmpty (trim (toString v)))
      && negb (String.eqb (toUpperCase (toString v)) "NA")
  end.

(** [state.allSequences.map(s => s.descriptors[key]).filter(...)] *)
Definition columnValues (key : string) (seqs : list Seq.t) : list value :=
  omap id (List.filter isPresent (map (fun s => Seq.descriptors s !! key) seqs)).

(** [!isNaN(parseFloat(v)) && isFinite(v)] *)
Definition isNumeric (v : value) : bool :=
  negb (isNaN (parseFloat v)) && isFinite v.

(** A [Set] keeps the first of two values equal by SameValueZero, and
    stores [-0] as [+0]. *)
Definition normalizeZero (v : value) : value :=
  match v with
  | VNum (S754_zero _) => VNum zero
  | _ => v
  end.

Definition setAdd (seen : list value) (v : value) : list value :=
  if existsb (sameValueZero v) seen then seen else seen ++ [normalizeZero v].

(** [unique = arr => [...new Set(arr)]] on descriptor values. *)
Definition unique (arr : list value) : list value := fold_left setAdd arr [].

(** [unique] on the [pmid] column: strings or [undefined]. *)
Definition uniqueIds (arr : list (option string)) : list (option string) :=
  fold_left
    (fun seen v => if existsb (strictEqual v) seen then seen else (seen ++ [v])%list)
    arr [].

(** [d3.extent]: one pass that skips the values not comparable with
    themselves ([NaN]). *)
Definition extentStep (acc : option (number * number)) (v : number)
    : option (number * number) :=
  match acc with
  | None => if numGe v v then Some (v, v) else None
  | Some (min, max) =>
      Some (if numGt min v then v else min, if numLt max v then v else max)
  end.

Definition extent (values : list number) : option (number * number) :=
  fold_left extentStep values None.

(** [Array.prototype.sort] without a comparator: a stable sort by the
    code units of [String(v)]. *)
Definition sortLe (a b : value) : bool := String.leb (toString a) (toString b).

Fixpoint sortInsert (x : value) (l : list value) : list value :=
  match l with
  | [] => [x]
  | y :: l' => if sortLe x y then x :: l else y :: sortInsert x l'
  end.

Fixpoint sortDefault (l : list value) : list value :=
  match l with
  | [] => []
  | x :: l' => sortInsert x (sortDefault l')
  end.

(** [numericCount / values.length > 0.8], in binary64 as the script
    computes it. *)
Definition numericFraction (numericCount len : nat) : number :=
  numDiv (ofNat numericCount) (ofNat len).

Definition threshold : number := ofDecimal false 8 (-1).

(** The body of the [forEach] for one column. *)
Definition analyzeColumn (values : list value) : DescriptorInfo :=
  match values with
  | [] => mkInfo categorical (Categories [])
  | _ =>
      let numericCount := length (List.filter isNumeric values) in
      let uniqueValues := unique values in
      let isNumerical :=
        numGt (numericFraction numericCount (length values)) threshold
        && (6 <? length uniqueValues)%nat in
      if isNumerical then mkInfo numerical (Extent (extent (map toNumber values)))
      else mkInfo categorical (Categories (sortDefault uniqueValues))
  end.

Definition analyzeKey (seqs : list Seq.t)
    (info : gmap string DescriptorInfo) (key : string) : gmap string DescriptorInfo :=
  <[key := analyzeColumn (columnValues key seqs)]> info.

Definition analyzeDescriptors (st : State) : State :=
  setDescriptorInfo
    (fold_left (analyzeKey (allSequences st)) (descriptors st) (descriptorInfo st))
    st.

End Classifier.

(** ** The colour pass of [drawTree] *)

Module TreeColour.

Import Newick.

(** [d3.schemeTableau10] *)
Definition schemeTableau10 : list string :=
  ["#4e79a7"; "#f28e2c"; "#e15759"; "#76b7b2"; "#59a14f";
   "#edc949"; "#af7aa1"; "#ff9da7"; "#9c755f"; "#bab0ab"].

(** The neutral colour of the script. *)
Definition neutral : string := "#ccc".

Definition paletteAt (i : nat) : string :=
  nth (i mod 10) schemeTableau10 "".

(** A node of [d3.hierarchy(state.tree, d => d.branchset)]: [children] is
    set only for a non-empty branchset, so a node without children is a
    leaf of the hierarchy. *)
#[warnings="-register-all"]
Inductive HNode : Type :=
  | H (data : Node) (children : list HNode).

Definition hdata (n : HNode) : Node := match n with H d _ => d end.
Definition hchildren (n : HNode) : list HNode := match n with H _ cs => cs end.

(** The hierarchy after the colour pass: every node carries [color]. *)
#[warnings="-register-all"]
Inductive CNode : Type :=
  | C (data : Node) (color : string) (children : list CNode).

Definition cdata (n : CNode) : Node := match n with C d _ _ => d end.
Definition color (n : CNode) : string := match n with C _ c _ => c end.
Definition cchildren (n : CNode) : list CNode := match n with C _ _ cs => cs end.

(** [leaf.data.name] *)
Definition nodeName (d : Node) : option string :=
  match d with
  | Leaf name _ => Some name
  | Group _ name _ => name
  end.

(** *** [d3.scaleOrdinal]

    The scale keeps its domain in an array with an index keyed by value
    ([InternMap], d3-scale 4). A value that is not in the domain is
    appended to it when the scale is called (the implicit domain), so the
    scale carries state from one call to the next. *)

Definition sameKey (a b : option value) : bool :=
  match a, b with
  | None, None => true
  | Some x, Some y => sameValueZero x y
  | _, _ => false
  end.

Fixpoint indexOf (d : option value) (dom : list (option value)) : option nat :=
  match dom with
  | [] => None
  | k :: dom' => if sameKey d k then Some O else S <$> indexOf d dom'
  end.

(** [scale.domain(values)]: the values in order, the repeated ones dropped. *)
Definition scaleDomain (values : list (option value)) : list (option value) :=
  fold_left
    (fun dom v => match indexOf v dom with Some _ => dom | None => (dom ++ [v])%list end)
    values [].

(** [colorScale]: the ordinal scale over the categorical domain, or the
    constant function [() => "#ccc"]. *)
Inductive ColorScale : Type :=
  | Ordinal (dom : list (option value))
  | Constant.

(** The [domain] array of a descriptor as the scale reads it. *)
Definition domainArray (d : Domain) : list (option value) :=
  match d with
  | Categories values => map Some values
  | Extent (Some (lo, hi)) => [Some (VNum lo); Some (VNum hi)]
  | Extent None => [None; None]
  end.

Definition makeScale (colorInfo : option DescriptorInfo) : ColorScale :=
  match colorInfo with
  | Some (mkInfo categorical d) => Ordinal (scaleDomain (domainArray d))
  | _ => Constant
  end.

(** One call [colorScale(d)]: the colour and the scale after the call. *)
Definition applyScale (sc : ColorScale) (d : option value) : string * ColorScale :=
  match sc with
  | Constant => (neutral, Constant)
  | Ordinal dom =>
      match indexOf d dom with
      | Some i => (paletteAt i, Ordinal dom)
      | None => (paletteAt (List.length dom), Ordinal (dom ++ [d]))
      end
  end.

(** The children of a node, coloured from left to right by [f]. *)
Definition colorAllWith (f : HNode -> ColorScale -> CNode * ColorScale)
    : list HNode -> ColorScale -> list CNode * ColorScale :=
  fix colorAll (l : list HNode) (sc : ColorScale) : list CNode * ColorScale :=
    match l with
    | [] => ([], sc)
    | h :: l' =>
        let '(c, sc1) := f h sc in
        let '(cs, sc2) := colorAll l' sc1 in
        (c :: cs, sc2)
    end.

Section ColourPass.

(** [root.sum(...).sort(...)] reorders the children of every node with
    [Array.prototype.sort]; whatever the comparator does, the result is
    a rearrangement of the children. *)
Variable sortChildren : list HNode -> list HNode.
Hypothesis sortChildren_perm : forall l, Permutation (sortChildren l) l.

Fixpoint hierarchy (d : Node) : HNode :=
  match d with
  | Leaf _ _ => H d []
  | Group branchset _ _ => H d (sortChildren (map hierarchy branchset))
  end.

Variable seqs : list Seq.t.
Variable colorDesc : string.
Variable colorInfo : option DescriptorInfo.

(** [state.sequences.find(s => s.accession === leaf.data.name)] *)
Definition findSequence (d : Node) : option Seq.t :=
  List.find (fun s => strictEqual (Seq.accession s) (nodeName d)) seqs.

(** [leaf.color = (seq && colorInfo) ?
      colorScale(seq.descriptors[colorDesc]) : "#ccc"] *)
Definition leafColor (sc : ColorScale) (d : Node) : string * ColorScale :=
  match findSequence d, colorInfo with
  | Some s, Some _ => applyScale sc (Seq.descriptors s !! colorDesc)
  | _, _ => (neutral, sc)
  end.

(** [node.children.every(c => c.color === firstChildColor)
      ? firstChildColor : "#ccc"] *)
Definition mergeColors (children : list CNode) : string :=
  match children with
  | [] => neutral
  | first :: _ =>
      if forallb (fun c => String.eqb (color c) (color first)) children
      then color first else neutral
  end.

(** The two passes of [drawTree], [root.leaves().forEach] and
    [root.eachAfter], in one traversal: the leaves are met from left to
    right, as [leaves()] lists them, and a node is coloured after its
    children. *)
Fixpoint colorNode (n : HNode) (sc : ColorScale) : CNode * ColorScale :=
  match n with
  | H d [] => let '(c, sc') := leafColor sc d in (C d c [], sc')
  | H d children =>
      let '(cs, sc') := colorAllWith colorNode children sc in
      (C d (mergeColors cs) cs, sc')
  end.

Definition colorTree (t : Node) : CNode :=
  fst (colorNode (hierarchy t) (makeScale colorInfo)).

End ColourPass.

(** [node.value] after [sum(d => d.branchset ? 0 : 1)]. *)
Fixpoint nodeValue (n : HNode) : Z :=
  match n with
  | H (Leaf _ _) cs => 1 + fold_right (fun c acc => nodeValue c + acc) 0 cs
  | H (Group _ _ _) cs => fold_right (fun c acc => nodeValue c + acc) 0 cs
  end.

(** [a.data.length], undefined on a group without a length. *)
Definition dataLength (n : HNode) : option number :=
  match hdata n with
  | Leaf _ l => Some l
  | Group _ _ l => l
  end.

(** [(a.value - b.value) || d3.ascending(a.data.length, b.data.length)]
    is negative. *)
Definition sortsBefore (a b : HNode) : bool :=
  if nodeValue a <? nodeValue b then true
  else if nodeValue b <? nodeValue a then false
  else
    match dataLength a, dataLength b with
    | Some x, Some y => numLt x y
    | _, _ => false
    end.

(** A stable insertion sort by the comparator of [drawTree]. Against a
    group without a length the comparator gives [NaN], which the sort of
    the engine reads as equal; the comparator is then no order and the
    engine may leave the children in another order than this one, so
    what is proved for all trees takes any function that permutes the
    children, and this one orders the examples only. *)
Fixpoint insertNode (x : HNode) (l : list HNode) : list HNode :=
  match l with
  | [] => [x]
  | y :: l' => if sortsBefore y x then y :: insertNode x l' else x :: l
  end.

Definition sortNodes (l : list HNode) : list HNode :=
  fold_right insertNode [] l.

(** All the nodes of a coloured tree. *)
Fixpoint nodes (n : CNode) : list CNode :=
  match n with
  | C _ _ cs => n :: flat_map nodes cs
  end.

(** All the nodes of a parsed tree: the node and its descendants. *)
Fixpoint subtrees (d : Node) : list Node :=
  match d with
  | Leaf _ _ => [d]
  | Group branchset _ _ => d :: flat_map subtrees branchset
  end.

(** A leaf of the hierarchy: a parsed leaf or an empty group. *)
Definition isLeafData (d : Node) : bool :=
  match d with
  | Leaf _ _ => true
  | Group [] _ _ => true
  | Group (_ :: _) _ _ => false
  end.

End TreeColour.

(** ** The scatter plot's fill colour *)

Module Chart.

(** [hash = str => str ?
      Array.from(String(str)).reduce((h, c) => h + c.charCodeAt(0), 0) : 0] *)
Definition hash (str : option value) : Z :=
  match str with
  | Some v =>
      if truthy v then fold_left (fun h c => h + charCode c) (chars (toString v)) 0
      else 0
  | None => 0
  end.

(** [d3.schemeTableau10[hash(d.descriptors[colourDesc]) % 10]] *)
Definition pointFill (s : Seq.t) (colourDesc : string) : string :=
  nth (Z.to_nat (hash (Seq.descriptors s !! colourDesc) mod 10))
    TreeColour.schemeTableau10 "".

End Chart.

(** ** Event handlers and loading *)

Module Dashboard.

Import Newick Classifier.

(** The result of [d3.csvParse]: the header and one object per row, keyed
    by column name. *)
Record Csv : Type := mkCsv {
  columns : list string;
  rows : list (gmap string string)
}.

(** [["pmid", "accession"].includes(k)] *)
Definition isReserved (k : string) : bool :=
  String.eqb k "pmid" || String.eqb k "accession".

(** [const num = +v; isNaN(num) || v === '' ? v : num] *)
Definition coerce (v : string) : value :=
  let num := stringToNumber v in
  if isNaN num || isEmpty v then VStr v else VNum num.

(** One element of [state.allSequences]. *)
Definition toSequence (d : gmap string string) : Seq.t :=
  Seq.mk (d !! "accession") (d !! "pmid")
    (coerce <$> filter (fun kv => isReserved kv.1 = false) d).

(** *** The search box

    A record without an [accession] makes [s.accession.toUpperCase()]
    raise a TypeError as soon as there is a token to compare with. *)
Definition matchesTokens (tokens : list string) (s : Seq.t) : option bool :=
  match tokens, Seq.accession s with
  | [], _ => Some false
  | _ :: _, None => None
  | _ :: _, Some a =>
      Some (existsb
              (fun token =>
                 includes (toUpperCase a) token
                 || match Seq.pmid s with
                    | Some p => negb (isEmpty p) && includes (toUpperCase p) token
                    | None => false
                    end)
              tokens)
  end.

Fixpoint filterSequences (tokens : list string) (l : list Seq.t) : option (list Seq.t) :=
  match l with
  | [] => Some []
  | s :: l' =>
      match matchesTokens tokens s with
      | None => None
      | Some keep =>
          match filterSequences tokens l' with
          | None => None
          | Some r => Some (if keep then s :: r else r)
          end
      end
  end.

Definition searchTokens (text : string) : list string :=
  List.filter (fun t => negb (isEmpty t))
    (map (fun t => toUpperCase (trim t)) (split "," text)).

(** The [input] listener of the search box. The three redraws that end it
    read the state and write only to the page; when the filter raises, the
    listener stops before the assignment. *)
Definition onSearchInput (text : string) (st : State) : State :=
  match searchTokens text with
  | [] => setSequences (allSequences st) st
  | tokens =>
      match filterSequences tokens (allSequences st) with
      | Some seqs => setSequences seqs st
      | None => st
      end
  end.

(** *** [loadDashboard] *)

Inductive Exception : Type :=
  | Error (message : string)
  | TypeError.

Inductive Outcome : Type :=
  | Loaded
  | Failed (err : Exception).

(** The label callback of both tree layouts,
    [d => d.data.name.replace(/_/g, " ")], runs on every leaf of the
    hierarchy and raises a TypeError on one without a name: a group with
    an empty branchset and no label. *)
Fixpoint hasUnnamedLeaf (d : Node) : bool :=
  match d with
  | Leaf _ _ => false
  | Group [] None _ => true
  | Group branchset _ _ => existsb hasUnnamedLeaf branchset
  end.

(** The assignments of [loadDashboard] up to [state.sequences]; the table
    is not empty. *)
Definition ingest (raw : Csv) (st : State) : State :=
  let all := map toSequence (rows raw) in
  mkState all all
    (uniqueIds (map (fun d => d !! "pmid") (rows raw)))
    (tree st) (activePanel st)
    (List.filter (fun k => negb (isReserved k)) (columns raw))
    (descriptorInfo st).

(** [loadDashboard(newickString, csvString)] on the rows [raw] that
    [d3.csvParse] made of [csvString]. The result is the state the call
    leaves and what the [try] block did; [None] says that [parseNewick]
    did not return within [fuel]. The page is taken to have the elements
    the script asks for, so after the state is written the first thing
    that can raise is [drawTree], on the label of a leaf; [drawChart] and
    [drawHeat], which draw what the controls of the page select, are
    taken to return. *)
Definition loadDashboard (fuel : nat) (newickString : string) (raw : Csv)
    (st : State) : option (State * Outcome) :=
  match rows raw with
  | [] => Some (st, Failed (Error "CSV data is empty"))
  | _ =>
      if isEmpty newickString then Some (st, Failed (Error "Tree data is empty"))
      else
        let st1 := ingest raw st in
        match parseNewick fuel newickString with
        | None => None
        | Some t =>
            let st2 := analyzeDescriptors (setTree (Some t) st1) in
            if hasUnnamedLeaf t then Some (st2, Failed TypeError)
            else Some (st2, Loaded)
        end
  end.

End Dashboard.

(** ** Well-formed Newick text

    The texts the parser is meant for, as trees of labels and length
    texts, with the text each one is written as and the node it stands
    for. *)

Module Syntax.

Import Newick.

#[warnings="-register-all"]
Inductive Tree : Type :=
  | TLeaf (label : string) (len : option string)
  | TGroup (children : list Tree) (label : string) (len : option string).

(** [label], or [label:len]. *)
Definition suffix (label : string) (len : option string) : string :=
  label ++ match len with Some l => ":" ++ l | None => "" end.

Fixpoint commaSep (l : list string) : string :=
  match l with
  | [] => ""
  | [s] => s
  | s :: l' => s ++ "," ++ commaSep l'
  end.

Fixpoint print (t : Tree) : string :=
  match t with
  | TLeaf label len => suffix label len
  | TGroup children label len =>
      "(" ++ commaSep (map print children) ++ ")" ++ suffix label len
  end.

(** A label has none of [( ) , ; :]; a length text none of [) , ; :]. *)
Definition plainLabel (s : string) : bool :=
  forallb (fun c => negb (isStop c || Ascii.eqb c ":" || Ascii.eqb c "(")) (chars s).

Definition plainLength (len : option string) : bool :=
  match len with
  | Some l => forallb (fun c => negb (isStop c || Ascii.eqb c ":")) (chars l)
  | None => true
  end.

(** Inside a group a leaf is written with at least one character. *)
Fixpoint wellFormedChild (t : Tree) : bool :=
  match t with
  | TLeaf label len =>
      plainLabel label && plainLength len && negb (isEmpty (suffix label len))
  | TGroup children label len =>
      forallb wellFormedChild children && plainLabel label && plainLength len
  end.

Definition wellFormed (t : Tree) : bool :=
  match t with
  | TLeaf label len => plainLabel label && plainLength len
  | TGroup _ _ _ => wellFormedChild t
  end.

Definition nameOf (label : string) : option string :=
  if isEmpty (trim label) then None else Some (trim label).

Definition lengthOf (len : option string) : number :=
  orZero (parseFloatString (default "" len)).

(** The node a well-formed text stands for. *)
Fixpoint denote (t : Tree) : Node :=
  match t with
  | TLeaf label len => Leaf (default "internal" (nameOf label)) (lengthOf len)
  | TGroup children label len =>
      Group (map denote children) (nameOf label)
        (if numberTruthy (lengthOf len) then Some (lengthOf len) else None)
  end.

(** No length is written anywhere in the tree. *)
Fixpoint noLengths (t : Tree) : bool :=
  match t with
  | TLeaf _ len => isUndefined len
  | TGroup children _ len =>
      forallb noLengths children && isUndefined len
  end.

End Syntax.

(** Every leaf has length [0] and no group has a [length] property. *)
Fixpoint lengthsDefault (d : Newick.Node) : bool :=
  match d with
  | Newick.Leaf _ l => sameNumber l zero
  | Newick.Group branchset _ l =>
      forallb lengthsDefault branchset && isUndefined l
  end.

(** ** The table written by [exportCSV] *)

Module ExportCsv.

(** An element of a row as [Array.prototype.join] writes it: [undefined]
    as the empty string, a value as [String(v)]. *)
Definition fieldText (f : option value) : string :=
  match f with
  | Some v => toString v
  | None => ""
  end.

(** [arr.join(sep)] on texts. *)
Fixpoint join (sep : string) (l : list string) : string :=
  match l with
  | [] => ""
  | [s] => s
  | s :: l' => s ++ sep ++ join sep l'
  end.

(** The line feed of ["\n"]. *)
Definition lineFeed : ascii := "010"%char.

(** [["accession", "pmid", ...state.descriptors]] *)
Definition headerRow (st : State) : list string :=
  "accession" :: "pmid" :: descriptors st.

(** [[s.accession, s.pmid, ...descriptorValues]], each element as [join]
    writes it. *)
Definition recordRow (st : State) (s : Seq.t) : list string :=
  fieldText (VStr <$> Seq.accession s)
  :: fieldText (VStr <$> Seq.pmid s)
  :: map (fun k => fieldText (Seq.descriptors s !! k)) (descriptors st).

Definition exportRows (st : State) : list (list string) :=
  headerRow st :: map (recordRow st) (sequences st).

(** [rows.map(r => r.join(",")).join("\n")] *)
Definition csvContent (st : State) : string :=
  join (String lineFeed "") (map (join ",") (exportRows st)).

End ExportCsv.

(** ** The points of [drawScatterPlot] *)

Module Scatter.

(** [val !== null && val !== undefined && String(val).toUpperCase() !== 'NA'] *)
Definition plotted (val : option value) : bool :=
  match val with
  | None => false
  | Some v => negb (String.eqb (toUpperCase (toString v)) "NA")
  end.

(** [plotData]: the records with a plotted value on both axes and for
    the shape. *)
Definition plotData (st : State) (xDesc yDesc shapeDesc : string) : list Seq.t :=
  List.filter
    (fun d =>
       plotted (Seq.descriptors d !! xDesc)
       && plotted (Seq.descriptors d !! yDesc)
       && plotted (Seq.descriptors d !! shapeDesc))
    (sequences st).

(** The fill of a legend item: [d3.schemeTableau10[hash(d) % 10]]. *)
Definition legendFill (d : value) : string :=
  nth (Z.to_nat (Chart.hash (Some d) mod 10)) TreeColour.schemeTableau10 "".

End Scatter.

(** ** The bars of [drawPyramidChart] *)

Module Pyramid.

Import TreeColour.

(** [counts.get(x)?.get(y) || 0] for the [counts] of
    [d3.rollup(state.sequences, v => v.length, d => d.descriptors[xDesc],
    d => d.descriptors[yDesc])]: keys are looked up by SameValueZero. *)
Definition count (seqs : list Seq.t) (xDesc yDesc : string) (x y : option value) : nat :=
  List.length
    (List.filter
       (fun d =>
          sameKey (Seq.descriptors d !! xDesc) x && sameKey (Seq.descriptors d !! yDesc) y)
       seqs).

(** [const [xCat1, xCat2] = xCategories] *)
Definition xCat1 (xCategories : list value) : option value := xCategories !! 0%nat.
Definition xCat2 (xCategories : list value) : option value := xCategories !! 1%nat.

(** The loop over [yCategories] that computes [maxCount]. *)
Definition maxCount (seqs : list Seq.t) (xDesc yDesc : string)
    (xCategories yCategories : list value) : nat :=
  fold_left
    (fun maxCount yCat =>
       let count1 := count seqs xDesc yDesc (xCat1 xCategories) (Some yCat) in
       let count2 := count seqs xDesc yDesc (xCat2 xCategories) (Some yCat) in
       Nat.max maxCount (Nat.max count1 count2))
    yCategories 0%nat.

End Pyramid.

(** ** The presence matrix of [drawHeat] *)

Module Heat.

Import Classifier.

(** The callback of [seqsInPaper.some]: the value is there and its
    trimmed text is neither empty nor [NA]. *)
Definition hasValue (val : option value) : bool :=
  match val with
  | None => false
  | Some v =>
      let stringVal := trim (toString v) in
      negb (isEmpty stringVal) && negb (String.eqb (toUpperCase stringVal) "NA")
  end.

(** [unique(state.sequences.map(s => s.pmid))] *)
Definition x_elements (st : State) : list (option string) :=
  uniqueIds (map Seq.pmid (sequences st)).

(** [value] for one paper and one descriptor, [true] for 1. *)
Definition cellValue (st : State) (pmid : option string) (descriptor : string) : bool :=
  let seqsInPaper :=
    List.filter (fun s => strictEqual (Seq.pmid s) pmid) (sequences st) in
  existsb (fun s => hasValue (Seq.descriptors s !! descriptor)) seqsInPaper.

End Heat.

(** ** The radii of [drawRadialTree] *)

Module Radial.

Import Newick TreeColour.

Definition numAdd (x y : number) : number := SFadd prec emax x y.
Definition numMul (x y : number) : number := SFmul prec emax x y.

(** [d.data.length] as the product reads it: [undefined] is [NaN]. *)
Definition lengthNumber (d : Node) : number :=
  match d with
  | Leaf _ l => l
  | Group _ _ (Some l) => l
  | Group _ _ None => NaN
  end.

(** A node of the hierarchy with its [radius]. *)
#[warnings="-register-all"]
Inductive RNode : Type :=
  | R (data : Node) (radius : number) (children : list RNode).

Definition radius (n : RNode) : number := match n with R _ r _ => r end.

(** [setRadius(d, y0, k)] *)
Fixpoint setRadius (d : HNode) (y0 k : number) : RNode :=
  match d with
  | H data children =>
      let radius := numAdd y0 (numMul (lengthNumber data) k) in
      R data radius (map (fun child => setRadius child radius k) children)
  end.

(** All the nodes of the tree with their radii. *)
Fixpoint rnodes (n : RNode) : list RNode :=
  match n with
  | R _ _ cs => n :: flat_map rnodes cs
  end.

End Radial.

(** ** Vocabulary of the statements

    Predicates and sample data the theorems below are stated with. *)

Module Spec.

Import Newick Syntax Classifier TreeColour Chart Dashboard.

(** A character that neither ends a name nor starts a length. *)
Definition plainChar (c : ascii) : bool := negb (isStop c || Ascii.eqb c ":").

(** The text that follows a node: nothing, or a stop character. *)
Definition stopsHere (rest : string) : bool :=
  match rest with
  | EmptyString => true
  | String c _ => isStop c
  end.

Definition atStop (o : option ascii) : bool :=
  match o with
  | None => true
  | Some c => isStop c
  end.

(** What [parseSubtree] does on the text of [t], wherever it stands. *)
Definition parsesAt (t : Tree) : Prop :=
  forall pre rest, stopsHere rest = true ->
  exists fuel0, forall fuel, (fuel0 <= fuel)%nat ->
    parseSubtree (pre ++ print t ++ rest) fuel (String.length pre) =
    Some (denote t, (String.length pre + String.length (print t))%nat).

(** Inside a group the cursor is stuck at the end of the text and at a
    semicolon: the leaf parsed there takes no character. *)
Definition stuck (o : option ascii) : bool :=
  match o with
  | None => true
  | Some c => Ascii.eqb c ";"
  end.

Definition noColon (text : string) : bool :=
  forallb (fun c => negb (Ascii.eqb c ":")) (chars text).


(** [acc] is what [d3.extent] holds after [values]: nothing when no value
    is comparable, else two of the values that bound the comparable ones. *)
Definition extentOf (values : list number) (acc : option (number * number)) : Prop :=
  match acc with
  | None => forall x, In x values -> isNaN x = true
  | Some (lo, hi) =>
      In lo values /\ In hi values /\ isNaN lo = false /\ isNaN hi = false /\
      forall x, In x values -> isNaN x = false ->
                numLt x lo = false /\ numLt hi x = false
  end.

(** The longest array there is: [2^32 - 1] elements. *)
Definition maxArrayLength : Z := 2 ^ 32 - 1.

(** A positive Number with a full mantissa: [m * 2^e]. *)
Definition full (m : positive) : Prop := Zpos (digits2_pos m) = 53.

(** The second half of [binary_round_aux]: the rounded mantissa is put
    back in range. *)
Definition finish (M e : Z) : number :=
  let '(mrs, e') := shr_fexp prec emax M e loc_Exact in
  match shr_m mrs with
  | Z0 => S754_zero false
  | Zpos m => if Z.leb e' (emax - prec) then S754_finite false m e' else S754_infinity false
  | Zneg _ => S754_nan
  end.

(** The results [finish] can give for a mantissa [M] of 53 bits rounded
    up or not. *)
Definition roundedTo (M E : Z) (x : number) : Prop :=
  exists m2 e2, x = S754_finite false m2 e2 /\
    ((Zpos m2 = M /\ e2 = E) \/
     (Zpos m2 = M + 1 /\ M + 1 < 2 ^ 53 /\ e2 = E) \/
     (Zpos m2 = 2 ^ 52 /\ M + 1 = 2 ^ 53 /\ e2 = E + 1)).

(** A state with the one descriptor [x] and one record per cell. *)
Definition columnState (cells : list value) : State :=
  mkState (map (fun v => Seq.mk None None {["x" := v]}) cells) [] [] None None ["x"] ∅.

Definition digits17 : list value := map VStr ["1"; "2"; "3"; "4"; "5"; "6"; "7"].
Definition digits16 : list value := map VStr ["1"; "2"; "3"; "4"; "5"; "6"].

Definition mixedColumn : list value :=
  [VStr "3"; VStr "NA"; VStr "1"; VStr ""; VNum (ofZ 5)].

Definition wideColumn : list value :=
  (mixedColumn ++ map VStr ["2"; "4"; "6"; "7"])%list.

(** Every node of [cs] has the colour [k]. *)
Definition sharedColor (cs : list CNode) (k : string) : Prop :=
  forall c, In c cs -> color c = k.

(** All the nodes of a hierarchy. *)
Fixpoint hnodes (n : HNode) : list HNode :=
  match n with
  | H _ cs => n :: flat_map hnodes cs
  end.

(** A coloured tree without its colours. *)
Fixpoint erase (n : CNode) : HNode :=
  match n with
  | C d _ cs => H d (map erase cs)
  end.

(** The colour rule at one node, for the categorical descriptor
    [colorDesc] with the domain [values]: a leaf without a record is
    neutral; a leaf with a record has the colour the scale gives to the
    record's value, a palette colour, the one at the value's place in the
    domain when the value is in it; a node with children has their colour
    when they share one and is neutral when they do not. *)
Definition colouredAs (seqs : list Seq.t) (colorDesc : string) (values : list value)
    (n : CNode) : Prop :=
  match cchildren n with
  | [] =>
      match findSequence seqs (cdata n) with
      | None => color n = neutral
      | Some s =>
          In (color n) schemeTableau10 /\
          forall i,
            indexOf (Seq.descriptors s !! colorDesc) (scaleDomain (map Some values)) = Some i ->
            color n = paletteAt i
      end
  | _ :: _ =>
      (forall k, sharedColor (cchildren n) k -> color n = k) /\
      ((forall k, ~ sharedColor (cchildren n) k) -> color n = neutral)
  end.

(** The colour pass on the subtree of [h], from any state the scale of
    the descriptor can be in: the scale keeps the domain it was made
    with, and every node is coloured by the rule. *)
Definition colouredNode (seqs : list Seq.t) (colorDesc : string) (values : list value)
    (h : HNode) : Prop :=
  forall ext, exists ext',
    (colorNode seqs colorDesc (Some (mkInfo categorical (Categories values))) h
       (Ordinal (scaleDomain (map Some values) ++ ext))).2
    = Ordinal (scaleDomain (map Some values) ++ ext') /\
    Forall (colouredAs seqs colorDesc values)
      (nodes (colorNode seqs colorDesc (Some (mkInfo categorical (Categories values))) h
                (Ordinal (scaleDomain (map Some values) ++ ext))).1).

(** The colours [drawTree] gives to the tree of the state, with the
    comparator sort of the script, for the descriptor chosen in the
    [treeColour] control. *)
Definition drawTreeColours (st : State) (colorDesc : string) : option CNode :=
  colorTree sortNodes (sequences st) colorDesc (descriptorInfo st !! colorDesc)
    <$> tree st.

Definition sumCodes (l : list ascii) : Z :=
  fold_right (fun c h => charCode c + h) 0 l.

(** The values [loadDashboard] stores in a record. *)
Definition stored (v : value) : Prop := exists cell, v = coerce cell.

(** A table of three records and its columns. *)
Definition hostRow (accession pmid host : string) : gmap string string :=
  <["accession" := accession]> (<["pmid" := pmid]> (<["host" := host]> ∅)).

Definition hostTable : Csv :=
  mkCsv ["accession"; "pmid"; "host"]
    [hostRow "A" "1" "cat"; hostRow "B" "2" "NA"; hostRow "C" "2" "dog"].

Definition otherTable : Csv :=
  mkCsv ["accession"; "pmid"; "host"] [hostRow "Z" "9" "bat"].

(** The state after the table is loaded with the tree [((A,B)X,C,D);]. *)
Definition loadedState : State :=
  analyzeDescriptors
    (setTree (parseNewick 6 "((A,B)X,C,D);") (ingest hostTable initialState)).

(** [(A:1,B:2)C:0] as a tree of labels. *)
Definition sampleTree : Tree :=
  TGroup [TLeaf "A" (Some "1"); TLeaf "B" (Some "2")] "C" (Some "0").

(** [(A,B)C] as a tree of labels. *)
Definition bareTree : Tree :=
  TGroup [TLeaf "A" None; TLeaf "B" None] "C" None.

(** A value that reads as a finite number: a Number that is finite, or a
    string that is not blank and that [Number] reads as a finite
    number. *)
Definition parsesFinite (v : value) : bool :=
  match v with
  | VNum x => isFiniteNumber x
  | VStr s => isFiniteNumber (stringToNumber s) && negb (isEmpty (trim s))
  end.

Definition number_eq_dec (x y : number) : {x = y} + {x <> y}.
Proof. repeat decide equality. Defined.

Definition value_eq_dec (a b : value) : {a = b} + {a <> b}.
Proof. decide equality; [apply string_dec | apply number_eq_dec]. Defined.

(** The number of distinct values of a column, [-0] counted as [0]. *)
Definition distinctCount (values : list value) : nat :=
  List.length (nodup value_eq_dec (map normalizeZero values)).

(** A value that is there and is not missing: its text is not blank and
    does not read [NA]. *)
Definition notMissing (v : value) : Prop :=
  trim (toString v) <> "" /\ toUpperCase (toString v) <> "NA".

(** Columns on both sides of the two bounds: seven words; seven times the
    same number; eight numbers of ten values, nine of eleven, and seven
    of nine with a word twice. *)
Definition words7 : list value := map VStr ["a"; "b"; "c"; "d"; "e"; "f"; "g"].
Definition ones7 : list value := map VStr ["1"; "1"; "1"; "1"; "1"; "1"; "1"].
Definition eightOfTen : list value :=
  map VStr ["1"; "2"; "3"; "4"; "5"; "6"; "7"; "8"; "x"; "y"].
Definition nineOfEleven : list value :=
  map VStr ["1"; "2"; "3"; "4"; "5"; "6"; "7"; "8"; "9"; "x"; "y"].
Definition sevenOfNine : list value :=
  map VStr ["1"; "2"; "3"; "4"; "5"; "6"; "7"; "x"; "x"].

(** The length a leaf gets for the text written after its colon: the
    number [parseFloat] reads when there is one other than zero, and 0
    when nothing is written, or nothing that reads as a number. *)
Definition leafLength (len : option string) : number :=
  match len with
  | Some text =>
      if numberTruthy (parseFloatString text) then parseFloatString text else zero
  | None => zero
  end.

(** The [length] property of a group: set only for such a number. *)
Definition groupLength (len : option string) : option number :=
  match len with
  | Some text =>
      if numberTruthy (parseFloatString text) then Some (parseFloatString text) else None
  | None => None
  end.

(** Every node of [d] has the length that the text of [t] gives it. *)
Fixpoint lengthsFollow (t : Tree) (d : Node) : bool :=
  match t, d with
  | TLeaf _ len, Leaf _ l => sameNumber l (leafLength len)
  | TGroup children _ len, Group branchset _ l =>
      (fix all (ts : list Tree) (ds : list Node) : bool :=
         match ts, ds with
         | [], [] => true
         | t' :: ts', d' :: ds' => lengthsFollow t' d' && all ts' ds'
         | _, _ => false
         end) children branchset
      && match l, groupLength len with
         | Some a, Some b => sameNumber a b
         | None, None => true
         | _, _ => false
         end
  | _, _ => false
  end.

(** A text of code units below 128, where [toUpperCase] is the
    script's. *)
Definition asciiText (s : string) : bool :=
  forallb (fun c => charCode c <? 128) (chars s).

(** A record with an accession, written like its pmid below 128. *)
Definition plainRecord (s : Seq.t) : Prop :=
  (exists a, Seq.accession s = Some a /\ asciiText a = true) /\
  (forall p, Seq.pmid s = Some p -> asciiText p = true).

(** A table with two descriptors, and the state after it is loaded. *)
Definition pyramidRow (accession host sex : string) : gmap string string :=
  <["accession" := accession]> (<["host" := host]> (<["sex" := sex]> ∅)).

Definition pyramidTable : Csv :=
  mkCsv ["accession"; "host"; "sex"]
    [pyramidRow "A" "cat" "f"; pyramidRow "B" "cat" "f";
     pyramidRow "C" "dog" "m"; pyramidRow "D" "cat" "m"].

Definition pyramidState : State :=
  analyzeDescriptors (setTree None (ingest pyramidTable initialState)).

End Spec.

Import Newick Syntax Classifier TreeColour Chart Dashboard Spec.

(** ** More vocabulary *)

Module Props.

Import Newick Syntax Classifier TreeColour Chart Dashboard Spec.

(** A name as the parser stores it: not empty and trimmed. *)
Definition tidyName (name : string) : bool :=
  negb (isEmpty name) && String.eqb (trim name) name.

(** What every parsed node looks like: a leaf has a name and a length
    that is a number; a group has a name and a length only when they are
    truthy. *)
Fixpoint tidy (d : Node) : bool :=
  match d with
  | Leaf name l => tidyName name && negb (isNaN l)
  | Group branchset name l =>
      forallb tidy branchset
      && match name with Some n => tidyName n | None => true end
      && match l with Some x => numberTruthy x | None => true end
  end.

(** A text starts with no white space. *)
Definition headOk (s : string) : bool :=
  match s with
  | EmptyString => true
  | String c _ => negb (isWhiteSpace c)
  end.

(** How often the character [c] is written in [s]. *)
Definition occurrences (c : ascii) (s : string) : nat :=
  List.length (List.filter (Ascii.eqb c) (chars s)).

(** The commas written inside the fields of a row. *)
Definition commasIn (row : list string) : nat :=
  fold_right (fun f n => (occurrences "," f + n)%nat) 0%nat row.

(** Every character of [s] is white space. *)
Definition blank (s : string) : bool := forallb isWhiteSpace (chars s).

(** A record matches one of the tokens of a search; a record without an
    accession matches none. *)
Definition matches (tokens : list string) (s : Seq.t) : bool :=
  match matchesTokens tokens s with
  | Some true => true
  | _ => false
  end.

End Props.


(** * Facts

    ** Strings *)

Lemma app_cons (c : ascii) (a b : string) : String c a ++ b = String c (a ++ b).
Proof. reflexivity. Qed.

Lemma app_nil_l (b : string) : "" ++ b = b.
Proof. reflexivity. Qed.

Lemma chars_app (a b : string) : chars (a ++ b) = (chars a ++ chars b)%list.
Proof. induction a as [|c a IH]; [done|]. rewrite app_cons. simpl. by rewrite IH. Qed.

Lemma chars_length (s : string) : List.length (chars s) = String.length s.
Proof. induction s as [|c s IH]; simpl; [done | by rewrite IH]. Qed.

Lemma string_app_assoc (a b c : string) : (a ++ b) ++ c = a ++ b ++ c.
Proof. induction a as [|x a IH]; [done|]. rewrite !app_cons. by rewrite IH. Qed.

Lemma string_app_nil_r (a : string) : a ++ "" = a.
Proof. induction a as [|x a IH]; [done|]. rewrite app_cons. by rewrite IH. Qed.

Lemma string_length_app (a b : string) :
  String.length (a ++ b) = (String.length a + String.length b)%nat.
Proof. induction a as [|x a IH]; [done|]. rewrite app_cons. simpl. by rewrite IH. Qed.

Lemma charAt_app_r (a b : string) (i : nat) :
  Newick.charAt (a ++ b) (String.length a + i) = Newick.charAt b i.
Proof.
  unfold Newick.charAt. rewrite chars_app, <- chars_length.
  rewrite lookup_app_r by lia. f_equal. lia.
Qed.

Lemma charAt_app_r0 (a b : string) :
  Newick.charAt (a ++ b) (String.length a) = Newick.charAt b 0.
Proof. rewrite <- (charAt_app_r a b 0). f_equal. lia. Qed.

(** ** The scan of a name and a length *)

Lemma scan_plain (body : string) :
  forallb plainChar (chars body) = true ->
  forall pre rest steps name ls rn,
    (String.length body <= steps)%nat ->
    scanNameAndLength (pre ++ body ++ rest) steps (String.length pre) name ls rn =
    scanNameAndLength (pre ++ body ++ rest) (steps - String.length body)
      (String.length pre + String.length body)
      (if rn then name ++ body else name) (if rn then ls else ls ++ body) rn.
Proof.
  induction body as [|c body IH]; intros Hplain pre rest steps name ls rn Hsteps.
  - simpl. rewrite Nat.sub_0_r, Nat.add_0_r. destruct rn; by rewrite string_app_nil_r.
  - simpl in Hplain. apply andb_true_iff in Hplain as [Hc Hplain].
    destruct steps as [|steps]; [simpl in Hsteps; lia|].
    simpl scanNameAndLength at 1.
    rewrite charAt_app_r0. rewrite app_cons. unfold charAt at 1. simpl.
    unfold plainChar in Hc. apply negb_true_iff, orb_false_iff in Hc as [Hstop Hcolon].
    rewrite Hstop, Hcolon.
    specialize (IH Hplain (pre ++ String c "") rest steps).
    rewrite !string_app_assoc in IH. rewrite !app_cons, !app_nil_l in IH.
    rewrite string_length_app in IH. simpl in IH.
    replace (String.length pre + 1)%nat with (S (String.length pre)) in IH by lia.
    destruct rn.
    + rewrite IH by (simpl in Hsteps; lia).
      rewrite string_app_assoc. simpl. f_equal; lia.
    + rewrite IH by (simpl in Hsteps; lia).
      rewrite string_app_assoc. simpl. f_equal; lia.
Qed.


Lemma scan_stop (text : string) (steps pos : nat) name ls rn :
  atStop (charAt text pos) = true ->
  scanNameAndLength text steps pos name ls rn = (name, ls, pos).
Proof.
  intros Hstop. destruct steps as [|steps]; [done|]. simpl.
  destruct (charAt text pos) as [c|]; [|done]. simpl in Hstop. by rewrite Hstop.
Qed.

Lemma atStop_rest (pre rest : string) :
  stopsHere rest = true -> atStop (charAt (pre ++ rest) (String.length pre)) = true.
Proof.
  intros H. rewrite charAt_app_r0. by destruct rest.
Qed.

Lemma plainLabel_plain (label : string) :
  plainLabel label = true -> forallb plainChar (chars label) = true.
Proof.
  unfold plainLabel. rewrite !forallb_forall. intros H c Hc. specialize (H c Hc).
  unfold plainChar. apply negb_true_iff. apply negb_true_iff in H.
  apply orb_false_iff in H as [H _]. done.
Qed.


Lemma scan_colon (text : string) (steps pos : nat) name ls rn :
  charAt text pos = Some ":"%char ->
  scanNameAndLength text (S steps) pos name ls rn =
  scanNameAndLength text steps (S pos) name ls false.
Proof. intros H. simpl. by rewrite H. Qed.

Lemma scan_suffix (pre label : string) (len : option string) (rest : string) (steps : nat) :
  plainLabel label = true -> plainLength len = true -> stopsHere rest = true ->
  (String.length (suffix label len) <= steps)%nat ->
  scanNameAndLength (pre ++ suffix label len ++ rest) steps (String.length pre) "" "" true =
  (label, default "" len, (String.length pre + String.length (suffix label len))%nat).
Proof.
  intros Hlabel Hlen Hrest Hsteps. unfold suffix in *.
  destruct len as [l|].
  - assert (E1 : pre ++ (label ++ ":" ++ l) ++ rest = pre ++ label ++ (":" ++ l ++ rest)).
    { by rewrite !string_app_assoc. }
    rewrite string_length_app in Hsteps.
    change (String.length (":" ++ l)) with (S (String.length l)) in Hsteps.
    rewrite E1, scan_plain by (auto using plainLabel_plain; lia).
    rewrite app_nil_l.
    assert (E2 : pre ++ label ++ (":" ++ l ++ rest) = (pre ++ label) ++ (":" ++ l ++ rest)).
    { by rewrite !string_app_assoc. }
    rewrite E2, <- string_length_app.
    destruct (steps - String.length label)%nat as [|steps'] eqn:Es; [lia|].
    rewrite scan_colon by (by rewrite charAt_app_r0).
    assert (E3 : (pre ++ label) ++ (":" ++ l ++ rest) = ((pre ++ label) ++ ":") ++ l ++ rest).
    { by rewrite !string_app_assoc. }
    assert (L3 : S (String.length (pre ++ label)) = String.length ((pre ++ label) ++ ":")).
    { rewrite (string_length_app _ ":"). simpl. lia. }
    rewrite E3, L3, scan_plain by (auto; lia).
    rewrite app_nil_l, <- string_app_assoc, <- string_length_app.
    rewrite scan_stop by (by apply atStop_rest).
    simpl. repeat f_equal. rewrite !string_length_app. simpl. lia.
  - rewrite string_app_nil_r in *.
    rewrite scan_plain by (auto using plainLabel_plain; lia).
    rewrite app_nil_l, <- string_app_assoc, <- string_length_app.
    rewrite scan_stop by (by apply atStop_rest).
    simpl. by rewrite string_length_app.
Qed.

Lemma parseNameAndLength_suffix (pre label : string) (len : option string) (rest : string) :
  plainLabel label = true -> plainLength len = true -> stopsHere rest = true ->
  parseNameAndLength (pre ++ suffix label len ++ rest) (String.length pre) =
  (nameOf label, lengthOf len, (String.length pre + String.length (suffix label len))%nat).
Proof.
  intros Hlabel Hlen Hrest. unfold parseNameAndLength.
  rewrite scan_suffix by (auto; rewrite !string_length_app; lia).
  reflexivity.
Qed.

(** ** Well-formed texts are parsed *)

Lemma Tree_nested_ind (P : Tree -> Prop) :
  (forall label len, P (TLeaf label len)) ->
  (forall children label len, Forall P children -> P (TGroup children label len)) ->
  forall t, P t.
Proof.
  intros Hleaf Hgroup.
  fix IH 1. intros [label len | children label len].
  - apply Hleaf.
  - apply Hgroup. induction children as [|c children IHc]; constructor; auto.
Qed.

Lemma wellFormedChild_wellFormed (t : Tree) :
  wellFormedChild t = true -> wellFormed t = true.
Proof.
  destruct t; simpl; [|done]. intros H. apply andb_true_iff in H as [H _]. done.
Qed.

Lemma plainLabel_head (label : string) (c : ascii) (s : string) :
  plainLabel label = true -> label = String c s ->
  isStop c = false /\ Ascii.eqb c "(" = false.
Proof.
  intros H ->. unfold plainLabel in H. simpl in H.
  apply andb_true_iff in H as [H _]. apply negb_true_iff in H.
  apply orb_false_iff in H as [H1 H2]. apply orb_false_iff in H1 as [H1 _]. done.
Qed.

(** The first character of a leaf's text, or of what follows it, opens no
    group. *)
Lemma leaf_not_open (pre label : string) (len : option string) (rest : string) :
  plainLabel label = true -> stopsHere rest = true ->
  isChar "(" (charAt (pre ++ suffix label len ++ rest) (String.length pre)) = false.
Proof.
  intros Hlabel Hrest. rewrite charAt_app_r0. unfold suffix.
  destruct label as [|c label].
  - rewrite app_nil_l. destruct len as [l|].
    + reflexivity.
    + rewrite app_nil_l. destruct rest as [|r rest]; [done|].
      unfold charAt. simpl. simpl in Hrest.
      destruct (Ascii.eqb_spec r "("); [subst; discriminate | done].
  - destruct (plainLabel_head _ c label Hlabel eq_refl) as [_ H].
    rewrite !app_cons. unfold charAt. simpl. done.
Qed.

(** The first character of a child's text is not the closing parenthesis. *)
Lemma child_not_close (pre : string) (t : Tree) (rest : string) :
  wellFormedChild t = true ->
  isChar ")" (charAt (pre ++ print t ++ rest) (String.length pre)) = false.
Proof.
  intros Hwf. rewrite charAt_app_r0. destruct t as [label len | children label len].
  - simpl in *. apply andb_true_iff in Hwf as [Hwf Hne].
    apply andb_true_iff in Hwf as [Hlabel _]. unfold suffix in *.
    destruct label as [|c label].
    + rewrite app_nil_l in *. destruct len as [l|]; [done|]. done.
    + destruct (plainLabel_head _ c label Hlabel eq_refl) as [H _].
      rewrite !app_cons. unfold charAt. simpl.
      unfold isStop in H. apply orb_false_iff in H as [H _].
      apply orb_false_iff in H as [_ H]. done.
  - done.
Qed.


Lemma commaSep_cons (s : string) (l : list string) :
  l <> [] -> commaSep (s :: l) = s ++ "," ++ commaSep l.
Proof. destruct l; [done|]. reflexivity. Qed.

Lemma parseChildren_close (text : string) (fuel pos : nat) (acc : list Node) :
  isChar ")" (charAt text pos) = true ->
  parseChildren text (S fuel) pos acc = Some (acc, pos).
Proof. intros H. simpl. by rewrite H. Qed.

Lemma parseChildren_print (children : list Tree) :
  Forall (fun c => wellFormedChild c = true /\ parsesAt c) children ->
  forall pre rest acc,
  exists fuel0, forall fuel, (fuel0 <= fuel)%nat ->
    parseChildren (pre ++ commaSep (map print children) ++ ")" ++ rest) fuel
      (String.length pre) acc =
    Some ((acc ++ map denote children)%list,
          (String.length pre + String.length (commaSep (map print children)))%nat).
Proof.
  induction 1 as [|c children [Hwf Hc] _ IH]; intros pre rest acc.
  - exists 1%nat. intros [|fuel] Hfuel; [lia|].
    rewrite parseChildren_close by (by rewrite charAt_app_r0).
    simpl. by rewrite app_nil_r, Nat.add_0_r.
  - destruct children as [|c2 children].
    + (* the last child *)
      destruct (Hc pre (")" ++ rest) eq_refl) as [f0 Hf0].
      exists (S (S f0)). intros [|fuel] Hfuel; [lia|].
      simpl map. simpl commaSep.
      cbn [parseChildren]. fold (parseChildren (pre ++ print c ++ ")" ++ rest)).
      rewrite child_not_close by done.
      rewrite Hf0 by lia.
      rewrite <- string_app_assoc, <- string_length_app.
      rewrite charAt_app_r0. change (isChar "," (charAt (")" ++ rest) 0)) with false.
      cbn iota. destruct fuel as [|fuel]; [lia|].
      rewrite parseChildren_close by (by rewrite charAt_app_r0).
      done.
    + destruct (Hc pre ("," ++ commaSep (map print (c2 :: children)) ++ ")" ++ rest) eq_refl)
        as [f0 Hf0].
      destruct (IH (pre ++ print c ++ ",") rest (acc ++ [denote c])%list) as [f1 Hf1].
      exists (S (f0 + f1)). intros [|fuel] Hfuel; [lia|].
      change (map print (c :: c2 :: children)) with (print c :: map print (c2 :: children)).
      rewrite commaSep_cons by done.
      assert (E : pre ++ (print c ++ "," ++ commaSep (map print (c2 :: children))) ++ ")" ++ rest
                  = pre ++ print c ++ "," ++ commaSep (map print (c2 :: children)) ++ ")" ++ rest).
      { by rewrite !string_app_assoc. }
      rewrite E.
      cbn [parseChildren].
      fold (parseChildren (pre ++ print c ++ "," ++ commaSep (map print (c2 :: children)) ++ ")" ++ rest)).
      rewrite child_not_close by done.
      rewrite Hf0 by lia.
      assert (Hcomma : isChar ","
                (charAt (pre ++ print c ++ "," ++ commaSep (map print (c2 :: children)) ++ ")" ++ rest)
                   (String.length pre + String.length (print c))) = true).
      { rewrite <- string_app_assoc, <- string_length_app. by rewrite charAt_app_r0. }
      rewrite Hcomma.
      assert (E2 : pre ++ print c ++ "," ++ commaSep (map print (c2 :: children)) ++ ")" ++ rest
                   = (pre ++ print c ++ ",") ++ commaSep (map print (c2 :: children)) ++ ")" ++ rest).
      { by rewrite !string_app_assoc. }
      assert (L2 : S (String.length pre + String.length (print c))
                   = String.length (pre ++ print c ++ ",")).
      { rewrite !string_length_app. simpl. lia. }
      rewrite E2, L2, Hf1 by lia.
      f_equal. f_equal.
      * by rewrite <- app_assoc.
      * rewrite !string_length_app. simpl. lia.
Qed.

Lemma parsesAt_wellFormed (t : Tree) : wellFormed t = true -> parsesAt t.
Proof.
  induction t as [label len | children label len IH] using Tree_nested_ind;
    intros Hwf pre rest Hrest.
  - simpl in Hwf. apply andb_true_iff in Hwf as [Hlabel Hlen].
    exists 1%nat. intros [|fuel] Hfuel; [lia|].
    simpl print. cbn [parseSubtree].
    rewrite leaf_not_open by done.
    rewrite parseNameAndLength_suffix by done.
    reflexivity.
  - simpl in Hwf. apply andb_true_iff in Hwf as [Hwf Hlen].
    apply andb_true_iff in Hwf as [Hchildren Hlabel].
    assert (Hall : Forall (fun c => wellFormedChild c = true /\ parsesAt c) children).
    { rewrite forallb_forall in Hchildren. rewrite Forall_forall in *.
      intros c Hc. split.
      - apply Hchildren. by apply list_elem_of_In.
      - apply IH; [done|]. apply wellFormedChild_wellFormed, Hchildren.
        by apply list_elem_of_In. }
    destruct (parseChildren_print children Hall (pre ++ "(") (suffix label len ++ rest) [])
      as [f0 Hf0].
    exists (S f0). intros [|fuel] Hfuel; [lia|].
    simpl print.
    assert (E : pre ++ ("(" ++ commaSep (map print children) ++ ")" ++ suffix label len) ++ rest
                = (pre ++ "(") ++ commaSep (map print children) ++ ")" ++ suffix label len ++ rest).
    { by rewrite !string_app_assoc. }
    rewrite E. cbn [parseSubtree].
    fold (parseChildren ((pre ++ "(") ++ commaSep (map print children) ++ ")" ++ suffix label len ++ rest)).
    assert (Hopen : isChar "("
              (charAt ((pre ++ "(") ++ commaSep (map print children) ++ ")" ++ suffix label len ++ rest)
                 (String.length pre)) = true).
    { rewrite string_app_assoc. by rewrite charAt_app_r0. }
    rewrite Hopen.
    assert (L : S (String.length pre) = String.length (pre ++ "(")).
    { rewrite string_length_app. simpl. lia. }
    rewrite L, Hf0 by lia.
    assert (E2 : (pre ++ "(") ++ commaSep (map print children) ++ ")" ++ suffix label len ++ rest
                 = ((pre ++ "(") ++ commaSep (map print children) ++ ")") ++ suffix label len ++ rest).
    { by rewrite !string_app_assoc. }
    assert (L2 : S (String.length (pre ++ "(") + String.length (commaSep (map print children)))
                 = String.length ((pre ++ "(") ++ commaSep (map print children) ++ ")")).
    { rewrite !string_length_app. simpl. lia. }
    rewrite E2, L2, parseNameAndLength_suffix by done.
    simpl. f_equal. f_equal.
    rewrite !string_length_app. simpl. lia.
Qed.

(** Every well-formed text is parsed into the node it stands for, with or
    without the closing semicolon. *)
Lemma parseNewick_print (t : Tree) :
  wellFormed t = true ->
  returns (print t) (denote t) /\ returns (print t ++ ";") (denote t).
Proof.
  intros Hwf. split.
  - destruct (parsesAt_wellFormed t Hwf "" "" eq_refl) as [f0 Hf0].
    exists f0. unfold parseNewick. rewrite app_nil_l, string_app_nil_r in Hf0.
    by rewrite Hf0.
  - destruct (parsesAt_wellFormed t Hwf "" ";" eq_refl) as [f0 Hf0].
    exists f0. unfold parseNewick. rewrite app_nil_l in Hf0.
    by rewrite Hf0.
Qed.

(** ** Texts that are never parsed

    Inside a group, at the end of the text or at a semicolon, each turn
    of the loop parses an empty leaf, appends it and leaves the cursor
    where it was. *)

Lemma stuck_atStop (o : option ascii) : stuck o = true -> atStop o = true.
Proof.
  destruct o as [c|]; [|done]. simpl. intros ->%Ascii.eqb_eq. reflexivity.
Qed.

Lemma stuck_isChar (o : option ascii) (c : ascii) :
  stuck o = true -> c <> ";"%char -> isChar c o = false.
Proof.
  destruct o as [c'|]; [|done]. simpl. intros ->%Ascii.eqb_eq Hc.
  apply Ascii.eqb_neq. congruence.
Qed.

(** From a cursor that is stuck the loop never reaches its exit. *)
Lemma parseChildren_stuck (text : string) (pos : nat) :
  stuck (charAt text pos) = true ->
  forall fuel acc, parseChildren text fuel pos acc = None.
Proof.
  intros Hstuck. induction fuel as [|fuel IH]; intros acc; [done|].
  cbn [parseChildren]. fold (parseSubtree text).
  rewrite (stuck_isChar _ ")") by done.
  destruct fuel as [|fuel']; [done|].
  cbn [parseSubtree].
  rewrite (stuck_isChar _ "(") by done.
  unfold parseNameAndLength.
  rewrite scan_stop by (by apply stuck_atStop).
  rewrite (stuck_isChar _ ",") by done.
  apply IH.
Qed.

(** A group that is not closed: after [A] the cursor is at the end of
    the text. *)
Example parseNewick_unclosed : diverges "(A".
Proof.
  intros [|[|[|fuel]]]; try reflexivity.
  unfold parseNewick.
  change (parseSubtree "(A" (S (S (S fuel))) 0)
    with (match parseChildren "(A" (S fuel) 2 [Leaf "A" zero] with
          | None => None
          | Some (children, pos1) =>
              let '(name, length, pos2) := parseNameAndLength "(A" (S pos1) in
              Some (Group children name
                      (if numberTruthy length then Some length else None), pos2)
          end).
  by rewrite parseChildren_stuck.
Qed.

(** A semicolon inside a group stops the cursor the same way. *)
Example parseNewick_semicolon_in_group : diverges "(A;B)".
Proof.
  intros [|[|[|fuel]]]; try reflexivity.
  unfold parseNewick.
  change (parseSubtree "(A;B)" (S (S (S fuel))) 0)
    with (match parseChildren "(A;B)" (S fuel) 2 [Leaf "A" zero] with
          | None => None
          | Some (children, pos1) =>
              let '(name, length, pos2) := parseNameAndLength "(A;B)" (S pos1) in
              Some (Group children name
                      (if numberTruthy length then Some length else None), pos2)
          end).
  by rewrite parseChildren_stuck.
Qed.

(** ** Texts without a colon *)

Lemma noColon_charAt (text : string) (pos : nat) (c : ascii) :
  noColon text = true -> charAt text pos = Some c -> Ascii.eqb c ":" = false.
Proof.
  unfold noColon, charAt. rewrite forallb_forall. intros H Hc.
  apply negb_true_iff, H, list_elem_of_In. by eapply list_elem_of_lookup_2.
Qed.

Lemma scan_noColon (text : string) :
  noColon text = true ->
  forall steps pos name,
    (scanNameAndLength text steps pos name "" true).1.2 = "".
Proof.
  intros Hno. induction steps as [|steps IH]; intros pos name; [done|].
  simpl. destruct (charAt text pos) as [c|] eqn:Hc; [|done].
  destruct (isStop c); [done|].
  rewrite (noColon_charAt _ _ _ Hno Hc). apply IH.
Qed.

Lemma parseNameAndLength_noColon (text : string) (pos : nat) :
  noColon text = true -> (parseNameAndLength text pos).1.2 = zero.
Proof.
  intros Hno. unfold parseNameAndLength.
  pose proof (scan_noColon text Hno (String.length text - pos) pos "") as H.
  destruct (scanNameAndLength _ _ _ _ _ _) as [[name ls] pos']. simpl in *.
  by subst.
Qed.

Lemma parse_noColon (text : string) :
  noColon text = true ->
  forall fuel,
    (forall pos node pos',
        parseSubtree text fuel pos = Some (node, pos') -> lengthsDefault node = true) /\
    (forall pos acc children pos',
        forallb lengthsDefault acc = true ->
        parseChildren text fuel pos acc = Some (children, pos') ->
        forallb lengthsDefault children = true).
Proof.
  intros Hno. induction fuel as [|fuel [IHs IHc]]; [split; intros; discriminate|].
  split.
  - intros pos node pos'. cbn [parseSubtree]. fold (parseChildren text).
    destruct (isChar "(" (charAt text pos)).
    + destruct (parseChildren text fuel (S pos) []) as [[children pos1]|] eqn:Hch; [|done].
      pose proof (parseNameAndLength_noColon text (S pos1) Hno) as Hlen.
      destruct (parseNameAndLength text (S pos1)) as [[name len] pos2]. simpl in Hlen.
      subst len. intros [= <- <-]. simpl.
      rewrite (IHc (S pos) [] children pos1 eq_refl Hch). reflexivity.
    + pose proof (parseNameAndLength_noColon text pos Hno) as Hlen.
      destruct (parseNameAndLength text pos) as [[name len] pos2]. simpl in Hlen.
      subst len. intros [= <- <-]. reflexivity.
  - intros pos acc children pos' Hacc. cbn [parseChildren]. fold (parseSubtree text).
    destruct (isChar ")" (charAt text pos)); [by intros [= <- <-]|].
    destruct (parseSubtree text fuel pos) as [[child pos1]|] eqn:Hs; [|done].
    apply IHc. rewrite forallb_app, Hacc. simpl. by rewrite (IHs _ _ _ Hs).
Qed.

Lemma parseNewick_noColon (text : string) (fuel : nat) (node : Node) :
  noColon text = true -> parseNewick fuel text = Some node ->
  lengthsDefault node = true.
Proof.
  intros Hno. unfold parseNewick.
  destruct (parseSubtree text fuel 0) as [[n pos]|] eqn:Hs; [|done].
  intros [= <-]. by eapply (parse_noColon text Hno fuel).
Qed.

(** ** The parser is a function of the text *)

Lemma parseSubtree_S (text : string) (fuel pos : nat) :
  parseSubtree text (S fuel) pos =
  if isChar "(" (charAt text pos) then
    match parseChildren text fuel (S pos) [] with
    | None => None
    | Some (children, pos1) =>
        let '(name, length, pos2) := parseNameAndLength text (S pos1) in
        Some (Group children name (if numberTruthy length then Some length else None), pos2)
    end
  else
    let '(name, length, pos') := parseNameAndLength text pos in
    Some (Leaf (default "internal" name) length, pos').
Proof. reflexivity. Qed.

Lemma parseChildren_S (text : string) (fuel pos : nat) (children : list Node) :
  parseChildren text (S fuel) pos children =
  if isChar ")" (charAt text pos) then Some (children, pos)
  else
    match parseSubtree text fuel pos with
    | None => None
    | Some (child, pos1) =>
        parseChildren text fuel
          (if isChar "," (charAt text pos1) then S pos1 else pos1)
          (children ++ [child])
    end.
Proof. reflexivity. Qed.

Lemma parse_fuel_S (text : string) (fuel : nat) :
  (forall pos r, parseSubtree text fuel pos = Some r ->
                 parseSubtree text (S fuel) pos = Some r) /\
  (forall pos acc r, parseChildren text fuel pos acc = Some r ->
                     parseChildren text (S fuel) pos acc = Some r).
Proof.
  induction fuel as [|fuel [IHs IHc]]; [split; intros; discriminate|].
  split.
  - intros pos r. rewrite (parseSubtree_S text (S fuel)), (parseSubtree_S text fuel).
    destruct (isChar "(" (charAt text pos)); [|done].
    destruct (parseChildren text fuel (S pos) []) as [[children pos1]|] eqn:Hc; [|done].
    by rewrite (IHc _ _ _ Hc).
  - intros pos acc r. rewrite (parseChildren_S text (S fuel)), (parseChildren_S text fuel).
    destruct (isChar ")" (charAt text pos)); [done|].
    destruct (parseSubtree text fuel pos) as [[child pos1]|] eqn:Hs; [|done].
    rewrite (IHs _ _ Hs). apply IHc.
Qed.

Lemma parseNewick_fuel_le (text : string) (node : Node) (fuel fuel' : nat) :
  (fuel <= fuel')%nat -> parseNewick fuel text = Some node ->
  parseNewick fuel' text = Some node.
Proof.
  induction 1 as [|fuel' _ IH]; [done|]. intros H. specialize (IH H).
  unfold parseNewick in *.
  destruct (parseSubtree text fuel' 0) as [r|] eqn:Hs; [|done].
  by rewrite (proj1 (parse_fuel_S text fuel') _ _ Hs).
Qed.

Lemma returns_unique (text : string) (n1 n2 : Node) :
  returns text n1 -> returns text n2 -> n1 = n2.
Proof.
  intros [f1 H1] [f2 H2].
  apply (parseNewick_fuel_le _ _ _ (Nat.max f1 f2)) in H1; [|lia].
  apply (parseNewick_fuel_le _ _ _ (Nat.max f1 f2)) in H2; [|lia].
  congruence.
Qed.

(** ** A group that is not closed

    The loop of [parseSubtree] over the children of a group tests the
    character under the cursor only, while the loop of
    [parseNameAndLength] stops at the end of the text. *)

(** C3. On the text [(A] the parser never returns, and so neither does
    [loadDashboard], which reports no failure and never reaches its
    handler: after [A] the cursor is at the end of the text, where the
    scan of a name and a length stops without taking a character, and
    the loop over the children, with no test for the end of the text,
    goes on from there for ever. The empty text is an error at load
    time: [loadDashboard] refuses it before it parses and leaves the
    state as it was. *)
Theorem unterminated_group_never_returns :
  diverges "(A" /\
  (forall fuel st, loadDashboard fuel "(A" hostTable st = None) /\
  parseNameAndLength "(A" 2 = (None, zero, 2%nat) /\
  (forall fuel acc, parseChildren "(A" fuel 2 acc = None) /\
  (forall fuel st,
     loadDashboard fuel "" hostTable st = Some (st, Failed (Error "Tree data is empty"))).
Proof.
  split_and!.
  - exact parseNewick_unclosed.
  - intros fuel st. unfold loadDashboard. simpl rows. cbn iota. simpl isEmpty. cbn iota.
    by rewrite parseNewick_unclosed.
  - reflexivity.
  - intros fuel acc. by apply parseChildren_stuck.
  - reflexivity.
Qed.

(** ** The lengths of the nodes *)

Lemma denote_noLengths (t : Tree) :
  noLengths t = true -> lengthsDefault (denote t) = true.
Proof.
  induction t as [label len | children label len IH] using Tree_nested_ind.
  - simpl. by destruct len.
  - simpl. intros [Hc Hlen]%andb_true_iff. destruct len; [done|].
    rewrite andb_true_r. rewrite forallb_forall in Hc. apply forallb_forall.
    intros n [c [<- Hin]]%in_map_iff. rewrite Forall_forall in IH.
    apply IH; [by apply list_elem_of_In | by apply Hc].
Qed.

Lemma sameNumber_refl (x : number) : sameNumber x x = true.
Proof.
  destruct x as [s|s| |s m e]; simpl; try done; try (by destruct s).
  rewrite Pos.eqb_refl, Z.eqb_refl. by destruct s.
Qed.

Lemma denote_lengthsFollow (t : Tree) : lengthsFollow t (denote t) = true.
Proof.
  induction t as [label len | children label len IH] using Tree_nested_ind.
  - simpl. unfold lengthOf, orZero, leafLength.
    destruct len as [text|]; simpl.
    + destruct (numberTruthy (parseFloatString text)); apply sameNumber_refl.
    + reflexivity.
  - cbn [lengthsFollow denote]. apply andb_true_iff. split.
    + induction IH as [|c cs Hc _ IHcs]; [done|]. simpl. by rewrite Hc, IHcs.
    + unfold lengthOf, orZero, groupLength. destruct len as [text|]; simpl.
      * destruct (numberTruthy (parseFloatString text)) eqn:Ht; [|done].
        rewrite Ht. apply sameNumber_refl.
      * reflexivity.
Qed.

(** C8, as amended. When no length is written (the text has no colon),
    every leaf of the result has length 0 and every group has no [length]
    property at all; a well-formed text without lengths is parsed, into
    such a tree. More generally, in the tree parsed from a well-formed
    text, with lengths or without, every node follows the text written
    for it: a length that is not written, that is not a number, or that
    is zero, is 0 on a leaf and is absent on a group, and any other
    length is the number read, on a leaf and on a group. So a leaf whose
    length text is not a number, or is zero, has length 0, and a group
    whose length is not written, is not a number, or is zero, has no
    [length]: [(B)A:0;] has a root without a length, and in
    [(A:1,B:x,(C:0,D)E:2)F:zero;] the leaves [B], [C] and [D] have
    length 0 and the root has none, beside the lengths 1 and 2 of [A]
    and [E]. *)
Theorem lengths_without_colon :
  (forall text fuel node,
     noColon text = true -> parseNewick fuel text = Some node ->
     lengthsDefault node = true) /\
  (forall t, wellFormed t = true -> noLengths t = true ->
     returns (print t ++ ";") (denote t) /\ lengthsDefault (denote t) = true) /\
  (forall label text,
     wellFormed (TLeaf label (Some text)) = true ->
     numberTruthy (parseFloatString text) = false ->
     returns (print (TLeaf label (Some text)))
       (Leaf (default "internal" (nameOf label)) zero)) /\
  (forall children label len,
     wellFormed (TGroup children label len) = true ->
     groupLength len = None ->
     returns (print (TGroup children label len) ++ ";")
       (Group (map denote children) (nameOf label) None)) /\
  (forall t node,
     wellFormed t = true -> returns (print t ++ ";") node ->
     lengthsFollow t node = true) /\
  returns "(A,B)C;" (Group [Leaf "A" zero; Leaf "B" zero] (Some "C") None) /\
  returns "(B)A:0;" (Group [Leaf "B" zero] (Some "A") None) /\
  returns "(A:1,B:x,(C:0,D)E:2)F:zero;"
    (Group [Leaf "A" (ofZ 1); Leaf "B" zero;
            Group [Leaf "C" zero; Leaf "D" zero] (Some "E") (Some (ofZ 2))]
       (Some "F") None).
Proof.
  split_and!.
  - intros text fuel node. apply parseNewick_noColon.
  - intros t Hwf Hno. split; [by apply parseNewick_print | by apply denote_noLengths].
  - intros label text Hwf Hzero.
    destruct (parseNewick_print _ Hwf) as [H _]. simpl denote in H.
    unfold lengthOf, orZero in H. simpl default in H. by rewrite Hzero in H.
  - intros children label len Hwf Hlen.
    destruct (parseNewick_print _ Hwf) as [_ H]. simpl denote in H.
    assert (E : (if numberTruthy (lengthOf len) then Some (lengthOf len) else None) = None).
    { unfold groupLength in Hlen. unfold lengthOf, orZero.
      destruct len as [text|]; simpl; [|done].
      destruct (numberTruthy (parseFloatString text)); [done | done]. }
    by rewrite E in H.
  - intros t node Hwf Hret.
    rewrite (returns_unique _ _ _ Hret (proj2 (parseNewick_print t Hwf))).
    apply denote_lengthsFollow.
  - by exists 4%nat.
  - by exists 4%nat.
  - exists 8%nat. by vm_compute.
Qed.

Lemma lengths_without_colon_witness :
  (noColon "(A,B)C;" = true /\
   parseNewick 4 "(A,B)C;" = Some (Group [Leaf "A" zero; Leaf "B" zero] (Some "C") None) /\
   lengthsDefault (Group [Leaf "A" zero; Leaf "B" zero] (Some "C") None) = true) /\
  (wellFormed bareTree = true /\ noLengths bareTree = true /\
   returns (print bareTree ++ ";") (denote bareTree) /\
   lengthsDefault (denote bareTree) = true) /\
  (wellFormed (TLeaf "A" (Some "x")) = true /\
   numberTruthy (parseFloatString "x") = false /\
   returns "A:x" (Leaf "A" zero)) /\
  (wellFormed (TGroup [TLeaf "B" None] "A" (Some "0")) = true /\
   groupLength (Some "0") = None /\
   returns "(B)A:0;" (Group [Leaf "B" zero] (Some "A") None)) /\
  (wellFormed (TGroup [TLeaf "A" (Some "1"); TLeaf "B" None] "C" (Some "x")) = true /\
   returns "(A:1,B)C:x;" (Group [Leaf "A" (ofZ 1); Leaf "B" zero] (Some "C") None) /\
   lengthsFollow (TGroup [TLeaf "A" (Some "1"); TLeaf "B" None] "C" (Some "x"))
     (Group [Leaf "A" (ofZ 1); Leaf "B" zero] (Some "C") None) = true).
Proof.
  assert (Hret : returns "(A:1,B)C:x;"
                   (Group [Leaf "A" (ofZ 1); Leaf "B" zero] (Some "C") None)).
  { exists 4%nat. by vm_compute. }
  pose proof lengths_without_colon as (H1 & H2 & H3 & H4 & H5 & _).
  split; [|split; [|split; [|split]]].
  - split; [reflexivity|]. split; [reflexivity|].
    exact (H1 "(A,B)C;" 4%nat _ eq_refl eq_refl).
  - split; [reflexivity|]. split; [reflexivity|].
    exact (H2 bareTree eq_refl eq_refl).
  - split; [reflexivity|]. split; [reflexivity|].
    exact (H3 "A" "x" eq_refl eq_refl).
  - split; [reflexivity|]. split; [reflexivity|].
    exact (H4 [TLeaf "B" None] "A" (Some "0") eq_refl eq_refl).
  - split; [reflexivity|]. split; [exact Hret|].
    exact (H5 (TGroup [TLeaf "A" (Some "1"); TLeaf "B" None] "C" (Some "x")) _ eq_refl Hret).
Defined.

(** C8, the claim as stated fails: the root of [(A,B)C;] has no length. *)
Lemma group_without_length :
  parseNewick 4 "(A,B)C;" = Some (Group [Leaf "A" zero; Leaf "B" zero] (Some "C") None).
Proof. reflexivity. Qed.

(** ** The table written by [analyzeDescriptors] *)

Lemma analyze_fold_keep (seqs : list Seq.t) (key : string) (keys : list string) :
  forall info,
    info !! key = Some (analyzeColumn (columnValues key seqs)) ->
    fold_left (analyzeKey seqs) keys info !! key
    = Some (analyzeColumn (columnValues key seqs)).
Proof.
  induction keys as [|k keys IH]; intros info Hinfo; [done|].
  simpl. apply IH. unfold analyzeKey.
  destruct (decide (k = key)) as [->|Hne].
  - by rewrite lookup_insert_eq.
  - by rewrite lookup_insert_ne.
Qed.

Lemma analyze_fold_lookup (seqs : list Seq.t) (key : string) (keys : list string) :
  In key keys ->
  forall info,
    fold_left (analyzeKey seqs) keys info !! key
    = Some (analyzeColumn (columnValues key seqs)).
Proof.
  induction keys as [|k keys IH]; intros Hin info; [done|].
  simpl. destruct (decide (k = key)) as [->|Hne].
  - apply analyze_fold_keep. unfold analyzeKey. by rewrite lookup_insert_eq.
  - destruct Hin as [->|Hin]; [done|]. by apply IH.
Qed.

Lemma analyze_fold_other (seqs : list Seq.t) (key : string) (keys : list string) :
  ~ In key keys ->
  forall info, fold_left (analyzeKey seqs) keys info !! key = info !! key.
Proof.
  induction keys as [|k keys IH]; intros Hin info; [done|].
  simpl. rewrite IH by (intros H; apply Hin; by right).
  unfold analyzeKey. apply lookup_insert_ne. intros ->. apply Hin. by left.
Qed.

Lemma analyzeDescriptors_lookup (st : State) (key : string) :
  In key (descriptors st) ->
  descriptorInfo (analyzeDescriptors st) !! key
  = Some (analyzeColumn (columnValues key (allSequences st))).
Proof. intros Hin. simpl. by apply analyze_fold_lookup. Qed.

(** The rule of [analyzeColumn]. *)
Lemma analyzeColumn_type (values : list value) :
  type (analyzeColumn values) = numerical <->
  numGt (numericFraction (List.length (List.filter isNumeric values)) (List.length values))
     threshold = true
  /\ (6 < List.length (unique values))%nat.
Proof.
  destruct values as [|v values].
  - simpl. split; [done|]. intros [H _]. vm_compute in H. done.
  - unfold analyzeColumn.
    destruct (numGt _ threshold) eqn:Hgt; simpl.
    + destruct (6 <? _)%nat eqn:Hlt; simpl.
      * apply Nat.ltb_lt in Hlt. done.
      * apply Nat.ltb_ge in Hlt. split; [done|]. intros [_ H]. lia.
    + split; [done|]. by intros [? _].
Qed.

Lemma analyzeColumn_categorical (values : list value) :
  type (analyzeColumn values) = categorical <->
  ~ (numGt (numericFraction (List.length (List.filter isNumeric values)) (List.length values))
       threshold = true
     /\ (6 < List.length (unique values))%nat).
Proof.
  rewrite <- analyzeColumn_type. destruct (type (analyzeColumn values)); split; try done.
Qed.

(** ** [unique] keeps one value of every SameValueZero class *)


Lemma SFcompare_finite_eq (a : bool) (m : positive) (e : Z) (b : bool) (m' : positive) (e' : Z) :
  SFcompare (S754_finite a m e) (S754_finite b m' e') = Some Eq <->
  a = b /\ m = m' /\ e = e'.
Proof.
  simpl. change (Pos.compare_cont Eq m m') with (Pos.compare m m').
  destruct a, b; simpl;
    destruct (Z.compare_spec e e'); destruct (Pos.compare_spec m m'); simpl;
    (split; [intros Hc; first [discriminate Hc | (repeat split; congruence)]
            | intros (? & ? & ?); first [reflexivity | discriminate | lia]]).
Qed.

Lemma sameValueZero_normalize (a b : value) :
  sameValueZero a b = true <-> normalizeZero a = normalizeZero b.
Proof.
  destruct a as [s|x], b as [t|y]; simpl.
  - rewrite String.eqb_eq. split; congruence.
  - split; [done|]. destruct y; done.
  - split; [done|]. destruct x; done.
  - destruct x as [a|a| |a m e], y as [b|b| |b m' e'];
      try (unfold sameValueZero, SFeqb; simpl;
           repeat match goal with s : bool |- _ => destruct s end;
           simpl; split; first [done | congruence]).
    unfold SFeqb. cbn [sameValueZero isNaN andb orb normalizeZero].
    pose proof (SFcompare_finite_eq a m e b m' e') as H.
    destruct (SFcompare (S754_finite a m e) (S754_finite b m' e')) as [[| |]|];
      (split; [intros H'; first [discriminate H' | (destruct H as [H _];
         destruct (H eq_refl) as (-> & -> & ->); reflexivity)]
              | intros [= -> -> ->]; destruct H as [_ H];
                first [reflexivity | (specialize (H (conj eq_refl (conj eq_refl eq_refl)));
                                       discriminate H)]]).
Qed.

Lemma normalizeZero_idem (v : value) : normalizeZero (normalizeZero v) = normalizeZero v.
Proof. destruct v as [s|[]]; reflexivity. Qed.

Lemma existsb_sameValueZero (v : value) (seen : list value) :
  Forall (fun s => normalizeZero s = s) seen ->
  existsb (sameValueZero v) seen = true <-> In (normalizeZero v) seen.
Proof.
  intros Hnorm. rewrite existsb_exists. rewrite Forall_forall in Hnorm. split.
  - intros (s & Hs & Hsame). apply sameValueZero_normalize in Hsame.
    rewrite Hsame, Hnorm; [done | by apply list_elem_of_In].
  - intros Hin. exists (normalizeZero v). split; [done|].
    apply sameValueZero_normalize. by rewrite normalizeZero_idem.
Qed.

Lemma setAdd_fold (arr : list value) :
  forall seen,
    Forall (fun s => normalizeZero s = s) seen -> List.NoDup seen ->
    Forall (fun s => normalizeZero s = s) (fold_left setAdd arr seen) /\
    List.NoDup (fold_left setAdd arr seen) /\
    (forall x, In x (fold_left setAdd arr seen)
               <-> In x seen \/ In x (map normalizeZero arr)).
Proof.
  induction arr as [|v arr IH]; intros seen Hnorm Hnd.
  - simpl. split; [done|]. split; [done|]. intros x. tauto.
  - simpl. unfold setAdd at 2 4 6.
    destruct (existsb (sameValueZero v) seen) eqn:Hex.
    + destruct (IH seen Hnorm Hnd) as (H1 & H2 & H3).
      split; [done|]. split; [done|]. intros x. rewrite H3.
      apply (existsb_sameValueZero v seen Hnorm) in Hex.
      split; [tauto|]. intros [Hx|[<-|Hx]]; auto.
    + assert (Hnin : ~ In (normalizeZero v) seen).
      { intros Hin. apply (existsb_sameValueZero v seen Hnorm) in Hin. congruence. }
      destruct (IH (seen ++ [normalizeZero v])%list) as (H1 & H2 & H3).
      * apply Forall_app. split; [done|]. constructor; [apply normalizeZero_idem | constructor].
      * apply NoDup_ListNoDup. apply NoDup_app. split_and!.
        -- by apply NoDup_ListNoDup.
        -- intros y Hy Hy2. apply list_elem_of_In in Hy2 as [Heq|[]]. subst y.
           by apply Hnin, list_elem_of_In.
        -- apply NoDup_singleton.
      * split; [done|]. split; [done|]. intros x. rewrite H3, in_app_iff. simpl. tauto.
Qed.

(** [unique] lists every value of the column once, up to SameValueZero. *)
Lemma unique_spec (arr : list value) :
  List.NoDup (unique arr) /\
  (forall x, In x (unique arr) <-> In x (map normalizeZero arr)) /\
  (forall a b, In a (unique arr) -> In b (unique arr) -> sameValueZero a b = true -> a = b).
Proof.
  destruct (setAdd_fold arr [] (Forall_nil_2 _) (List.NoDup_nil _)) as (H1 & H2 & H3).
  split; [done|]. split.
  - intros x. rewrite H3. simpl. tauto.
  - intros a b Ha Hb Hsame. apply sameValueZero_normalize in Hsame.
    rewrite Forall_forall in H1.
    rewrite <- (H1 a), <- (H1 b) by (by apply list_elem_of_In). done.
Qed.

(** ** The default sort *)

Lemma sortInsert_perm (x : value) (l : list value) :
  Permutation (sortInsert x l) (x :: l).
Proof.
  induction l as [|y l IH]; simpl; [done|].
  destruct (sortLe x y); [done|]. rewrite IH. apply perm_swap.
Qed.

Lemma sortDefault_perm (l : list value) : Permutation (sortDefault l) l.
Proof.
  induction l as [|x l IH]; simpl; [done|]. by rewrite sortInsert_perm, IH.
Qed.





(** ** The order of Numbers and [d3.extent] *)

Lemma SFltb_trans (x y z : number) :
  numLt x y = true -> numLt y z = true -> numLt x z = true.
Proof.
  unfold numLt, SFltb.
  destruct x as [a|a| |a m1 e1], y as [b|b| |b m2 e2], z as [c|c| |c m3 e3]; simpl;
    repeat match goal with s : bool |- _ => destruct s end; simpl; try done;
    change (Pos.compare_cont Eq m1 m2) with (Pos.compare m1 m2);
    change (Pos.compare_cont Eq m2 m3) with (Pos.compare m2 m3);
    change (Pos.compare_cont Eq m1 m3) with (Pos.compare m1 m3);
    destruct (Z.compare_spec e1 e2); destruct (Z.compare_spec e2 e3);
    destruct (Z.compare_spec e1 e3); simpl; try done; try lia;
    destruct (Pos.compare_spec m1 m2); destruct (Pos.compare_spec m2 m3);
    destruct (Pos.compare_spec m1 m3); simpl; try done; try lia.
Qed.

Lemma SFltb_irrefl (x : number) : numLt x x = false.
Proof.
  unfold numLt, SFltb. destruct x as [a|a| |a m e]; simpl; try done.
  - by destruct a.
  - rewrite Z.compare_refl, Pos.compare_cont_refl. by destruct a.
Qed.

Lemma ge_refl (x : number) : numGe x x = negb (isNaN x).
Proof.
  unfold numGe, SFleb. destruct x as [a|a| |a m e]; simpl; try done.
  - by destruct a.
  - rewrite Z.compare_refl, Pos.compare_cont_refl. by destruct a.
Qed.

Lemma lt_NaN_l (x : number) : isNaN x = true -> forall y, numLt x y = false /\ numLt y x = false.
Proof. destruct x; try done. intros _ y. by destruct y. Qed.

Lemma extentStep_spec (seen : list number) (acc : option (number * number)) (v : number) :
  extentOf seen acc -> extentOf (seen ++ [v]) (extentStep acc v).
Proof.
  destruct acc as [[lo hi]|]; simpl.
  - intros (Hlo & Hhi & Nlo & Nhi & Hall). unfold numGt. fold (numLt v lo).
    destruct (isNaN v) eqn:Nv.
    + destruct (lt_NaN_l v Nv lo) as [-> _]. destruct (lt_NaN_l v Nv hi) as [_ ->].
      rewrite !in_app_iff. split_and!; auto.
      intros x [Hx|[<-|[]]]%in_app_iff Nx; [auto | congruence].
    + rewrite !in_app_iff. split_and!.
      * destruct (numLt v lo); simpl; auto.
      * destruct (numLt hi v); simpl; auto.
      * by destruct (numLt v lo).
      * by destruct (numLt hi v).
      * intros x [Hx|[<-|[]]]%in_app_iff Nx.
        -- destruct (Hall x Hx Nx) as [H1 H2]. split.
           ++ destruct (numLt v lo) eqn:Hv; [|done].
              destruct (numLt x v) eqn:Hxv; [|done].
              by rewrite (SFltb_trans x v lo) in H1.
           ++ destruct (numLt hi v) eqn:Hv; [|done].
              destruct (numLt v x) eqn:Hxv; [|done].
              by rewrite (SFltb_trans hi v x) in H2.
        -- split.
           ++ destruct (numLt v lo) eqn:Hv; [apply SFltb_irrefl | done].
           ++ destruct (numLt hi v) eqn:Hv; [apply SFltb_irrefl | done].
  - intros Hall. rewrite ge_refl. destruct (isNaN v) eqn:Nv; simpl.
    + intros x [Hx|[<-|[]]]%in_app_iff; auto.
    + rewrite !in_app_iff. split_and!; simpl; auto.
      intros x [Hx|[<-|[]]]%in_app_iff Nx.
      * specialize (Hall x Hx). congruence.
      * split; apply SFltb_irrefl.
Qed.

Lemma extent_fold (values : list number) :
  forall seen acc, extentOf seen acc ->
    extentOf (seen ++ values) (fold_left extentStep values acc).
Proof.
  induction values as [|v values IH]; intros seen acc Hacc; simpl.
  - by rewrite app_nil_r.
  - replace (seen ++ v :: values)%list with ((seen ++ [v]) ++ values)%list
      by (by rewrite <- app_assoc).
    apply IH. by apply extentStep_spec.
Qed.

Lemma extent_spec (values : list number) : extentOf values (extent values).
Proof. apply (extent_fold values [] None). intros x []. Qed.

(** No column has a numeric fraction above the threshold without a numeric
    value. *)
Lemma fraction_zero (len : nat) : numGt (numericFraction 0 len) threshold = false.
Proof.
  unfold numericFraction, numDiv, numGt, numLt.
  change (ofNat 0) with (S754_zero false).
  destruct (ofNat len) as [s|s| |s m e]; reflexivity.
Qed.

(** ** The numeric fraction against the threshold, exactly *)
Lemma digits2_bounds (p : positive) :
  2 ^ (Zpos (digits2_pos p) - 1) <= Zpos p < 2 ^ Zpos (digits2_pos p).
Proof.
  induction p as [p IH | p IH |]; simpl digits2_pos.
  - rewrite Pos2Z.inj_succ, Z.pow_succ_r by lia.
    replace (Z.succ (Zpos (digits2_pos p)) - 1) with (Z.succ (Zpos (digits2_pos p) - 1)) by lia.
    rewrite Z.pow_succ_r by lia. lia.
  - rewrite Pos2Z.inj_succ, Z.pow_succ_r by lia.
    replace (Z.succ (Zpos (digits2_pos p)) - 1) with (Z.succ (Zpos (digits2_pos p) - 1)) by lia.
    rewrite Z.pow_succ_r by lia. lia.
  - simpl. lia.
Qed.

Lemma digits2_unique (p : positive) (k : Z) :
  2 ^ (k - 1) <= Zpos p < 2 ^ k -> Zpos (digits2_pos p) = k.
Proof.
  intros [Hlo Hhi]. pose proof (digits2_bounds p) as [Dlo Dhi].
  assert (0 < k).
  { destruct (Z.ltb_spec 0 k); [done|].
    destruct (Z.eqb_spec k 0) as [->|Hk]; [simpl in Hhi; lia|].
    rewrite Z.pow_neg_r in Hhi by lia. lia. }
  destruct (Z.lt_trichotomy (Zpos (digits2_pos p)) k) as [Hlt | [Heq | Hgt]]; [|done|].
  - assert (2 ^ Zpos (digits2_pos p) <= 2 ^ (k - 1)) by (apply Z.pow_le_mono_r; lia). lia.
  - assert (2 ^ k <= 2 ^ (Zpos (digits2_pos p) - 1)) by (apply Z.pow_le_mono_r; lia). lia.
Qed.

Lemma iter_xO (p j : positive) : Zpos (Pos.iter xO p j) = Zpos p * 2 ^ Zpos j.
Proof.
  induction j as [|j IH] using Pos.peano_ind.
  - simpl. lia.
  - rewrite Pos.iter_succ, Pos2Z.inj_succ, Z.pow_succ_r by lia.
    rewrite Pos2Z.inj_xO, IH. lia.
Qed.

Lemma round_exact (m : positive) (e : Z) :
  full m -> -1074 <= e <= 971 ->
  binary_round_aux prec emax false (Zpos m) e loc_Exact = S754_finite false m e.
Proof.
  intros Hm He. unfold binary_round_aux, shr_fexp.
  cbn [Zdigits2 shr_record_of_loc]. rewrite Hm.
  assert (Hf : fexp prec emax (53 + e) - e = 0).
  { unfold fexp, emin, prec, emax. lia. }
  rewrite Hf. cbn [shr shr_m loc_of_shr_record round_nearest_even Zdigits2 shr_record_of_loc].
  rewrite Hm, Hf. cbn [shr shr_m].
  unfold prec, emax. destruct (Z.leb_spec e (1024 - 53)); [done | lia].
Qed.

Lemma ofZ_full (p : positive) :
  Zpos p < 2 ^ 53 ->
  exists m e, ofZ (Zpos p) = S754_finite false m e /\ full m /\
              -52 <= e <= 0 /\ Zpos m = Zpos p * 2 ^ (- e) /\
              e = Zpos (digits2_pos p) - 53.
Proof.
  intros Hp. pose proof (digits2_bounds p) as [Dlo Dhi].
  assert (Hd : 1 <= Zpos (digits2_pos p) <= 53).
  { split; [lia|]. destruct (Z.leb_spec (Zpos (digits2_pos p)) 53); [done|].
    assert (2 ^ 53 <= 2 ^ (Zpos (digits2_pos p) - 1)) by (apply Z.pow_le_mono_r; lia). lia. }
  unfold ofZ, binary_normalize, binary_round.
  assert (Hf : fexp prec emax (Zpos (digits2_pos p) + 0) = Zpos (digits2_pos p) - 53).
  { unfold fexp, emin, prec, emax. lia. }
  rewrite Hf. unfold shl_align.
  destruct (Zpos (digits2_pos p) - 53 - 0) as [|j|j] eqn:Hj; [|lia|].
  - exists p, 0. rewrite round_exact by (unfold full; lia).
    split_and!; try done; try lia. unfold full. lia.
  - exists (Pos.iter xO p j), (Zpos (digits2_pos p) - 53).
    assert (Hfull : full (Pos.iter xO p j)).
    { unfold full. apply digits2_unique. rewrite iter_xO.
      replace (Zpos j) with (53 - Zpos (digits2_pos p)) by lia.
      replace (53 - 1) with ((Zpos (digits2_pos p) - 1) + (53 - Zpos (digits2_pos p))) by lia.
      replace 53 with (Zpos (digits2_pos p) + (53 - Zpos (digits2_pos p))) at 4 by lia.
      rewrite !Z.pow_add_r by lia. nia. }
    rewrite round_exact by (done || lia).
    split_and!; try done; try lia.
    rewrite iter_xO. f_equal. f_equal. lia.
Qed.

Lemma binary_round_aux_finish (mx ex : Z) (lx : location) :
  binary_round_aux prec emax false mx ex lx =
  let '(mrs, e') := shr_fexp prec emax mx ex lx in
  finish (round_nearest_even (shr_m mrs) (loc_of_shr_record mrs)) e'.
Proof. reflexivity. Qed.

Lemma finish_full (m : positive) (e : Z) :
  full m -> -1074 <= e <= 971 -> finish (Zpos m) e = S754_finite false m e.
Proof.
  intros Hm He. unfold finish, shr_fexp. cbn [Zdigits2 shr_record_of_loc]. rewrite Hm.
  assert (Hf : fexp prec emax (53 + e) - e = 0).
  { unfold fexp, emin, prec, emax. lia. }
  rewrite Hf. cbn [shr shr_m].
  unfold prec, emax. destruct (Z.leb_spec e (1024 - 53)); [done | lia].
Qed.

Lemma finish_carry (e : Z) :
  -1074 <= e <= 970 ->
  finish (2 ^ 53) e = S754_finite false (2 ^ 52)%positive (e + 1).
Proof.
  intros He. unfold finish, shr_fexp.
  change (Zdigits2 (2 ^ 53)) with 54.
  assert (Hf : fexp prec emax (54 + e) - e = 1).
  { unfold fexp, emin, prec, emax. lia. }
  rewrite Hf. cbn.
  unfold prec, emax. destruct (Z.leb_spec (e + 1) (1024 - 53)); [done | lia].
Qed.

Lemma round_nearest_even_cases (M : Z) (l : location) :
  round_nearest_even M l = M \/ round_nearest_even M l = M + 1.
Proof. destruct l as [|[| |]]; simpl; auto. destruct (Z.even M); auto. Qed.

Lemma loc_record (M : Z) (l : location) :
  shr_m (shr_record_of_loc M l) = M.
Proof. by destruct l as [|[| |]]. Qed.

Lemma shr_1_m (q : positive) (r s : bool) :
  shr_m (shr_1 (Build_shr_record (Zpos q) r s)) = Zpos q / 2.
Proof. rewrite <- Z.div2_div. by destruct q. Qed.

Lemma succ_full (M : Z) :
  2 ^ 52 <= M < 2 ^ 53 ->
  (exists m, M + 1 = Zpos m /\ full m /\ M + 1 < 2 ^ 53) \/ M + 1 = 2 ^ 53.
Proof.
  intros HM. destruct (Z.eq_dec (M + 1) (2 ^ 53)) as [|Hne]; [by right|]. left.
  destruct (M + 1) as [|m|m] eqn:Hm; try lia.
  exists m. split; [done|]. split; [|lia]. apply digits2_unique. lia.
Qed.

Lemma finish_rounded (M E : Z) (l : location) :
  2 ^ 52 <= M < 2 ^ 53 -> -1074 <= E <= 970 ->
  roundedTo M E (finish (round_nearest_even M l) E).
Proof.
  intros HM HE. destruct (round_nearest_even_cases M l) as [-> | ->].
  - destruct M as [|m|m] eqn:Hm; try lia.
    exists m, E. split; [|by left].
    apply finish_full; [apply digits2_unique|]; lia.
  - destruct (succ_full M HM) as [(m & Hm & Hfull & Hlt) | Hc].
    + exists m, E. split; [rewrite Hm; apply finish_full; [done | lia]|].
      right. left. lia.
    + exists (2 ^ 52)%positive, (E + 1). split; [rewrite Hc; apply finish_carry; lia|].
      right. right. done.
Qed.

Lemma round_cases (q : positive) (e : Z) (l : location) :
  2 ^ 52 <= Zpos q < 2 ^ 54 -> -1074 <= e <= 969 ->
  exists M E,
    ((M = Zpos q /\ E = e) \/ (M = Zpos q / 2 /\ E = e + 1)) /\
    2 ^ 52 <= M < 2 ^ 53 /\
    roundedTo M E (binary_round_aux prec emax false (Zpos q) e l).
Proof.
  intros Hq He. rewrite binary_round_aux_finish. unfold shr_fexp. cbn [Zdigits2].
  destruct (Z.ltb_spec (Zpos q) (2 ^ 53)) as [Hlt|Hge].
  - assert (Hd : Zpos (digits2_pos q) = 53) by (apply digits2_unique; lia).
    rewrite Hd.
    assert (Hf : fexp prec emax (53 + e) - e = 0) by (unfold fexp, emin, prec, emax; lia).
    rewrite Hf. cbn [shr]. rewrite loc_record.
    exists (Zpos q), e. split; [by left|]. split; [lia|].
    apply finish_rounded; lia.
  - assert (Hd : Zpos (digits2_pos q) = 54) by (apply digits2_unique; lia).
    rewrite Hd.
    assert (Hf : fexp prec emax (54 + e) - e = 1) by (unfold fexp, emin, prec, emax; lia).
    rewrite Hf. cbn [shr iter_pos].
    destruct l as [|[| |]]; cbn [shr_record_of_loc]; rewrite shr_1_m;
      (exists (Zpos q / 2), (e + 1); split; [by right|];
       assert (2 ^ 52 <= Zpos q / 2 < 2 ^ 53)
         by (split; [apply Z.div_le_lower_bound; lia | apply Z.div_lt_upper_bound; lia]);
       split; [done|]; apply finish_rounded; lia).
Qed.

Lemma div_full (mx my : positive) (ex ey : Z) :
  full mx -> full my -> -52 <= ex - ey <= 52 ->
  exists q l,
    Zpos q = Zpos mx * 2 ^ 53 / Zpos my /\ 2 ^ 52 <= Zpos q < 2 ^ 54 /\
    numDiv (S754_finite false mx ex) (S754_finite false my ey)
    = binary_round_aux prec emax false (Zpos q) (ex - ey - 53) l.
Proof.
  intros Hx Hy He. unfold full in Hx, Hy.
  pose proof (digits2_bounds mx) as Bx. pose proof (digits2_bounds my) as By.
  rewrite Hx in Bx. rewrite Hy in By. change (53 - 1) with 52 in *.
  assert (Hq : 2 ^ 52 <= Zpos mx * 2 ^ 53 / Zpos my < 2 ^ 54).
  { split.
    - apply Z.div_le_lower_bound; [lia|]. nia.
    - apply Z.div_lt_upper_bound; [lia|]. nia. }
  unfold numDiv, SFdiv, SFdiv_core_binary. cbn [Zdigits2 xorb]. rewrite Hx, Hy.
  assert (Hmin : Z.min (fexp prec emax (53 + ex - (53 + ey))) (ex - ey) = ex - ey - 53).
  { unfold fexp, emin, prec, emax. lia. }
  rewrite Hmin.
  replace (ex - ey - (ex - ey - 53)) with 53 by lia.
  rewrite Z.shiftl_mul_pow2 by lia.
  pose proof (Z.div_eucl_eq (Zpos mx * 2 ^ 53) (Zpos my)) as Heucl.
  unfold Z.div in Hq.
  destruct (Z.div_eucl (Zpos mx * 2 ^ 53) (Zpos my)) as [q r] eqn:Hdiv.
  destruct q as [|q|q]; try lia.
  exists q, (new_location (Zpos my) r). split; [|done].
  unfold Z.div. by rewrite Hdiv.
Qed.

Lemma fraction_cases (n l : positive) :
  Zpos n <= Zpos l -> Zpos l < 2 ^ 53 ->
  exists M E,
    E <= -52 /\ M = Zpos n * 2 ^ (- E) / Zpos l /\ 2 ^ 52 <= M < 2 ^ 53 /\
    roundedTo M E (numDiv (ofZ (Zpos n)) (ofZ (Zpos l))).
Proof.
  intros Hnl Hl.
  destruct (ofZ_full n) as (mx & ex & -> & Hx & Bx & Vx & Dx); [lia|].
  destruct (ofZ_full l) as (my & ey & -> & Hy & By & Vy & Dy); [done|].
  assert (Hle : ex <= ey).
  { pose proof (digits2_bounds n) as [Nlo _]. pose proof (digits2_bounds l) as [_ Lhi].
    destruct (Z.leb_spec ex ey); [done|].
    assert (2 ^ Zpos (digits2_pos l) <= 2 ^ (Zpos (digits2_pos n) - 1))
      by (apply Z.pow_le_mono_r; lia).
    lia. }
  destruct (div_full mx my ex ey Hx Hy) as (q & loc & Hq & Bq & ->); [lia|].
  assert (Hqv : Zpos q = Zpos n * 2 ^ (- (ex - ey - 53)) / Zpos l).
  { rewrite Hq, Vx, Vy.
    replace (- (ex - ey - 53)) with ((ey - ex) + 53) by lia.
    replace (- ex) with ((ey - ex) + - ey) by lia.
    rewrite !Z.pow_add_r by lia.
    replace (Zpos n * (2 ^ (ey - ex) * 2 ^ (- ey)) * 2 ^ 53)
      with ((Zpos n * (2 ^ (ey - ex) * 2 ^ 53)) * 2 ^ (- ey)) by ring.
    apply Z.div_mul_cancel_r; [lia|]. apply Z.pow_nonzero; lia. }
  assert (Be : -1074 <= ex - ey - 53 <= 969) by lia.
  destruct (round_cases q (ex - ey - 53) loc Bq Be) as (M & E & [[-> ->] | [-> ->]] & BM & HR).
  - exists (Zpos q), (ex - ey - 53). split; [lia|]. split; [done|]. split; [lia|done].
  - exists (Zpos q / 2), (ex - ey - 53 + 1). split; [lia|]. split; [|split; [lia|done]].
    rewrite Hqv, Z.div_div by lia.
    replace (- (ex - ey - 53)) with (- (ex - ey - 53 + 1) + 1) by lia.
    rewrite Z.pow_add_r by lia. change (2 ^ 1) with 2.
    rewrite Z.mul_assoc. apply Z.div_mul_cancel_r; lia.
Qed.

Lemma threshold_value : threshold = S754_finite false 7205759403792794 (-53).
Proof. reflexivity. Qed.

Lemma numGt_threshold (m2 : positive) (e2 : Z) :
  numGt (S754_finite false m2 e2) threshold =
  match -53 ?= e2 with
  | Lt => true
  | Gt => false
  | Eq => (7205759403792794 <? Zpos m2)
  end.
Proof.
  rewrite threshold_value. unfold numGt, SFltb, SFcompare.
  destruct (-53 ?= e2); done.
Qed.

(** Up to [2^50] values the test [numericCount / values.length > 0.8]
    in binary64 is the exact one: the Number [0.8] is [0.8 + 2^-52 / 5],
    and no quotient of two such counts falls between the two. *)
Lemma fraction_exact (n l : nat) :
  (n <= l)%nat -> Z.of_nat l <= 2 ^ 50 ->
  numGt (numericFraction n l) threshold = (4 * Z.of_nat l <? 5 * Z.of_nat n).
Proof.
  intros Hnl Hl. destruct n as [|n].
  { rewrite fraction_zero. destruct (Z.ltb_spec (4 * Z.of_nat l) (5 * Z.of_nat 0)); lia. }
  destruct l as [|l]; [lia|].
  unfold numericFraction, ofNat.
  destruct (Z.of_nat (S n)) as [|p|p] eqn:Hp; try lia.
  destruct (Z.of_nat (S l)) as [|r|r] eqn:Hr; try lia.
  assert (Hpr : Zpos p <= Zpos r) by lia.
  destruct (fraction_cases p r Hpr) as (M & E & HE & HM & BM & (m2 & e2 & -> & Hcases)); [lia|].
  rewrite numGt_threshold.
  assert (Hup : Zpos p * 2 ^ (- E) < Zpos r * (M + 1)).
  { rewrite HM. apply Z.mul_succ_div_gt. lia. }
  assert (Hlow : Zpos r * M <= Zpos p * 2 ^ (- E)).
  { rewrite HM. apply Z.mul_div_le. lia. }
  destruct (Z.eq_dec E (-52)) as [->|HE52]; [|destruct (Z.eq_dec E (-53)) as [->|HE53]].
  - (* the fraction is 1 *)
    change (2 ^ (- -52)) with (2 ^ 52) in *.
    assert (Zpos r * 2 ^ 52 <= Zpos r * M) by (apply Z.mul_le_mono_nonneg_l; lia).
    assert (Zpos p = Zpos r) by lia.
    replace (-53 ?= e2) with Lt by (symmetry; apply Z.compare_lt_iff; lia).
    destruct (Z.ltb_spec (4 * Zpos r) (5 * Zpos p)); lia.
  - change (2 ^ (- -53)) with (2 ^ 53) in *.
    destruct (Z.ltb_spec (4 * Zpos r) (5 * Zpos p)) as [Hgt|Hle].
    + assert (7205759403792794 + 1 <= M).
      { destruct (Z.le_gt_cases (7205759403792794 + 1) M) as [|Hc]; [done|].
        assert (Zpos r * (M + 1) <= Zpos r * (7205759403792794 + 1))
          by (apply Z.mul_le_mono_nonneg_l; lia).
        lia. }
      destruct Hcases as [[Hm ->] | [[Hm [_ ->]] | [Hm [_ ->]]]]; simpl Z.compare.
      * destruct (Z.ltb_spec 7205759403792794 (Zpos m2)); lia.
      * destruct (Z.ltb_spec 7205759403792794 (Zpos m2)); lia.
      * done.
    + assert (M < 7205759403792794).
      { destruct (Z.lt_ge_cases M 7205759403792794) as [|Hc]; [done|].
        assert (Zpos r * 7205759403792794 <= Zpos r * M)
          by (apply Z.mul_le_mono_nonneg_l; lia).
        lia. }
      destruct Hcases as [[Hm ->] | [[Hm [_ ->]] | [Hm [Hc ->]]]]; simpl Z.compare.
      * destruct (Z.ltb_spec 7205759403792794 (Zpos m2)); lia.
      * destruct (Z.ltb_spec 7205759403792794 (Zpos m2)); lia.
      * lia.
  - assert (HE54 : E <= -54) by lia.
    assert (2 ^ 54 <= 2 ^ (- E)) by (apply Z.pow_le_mono_r; lia).
    assert (Zpos p * 2 ^ 54 <= Zpos p * 2 ^ (- E)) by (apply Z.mul_le_mono_nonneg_l; lia).
    assert (Zpos r * (M + 1) <= Zpos r * 2 ^ 53) by (apply Z.mul_le_mono_nonneg_l; lia).
    assert (4 * Zpos r >= 5 * Zpos p) by lia.
    destruct (Z.ltb_spec (4 * Zpos r) (5 * Zpos p)); [lia|].
    destruct Hcases as [[Hm ->] | [[Hm [_ ->]] | [Hm [Hc ->]]]].
    + replace (-53 ?= E) with Gt by (symmetry; apply Z.compare_gt_iff; lia). done.
    + replace (-53 ?= E) with Gt by (symmetry; apply Z.compare_gt_iff; lia). done.
    + destruct (Z.compare_spec (-53) (E + 1)); try done; lia.
Qed.

Lemma isNumeric_toNumber (v : value) :
  isNumeric v = true -> isNaN (toNumber v) = false.
Proof.
  unfold isNumeric, isFinite. intros [_ H]%andb_true_iff.
  by destruct (toNumber v).
Qed.

(** ** Rounding never gives [NaN] *)

Lemma shr_1_nonneg (mrs : shr_record) : 0 <= shr_m mrs -> 0 <= shr_m (shr_1 mrs).
Proof. destruct mrs as [m r s]. destruct m as [|[p|p|]|p]; simpl; lia. Qed.

Lemma iter_shr_nonneg (p : positive) :
  forall mrs, 0 <= shr_m mrs -> 0 <= shr_m (SpecFloat.iter_pos shr_1 p mrs).
Proof.
  induction p as [p IH|p IH|]; intros mrs H; simpl.
  - by apply IH, IH, shr_1_nonneg.
  - by apply IH, IH.
  - by apply shr_1_nonneg.
Qed.

Lemma shr_fexp_nonneg (M e : Z) (l : location) :
  0 <= M -> 0 <= shr_m (shr_fexp prec emax M e l).1.
Proof.
  intros HM. unfold shr_fexp, shr.
  destruct (fexp prec emax (Zdigits2 M + e) - e) as [|p|p]; simpl;
    try (by rewrite loc_record).
  apply iter_shr_nonneg. by rewrite loc_record.
Qed.

Lemma round_aux_not_nan (s : bool) (M e : Z) (l : location) :
  0 <= M -> isNaN (binary_round_aux prec emax s M e l) = false.
Proof.
  intros HM. unfold binary_round_aux.
  pose proof (shr_fexp_nonneg M e l HM) as H1.
  destruct (shr_fexp prec emax M e l) as [mrs e1]. simpl in H1.
  assert (H2 : 0 <= round_nearest_even (shr_m mrs) (loc_of_shr_record mrs)).
  { destruct (round_nearest_even_cases (shr_m mrs) (loc_of_shr_record mrs)) as [-> | ->]; lia. }
  pose proof (shr_fexp_nonneg _ e1 loc_Exact H2) as H3.
  destruct (shr_fexp prec emax _ e1 loc_Exact) as [mrs2 e2]. simpl in H3.
  destruct (shr_m mrs2) as [|m|m]; [done| |lia].
  by destruct (e2 <=? emax - prec).
Qed.

Lemma normalize_not_nan (m e : Z) (s : bool) :
  isNaN (binary_normalize prec emax m e s) = false.
Proof.
  destruct m as [|p|p]; simpl; [done| |];
    unfold binary_round; destruct (shl_align _ _ _) as [mz ez];
    by apply round_aux_not_nan.
Qed.

(** A decimal literal is never read as [NaN]. *)
Lemma ofDecimal_not_nan (neg : bool) (m e : Z) : isNaN (ofDecimal neg m e) = false.
Proof.
  unfold ofDecimal. destruct (m <=? 0) eqn:Hm; [done|].
  apply Z.leb_gt in Hm.
  destruct (0 <=? e) eqn:He; [apply normalize_not_nan|].
  apply Z.leb_gt in He.
  unfold SFdiv_core_binary.
  set (e' := Z.min _ _). set (m' := match 0 - 0 - e' with Z0 => m | Zpos _ => _ | Zneg _ => 0 end).
  assert (Hm' : 0 <= m').
  { subst m'. destruct (0 - 0 - e'); [lia| |lia]. apply Z.shiftl_nonneg. lia. }
  assert (Hten : 0 < 10 ^ (- e)) by (apply Z.pow_pos_nonneg; lia).
  pose proof (Z.div_pos m' (10 ^ (- e)) Hm' Hten) as Hq. unfold Z.div in Hq.
  destruct (Z.div_eucl m' (10 ^ (- e))) as [q r]. by apply round_aux_not_nan.
Qed.

(** ** A Number written and read again *)

Lemma isDigit_not_space (d : ascii) : isDigit d = true -> isWhiteSpace d = false.
Proof.
  unfold isDigit, isWhiteSpace. intros [H1 H2]%andb_true_iff.
  apply Z.leb_le in H1. apply Z.leb_le in H2.
  repeat (apply orb_false_iff; split);
    [apply andb_false_iff; right; apply Z.leb_gt; lia | apply Z.eqb_neq; lia ..].
Qed.

Lemma scanUnsigned_digit (neg : bool) (d : ascii) (r : string) :
  isDigit d = true ->
  exists x rest, scanUnsignedDecimal neg (String d r) = Some (x, rest) /\ isNaN x = false.
Proof.
  intros Hd. unfold scanUnsignedDecimal.
  assert (HI : startsWith "Infinity" (String d r) = false).
  { change (startsWith "Infinity" (String d r))
      with (Ascii.eqb "I" d && startsWith "nfinity" r).
    destruct (Ascii.eqb_spec "I" d) as [<-|]; [discriminate | reflexivity]. }
  rewrite HI. simpl spanDigits. rewrite Hd.
  destruct (spanDigits r) as [ip r1].
  destruct r1 as [|c r1'].
  - simpl isEmpty. cbn iota. destruct (exponentPart "") as [ex r3].
    eexists _, _. split; [reflexivity|]. apply ofDecimal_not_nan.
  - destruct (Ascii.eqb_spec c ".") as [->|Hc].
    + destruct (spanDigits r1') as [fp r2]. simpl isEmpty. cbn iota. simpl andb. cbn iota.
      destruct (exponentPart r2) as [ex r3].
      eexists _, _. split; [reflexivity|]. apply ofDecimal_not_nan.
    + assert (E : match String c r1' with
                  | String "." r1'' =>
                      let '(fp, r2) := spanDigits r1'' in
                      if isEmpty (String d ip) && isEmpty fp then None
                      else let '(ex, r3) := exponentPart r2 in
                           Some (ofDecimal neg (decimalValue (String d ip ++ fp))
                                   (ex - Z.of_nat (String.length fp)), r3)
                  | _ =>
                      if isEmpty (String d ip) then None
                      else let '(ex, r3) := exponentPart (String c r1') in
                           Some (ofDecimal neg (decimalValue (String d ip)) ex, r3)
                  end
                  = let '(ex, r3) := exponentPart (String c r1') in
                    Some (ofDecimal neg (decimalValue (String d ip)) ex, r3)).
      { destruct c as [[] [] [] [] [] [] [] []]; try reflexivity. done. }
      rewrite E. destruct (exponentPart (String c r1')) as [ex r3].
      eexists _, _. split; [reflexivity|]. apply ofDecimal_not_nan.
Qed.

Lemma parseFloat_digit (d : ascii) (r : string) :
  isDigit d = true -> isNaN (parseFloatString (String d r)) = false.
Proof.
  intros Hd. unfold parseFloatString. simpl trimStart.
  rewrite (isDigit_not_space d Hd).
  assert (E : scanDecimal (String d r) = scanUnsignedDecimal false (String d r)).
  { unfold scanDecimal. destruct d as [[] [] [] [] [] [] [] []]; try reflexivity; discriminate. }
  rewrite E. by destruct (scanUnsigned_digit false d r Hd) as (x & rest & -> & Hx).
Qed.

Lemma parseFloat_minus_digit (d : ascii) (r : string) :
  isDigit d = true -> isNaN (parseFloatString (String "-" (String d r))) = false.
Proof.
  intros Hd. unfold parseFloatString.
  change (trimStart (String "-" (String d r))) with (String "-" (String d r)).
  change (scanDecimal (String "-" (String d r)))
    with (scanUnsignedDecimal true (String d r)).
  by destruct (scanUnsigned_digit true d r Hd) as (x & rest & -> & Hx).
Qed.

Lemma digitsOf_digit (c : Z) :
  exists d rest, digitsOf c = String d rest /\ isDigit d = true.
Proof.
  unfold digitsOf.
  pose proof (Unsigned.to_uint_nonnil (Z.to_pos c)) as Hnil.
  destruct (Pos.to_uint (Z.to_pos c)) as [|u|u|u|u|u|u|u|u|u|u]; [done|..];
    simpl; eexists _, _; (split; [reflexivity|]); reflexivity.
Qed.

Lemma substring_head (n : nat) (d : ascii) (rest : string) :
  substring 0 (S n) (String d rest) = String d (substring 0 n rest).
Proof. reflexivity. Qed.

Lemma formatDigits_digit (ds : string) (n : Z) :
  (exists d rest, ds = String d rest /\ isDigit d = true) ->
  exists d rest, formatDigits ds n = String d rest /\ isDigit d = true.
Proof.
  intros (d & rest & -> & Hd). unfold formatDigits.
  destruct (_ && _).
  { rewrite app_cons. eauto. }
  destruct ((0 <? n) && (n <=? 21)) eqn:H2.
  { apply andb_true_iff in H2 as [H2 _]. apply Z.ltb_lt in H2.
    destruct (Z.to_nat n) as [|k] eqn:Hk; [lia|].
    rewrite substring_head, app_cons. eauto. }
  clear H2. destruct ((-6 <? n) && (n <=? 0)).
  { eexists _, _. split; [reflexivity | reflexivity]. }
  destruct (_ =? 1).
  - rewrite app_cons. eauto.
  - rewrite substring_head, app_cons. eauto.
Qed.

Lemma parseFloat_toString (x : number) :
  isFiniteNumber x = true -> isNaN (parseFloatString (numberToString x)) = false.
Proof.
  destruct x as [s|s| |s m e]; try done. intros _. simpl.
  assert (H : exists d rest, positiveToString m e = String d rest /\ isDigit d = true).
  { unfold positiveToString.
    destruct (shortestDigits _ _ _ _ _) as [c q].
    destruct (stripZeros _ _ _) as [c' q'].
    apply formatDigits_digit, digitsOf_digit. }
  destruct H as (d & rest & -> & Hd).
  destruct s; [by apply parseFloat_minus_digit | by apply parseFloat_digit].
Qed.

(** ** The numeric test, the distinct values and the values of a column *)

Lemma trimStart_cases (s : string) :
  trimStart s = "" \/ exists c r, trimStart s = String c r /\ isWhiteSpace c = false.
Proof.
  induction s as [|c s IH]; [by left|]. simpl.
  destruct (isWhiteSpace c) eqn:Hc; [done|]. right. by exists c, s.
Qed.

Lemma trimEnd_head (c : ascii) (r : string) :
  isWhiteSpace c = false -> exists t, trimEnd (String c r) = String c t.
Proof.
  intros Hc. simpl. destruct (trimEnd r) as [|d t].
  - rewrite Hc. by eexists.
  - by eexists.
Qed.

Lemma trim_empty (s : string) : trim s = "" -> trimStart s = "".
Proof.
  unfold trim. destruct (trimStart_cases s) as [-> | (c & r & -> & Hc)]; [done|].
  destruct (trimEnd_head c r Hc) as [t ->]. done.
Qed.

Lemma trimEnd_prefix (u : string) : exists w, u = trimEnd u ++ w.
Proof.
  induction u as [|c u [w IH]]; [by exists ""|]. simpl.
  destruct (trimEnd u) as [|d t] eqn:Ht.
  - destruct (isWhiteSpace c).
    + by exists (String c u).
    + by exists u.
  - exists w. rewrite app_cons. by rewrite <- IH.
Qed.

Lemma startsWith_app (p u w : string) :
  startsWith p u = true -> startsWith p (u ++ w) = true.
Proof.
  revert u. induction p as [|a p IH]; intros u; [done|].
  destruct u as [|b u]; [done|]. rewrite app_cons. simpl.
  intros [-> H]%andb_true_iff. by rewrite (IH u H).
Qed.

Lemma spanDigits_nil (u : string) :
  (spanDigits u).1 = "" -> (spanDigits u).2 = u.
Proof.
  destruct u as [|c u]; [done|]. simpl.
  destruct (isDigit c); [|done]. by destruct (spanDigits u).
Qed.

Lemma spanDigits_head (u : string) :
  (spanDigits u).1 <> "" -> exists d r, u = String d r /\ isDigit d = true.
Proof.
  destruct u as [|c u]; [done|]. simpl.
  destruct (isDigit c) eqn:Hc; [|done]. intros _. by exists c, u.
Qed.

(** The three ways a decimal literal can start. *)
Lemma scanUnsigned_start (neg : bool) (u : string) (x : number) (r : string) :
  scanUnsignedDecimal neg u = Some (x, r) ->
  startsWith "Infinity" u = true
  \/ (exists d t, u = String d t /\ isDigit d = true)
  \/ (exists d t, u = String "." (String d t) /\ isDigit d = true).
Proof.
  intros H. unfold scanUnsignedDecimal in H.
  destruct (startsWith "Infinity" u); [by left|]. right.
  pose proof (spanDigits_nil u) as Hnil. pose proof (spanDigits_head u) as Hhead.
  destruct (spanDigits u) as [ip r1]. simpl in Hnil, Hhead.
  destruct ip as [|d ip]; [|left; by apply Hhead].
  specialize (Hnil eq_refl). subst r1. clear Hhead.
  destruct u as [|c u]; [done|].
  destruct (Ascii.eqb_spec c ".") as [->|Hc].
  - pose proof (spanDigits_head u) as Hfp.
    destruct (spanDigits u) as [fp r2]. simpl in Hfp.
    destruct fp as [|d fp]; [done|]. right.
    destruct Hfp as (d' & t & -> & Hd'); [done|]. by exists d', t.
  - exfalso. destruct c as [[] [] [] [] [] [] [] []]; try discriminate H. by apply Hc.
Qed.

Lemma scanUnsigned_dot (neg : bool) (d : ascii) (t : string) :
  isDigit d = true ->
  exists x rest,
    scanUnsignedDecimal neg (String "." (String d t)) = Some (x, rest) /\ isNaN x = false.
Proof.
  intros Hd. unfold scanUnsignedDecimal.
  change (startsWith "Infinity" (String "." (String d t))) with false. cbn iota.
  change (spanDigits (String "." (String d t))) with ("", String "." (String d t)).
  cbn iota. simpl spanDigits. rewrite Hd.
  destruct (spanDigits t) as [fp r2]. simpl isEmpty. cbn iota.
  destruct (exponentPart r2) as [ex r3].
  eexists _, _. split; [reflexivity|]. apply ofDecimal_not_nan.
Qed.

Lemma scanUnsigned_app (neg : bool) (u w : string) (x : number) (r : string) :
  scanUnsignedDecimal neg u = Some (x, r) ->
  exists x' r', scanUnsignedDecimal neg (u ++ w) = Some (x', r') /\ isNaN x' = false.
Proof.
  intros [H | [(d & t & -> & Hd) | (d & t & -> & Hd)]]%scanUnsigned_start.
  - unfold scanUnsignedDecimal. rewrite (startsWith_app _ _ w H).
    eexists _, _. split; [reflexivity | done].
  - rewrite app_cons. by apply scanUnsigned_digit.
  - rewrite !app_cons. by apply scanUnsigned_dot.
Qed.

Lemma scanDecimal_app (u w : string) (x : number) (r : string) :
  scanDecimal u = Some (x, r) ->
  exists x' r', scanDecimal (u ++ w) = Some (x', r') /\ isNaN x' = false.
Proof.
  destruct u as [|c u].
  - intros H. discriminate H.
  - rewrite app_cons. unfold scanDecimal.
    destruct (Ascii.eqb_spec c "+") as [->|Hp]; [apply scanUnsigned_app|].
    destruct (Ascii.eqb_spec c "-") as [->|Hm]; [apply scanUnsigned_app|].
    assert (E : forall v, match String c v with
                          | String "+" r0 => scanUnsignedDecimal false r0
                          | String "-" r0 => scanUnsignedDecimal true r0
                          | _ => scanUnsignedDecimal false (String c v)
                          end = scanUnsignedDecimal false (String c v)).
    { intros v. destruct c as [[] [] [] [] [] [] [] []]; try reflexivity; done. }
    rewrite !E. rewrite <- app_cons. apply scanUnsigned_app.
Qed.

Lemma nonDecimal_head (t : string) (z : Z) :
  nonDecimalLiteral t = Some z -> exists r, t = String "0" r.
Proof.
  destruct t as [|c t]; [done|].
  destruct (Ascii.eqb_spec c "0") as [->|Hc]; [by eexists|].
  intros H. exfalso. simpl in H.
  destruct c as [[] [] [] [] [] [] [] []]; try discriminate H. by apply Hc.
Qed.

(** [parseFloat] reads a number wherever [Number] reads one in a text
    that is not blank. *)
Lemma parseFloat_of_number (s : string) :
  isNaN (stringToNumber s) = false -> isEmpty (trim s) = false ->
  isNaN (parseFloatString s) = false.
Proof.
  unfold stringToNumber, parseFloatString, trim. intros Hnum Hne.
  destruct (trimEnd_prefix (trimStart s)) as [w Hw].
  set (t := trimEnd (trimStart s)) in *. rewrite Hne in Hnum. rewrite Hw.
  destruct (nonDecimalLiteral t) as [z|] eqn:Hz.
  - destruct (nonDecimal_head t z Hz) as [r ->]. rewrite app_cons.
    assert (E : scanDecimal (String "0" (r ++ w)) = scanUnsignedDecimal false (String "0" (r ++ w)))
      by reflexivity.
    rewrite E.
    by destruct (scanUnsigned_digit false "0" (r ++ w) eq_refl) as (x & rest & -> & Hx).
  - destruct (scanDecimal t) as [[x r]|] eqn:Hs; [|done].
    by destruct (scanDecimal_app t w x r Hs) as (x' & r' & -> & Hx).
Qed.

Lemma parseFloat_blank (s : string) : trim s = "" -> isNaN (parseFloatString s) = true.
Proof. intros H. unfold parseFloatString. by rewrite (trim_empty s H). Qed.

(** The numeric test of the classifier reads a value as a finite number
    exactly when it is one. *)
Lemma isNumeric_parsesFinite (v : value) : isNumeric v = parsesFinite v.
Proof.
  destruct v as [s|x]; unfold isNumeric, isFinite, parseFloat; simpl.
  - destruct (isFiniteNumber (stringToNumber s)) eqn:Hfin; [|apply andb_false_r].
    rewrite andb_true_r. simpl.
    destruct (isEmpty (trim s)) eqn:He; simpl.
    + rewrite parseFloat_blank; [done|]. by destruct (trim s).
    + rewrite parseFloat_of_number; [done| |done]. by destruct (stringToNumber s).
  - destruct (isFiniteNumber x) eqn:Hfin; [|apply andb_false_r].
    by rewrite parseFloat_toString.
Qed.

Lemma filter_ext_length (f g : value -> bool) (l : list value) :
  (forall v, f v = g v) -> List.length (List.filter f l) = List.length (List.filter g l).
Proof. intros H. induction l as [|v l IH]; simpl; [done|]. rewrite H. by destruct (g v); simpl; rewrite IH. Qed.

Lemma unique_distinctCount (values : list value) :
  List.length (unique values) = distinctCount values.
Proof.
  unfold distinctCount. apply Permutation_length.
  destruct (unique_spec values) as (Hnd & Hin & _).
  apply Permutation.NoDup_Permutation; [done | apply List.NoDup_nodup |].
  intros x. by rewrite Hin, List.nodup_In.
Qed.

Lemma isPresent_notMissing (v : value) : isPresent (Some v) = true <-> notMissing v.
Proof.
  unfold isPresent, notMissing.
  destruct (String.eqb_spec (toUpperCase (toString v)) "NA") as [E|E];
    destruct (trim (toString v)) as [|c t]; simpl; split; try done;
    intros [H1 H2]; done.
Qed.

Lemma columnValues_cons (key : string) (s : Seq.t) (seqs : list Seq.t) :
  columnValues key (s :: seqs) =
  match Seq.descriptors s !! key with
  | Some v => if isPresent (Some v) then v :: columnValues key seqs else columnValues key seqs
  | None => columnValues key seqs
  end.
Proof.
  unfold columnValues. cbn [map List.filter].
  destruct (Seq.descriptors s !! key) as [v|]; [|done].
  by destruct (isPresent (Some v)).
Qed.

Lemma columnValues_spec (key : string) (seqs : list Seq.t) (v : value) :
  In v (columnValues key seqs) <->
  exists s, In s seqs /\ Seq.descriptors s !! key = Some v /\ notMissing v.
Proof.
  induction seqs as [|s seqs IH].
  - simpl. split; [done|]. by intros (s & [] & _).
  - rewrite columnValues_cons. split.
    + destruct (Seq.descriptors s !! key) as [v'|] eqn:Hv.
      * destruct (isPresent (Some v')) eqn:Hp.
        -- intros [<- | H].
           ++ exists s. split_and!; [by left | done | by apply isPresent_notMissing].
           ++ apply IH in H as (s' & Hs' & H'). exists s'. split; [by right | done].
        -- intros H. apply IH in H as (s' & Hs' & H'). exists s'. split; [by right | done].
      * intros H. apply IH in H as (s' & Hs' & H'). exists s'. split; [by right | done].
    + intros (s' & [<- | Hs'] & Hv & Hn).
      * rewrite Hv. apply isPresent_notMissing in Hn. rewrite Hn. by left.
      * assert (In v (columnValues key seqs)) by (apply IH; by exists s').
        destruct (Seq.descriptors s !! key) as [v'|]; [|done].
        destruct (isPresent (Some v')); [by right | done].
Qed.

(** ** The classification rule and the domains *)

(** For a column that an array can hold, the test on the fraction is
    the exact one on the two counts. *)
Lemma fraction_above_threshold (values : list value) :
  Z.of_nat (List.length values) <= maxArrayLength ->
  numGt (numericFraction (List.length (List.filter isNumeric values)) (List.length values))
        threshold = true
  <-> 4 * Z.of_nat (List.length values)
      < 5 * Z.of_nat (List.length (List.filter isNumeric values)).
Proof.
  intros Hlen. unfold maxArrayLength in Hlen.
  rewrite fraction_exact; [apply Z.ltb_lt | apply List.filter_length_le | lia].
Qed.

(** C1. After [analyzeDescriptors] every descriptor column has an entry
    whose type is numerical exactly when the fraction of its non-missing
    values that read as a finite number is above 0.8 and more than 6 of
    them are distinct, and categorical otherwise; a column without a
    non-missing value is categorical with an empty domain. The three
    notions are stated apart from the script's helpers, which are shown
    to compute them: the numeric test holds of the finite Numbers and of
    the strings, not blank, that [Number] reads as a finite number; the
    values of a column are the values of the records that are not
    missing; and [unique] lists every value once, so its length is the
    number of distinct values. The fraction and the comparison are the
    ones of the code, in binary64; for a column no longer than an array
    can be they agree with the exact ones, [n / len > 4 / 5]. The column
    ["1".."7"] is numerical and the column ["1".."6"] is categorical; so
    are seven words, seven times the same number, and eight numbers of
    ten distinct values, a fraction of 0.8 exactly; nine numbers of
    eleven distinct values are numerical. *)
Theorem classification_rule :
  (forall v, isNumeric v = parsesFinite v) /\
  map isNumeric [VStr "12"; VStr " 1e3 "; VStr "0x10"; VNum (ofZ 5); VStr "12abc"; VStr "";
                 VStr "  "; VStr "abc"; VStr "Infinity"; VNum NaN]
  = [true; true; true; true; false; false; false; false; false; false] /\
  (forall key seqs v,
     In v (columnValues key seqs) <->
     exists s, In s seqs /\ Seq.descriptors s !! key = Some v /\ notMissing v) /\
  (forall values,
     List.length (unique values) = distinctCount values /\
     List.NoDup (unique values) /\
     (forall x, In x (unique values) <-> In x (map normalizeZero values))) /\
  unique (map VStr ["a"; "b"; "a"; "1"; "b"]) = map VStr ["a"; "b"; "1"] /\
  (forall st key, In key (descriptors st) ->
     exists info,
       descriptorInfo (analyzeDescriptors st) !! key = Some info /\
       (type info = numerical <->
          numGt (numericFraction
                (List.length (List.filter parsesFinite (columnValues key (allSequences st))))
                (List.length (columnValues key (allSequences st))))
             threshold = true
          /\ (6 < distinctCount (columnValues key (allSequences st)))%nat) /\
       (type info = categorical <->
          ~ (numGt (numericFraction
                   (List.length (List.filter parsesFinite (columnValues key (allSequences st))))
                   (List.length (columnValues key (allSequences st))))
                threshold = true
             /\ (6 < distinctCount (columnValues key (allSequences st)))%nat)) /\
       (Z.of_nat (List.length (columnValues key (allSequences st))) <= maxArrayLength ->
        (type info = numerical <->
           4 * Z.of_nat (List.length (columnValues key (allSequences st)))
           < 5 * Z.of_nat (List.length
                             (List.filter parsesFinite (columnValues key (allSequences st))))
           /\ (6 < distinctCount (columnValues key (allSequences st)))%nat)) /\
       (columnValues key (allSequences st) = [] -> info = mkInfo categorical (Categories [])))
  /\ type <$> descriptorInfo (analyzeDescriptors (columnState digits17)) !! "x" = Some numerical
  /\ type <$> descriptorInfo (analyzeDescriptors (columnState digits16)) !! "x" = Some categorical
  /\ descriptorInfo (analyzeDescriptors (columnState [VStr "NA"; VStr ""; VStr "  "])) !! "x"
     = Some (mkInfo categorical (Categories []))
  /\ type <$> descriptorInfo (analyzeDescriptors (columnState words7)) !! "x" = Some categorical
  /\ type <$> descriptorInfo (analyzeDescriptors (columnState ones7)) !! "x" = Some categorical
  /\ type <$> descriptorInfo (analyzeDescriptors (columnState eightOfTen)) !! "x"
     = Some categorical
  /\ type <$> descriptorInfo (analyzeDescriptors (columnState sevenOfNine)) !! "x"
     = Some categorical
  /\ type <$> descriptorInfo (analyzeDescriptors (columnState nineOfEleven)) !! "x"
     = Some numerical.
Proof.
  split; [apply isNumeric_parsesFinite|].
  split; [by vm_compute|].
  split; [apply columnValues_spec|].
  split.
  { intros values. destruct (unique_spec values) as (Hnd & Hin & _).
    split; [apply unique_distinctCount | done]. }
  split; [by vm_compute|].
  split; [|split_and!; by vm_compute].
  intros st key Hin. eexists. split; [by apply analyzeDescriptors_lookup|].
  set (V := columnValues key (allSequences st)).
  assert (Hcount : List.length (List.filter parsesFinite V)
                   = List.length (List.filter isNumeric V)).
  { symmetry. apply filter_ext_length, isNumeric_parsesFinite. }
  rewrite Hcount, <- unique_distinctCount.
  split; [apply analyzeColumn_type|]. split; [apply analyzeColumn_categorical|].
  split; [|by intros ->].
  intros Hlen. rewrite analyzeColumn_type.
  by rewrite (fraction_above_threshold _ Hlen).
Qed.

Lemma classification_rule_witness :
  In "x" (descriptors (columnState nineOfEleven)) /\
  Z.of_nat (List.length (columnValues "x" (allSequences (columnState nineOfEleven))))
  <= maxArrayLength /\
  columnValues "x" (allSequences (columnState [VStr "NA"; VStr ""])) = [] /\
  (exists info,
     descriptorInfo (analyzeDescriptors (columnState nineOfEleven)) !! "x" = Some info /\
     type info = numerical /\
     4 * Z.of_nat (List.length (columnValues "x" (allSequences (columnState nineOfEleven))))
     < 5 * Z.of_nat (List.length
                       (List.filter parsesFinite
                          (columnValues "x" (allSequences (columnState nineOfEleven)))))) /\
  (exists info,
     descriptorInfo (analyzeDescriptors (columnState [VStr "NA"; VStr ""])) !! "x" = Some info /\
     info = mkInfo categorical (Categories [])).
Proof.
  pose proof classification_rule as (_ & _ & _ & _ & _ & Hrule & _).
  assert (Hin : In "x" (descriptors (columnState nineOfEleven))) by (simpl; auto).
  assert (Hlen : Z.of_nat (List.length
                             (columnValues "x" (allSequences (columnState nineOfEleven))))
                 <= maxArrayLength) by (by vm_compute).
  assert (Hnil : columnValues "x" (allSequences (columnState [VStr "NA"; VStr ""])) = [])
    by (by vm_compute).
  split; [exact Hin|]. split; [exact Hlen|]. split; [exact Hnil|]. split.
  - destruct (Hrule (columnState nineOfEleven) "x" Hin) as (info & H1 & H2 & _ & H4 & _).
    assert (Hnum : type info = numerical).
    { apply H2. split; [by vm_compute | vm_compute; lia]. }
    exists info. split; [exact H1|]. split; [exact Hnum|].
    by apply (H4 Hlen).
  - destruct (Hrule (columnState [VStr "NA"; VStr ""]) "x") as (info & H1 & _ & _ & _ & H5).
    { simpl; auto. }
    exists info. split; [exact H1|]. exact (H5 Hnil).
Defined.

Lemma numerical_has_numeric (values : list value) :
  type (analyzeColumn values) = numerical ->
  exists v, In v values /\ isNumeric v = true.
Proof.
  intros [Hgt _]%analyzeColumn_type.
  destruct (List.filter isNumeric values) as [|v l] eqn:Hf.
  - simpl in Hgt. by rewrite fraction_zero in Hgt.
  - exists v. apply filter_In. rewrite Hf. by left.
Qed.

Lemma analyzeColumn_numerical_domain (values : list value) :
  type (analyzeColumn values) = numerical ->
  domain (analyzeColumn values) = Extent (extent (map toNumber values)).
Proof.
  destruct values as [|v values]; [done|]. unfold analyzeColumn.
  destruct (_ && _); [done | discriminate].
Qed.

Lemma analyzeColumn_categorical_domain (values : list value) :
  type (analyzeColumn values) = categorical ->
  domain (analyzeColumn values) = Categories (sortDefault (unique values)).
Proof.
  destruct values as [|v values]; [done|]. unfold analyzeColumn.
  destruct (_ && _); [discriminate | done].
Qed.

(** C4, as amended. The domain of a column classified numerical is the
    pair [d3.extent] makes of the numbers read from its non-missing
    values: two of those numbers that bound every one of them that is
    not [NaN]. For the values ["3","NA","1","",5] the non-missing ones
    are ["3","1",5] and their extent is [1, 5]; that column, with three
    distinct values, is categorical, and with the values "2", "4", "6"
    and "7" added it is numerical with the domain [1, 7]. *)
Theorem numerical_domain_extent :
  (forall st key info,
     In key (descriptors st) ->
     descriptorInfo (analyzeDescriptors st) !! key = Some info ->
     type info = numerical ->
     exists lo hi,
       domain info = Extent (Some (lo, hi)) /\
       extent (map toNumber (columnValues key (allSequences st))) = Some (lo, hi) /\
       extentOf (map toNumber (columnValues key (allSequences st))) (Some (lo, hi)))
  /\ columnValues "x" (allSequences (columnState mixedColumn))
     = [VStr "3"; VStr "1"; VNum (ofZ 5)]
  /\ extent (map toNumber (columnValues "x" (allSequences (columnState mixedColumn))))
     = Some (ofZ 1, ofZ 5)
  /\ descriptorInfo (analyzeDescriptors (columnState wideColumn)) !! "x"
     = Some (mkInfo numerical (Extent (Some (ofZ 1, ofZ 7)))).
Proof.
  split; [|split_and!; by vm_compute].
  intros st key info Hin Hinfo Htype.
  rewrite analyzeDescriptors_lookup in Hinfo by done. injection Hinfo as <-.
  pose proof (extent_spec (map toNumber (columnValues key (allSequences st)))) as Hspec.
  destruct (extent _) as [[lo hi]|] eqn:Hext.
  - exists lo, hi. split; [|done].
    by rewrite analyzeColumn_numerical_domain, Hext.
  - destruct (numerical_has_numeric _ Htype) as (v & Hv & Hnum).
    apply isNumeric_toNumber in Hnum.
    rewrite (Hspec (toNumber v)) in Hnum; [done|]. by apply in_map.
Qed.

Lemma numerical_domain_extent_witness :
  In "x" (descriptors (columnState wideColumn)) /\
  exists lo hi,
    domain (mkInfo numerical (Extent (Some (ofZ 1, ofZ 7)))) = Extent (Some (lo, hi)) /\
    extent (map toNumber (columnValues "x" (allSequences (columnState wideColumn))))
    = Some (lo, hi).
Proof.
  split; [simpl; auto|].
  destruct (proj1 numerical_domain_extent (columnState wideColumn) "x"
              (mkInfo numerical (Extent (Some (ofZ 1, ofZ 7)))))
    as (lo & hi & H1 & H2 & _).
  - simpl; auto.
  - by vm_compute.
  - reflexivity.
  - exists lo, hi. split; [exact H1 | exact H2].
Defined.

(** C4, the claim as stated fails: the column of the example is
    classified categorical and its domain is not a pair of numbers. *)
Lemma mixed_column_is_categorical :
  descriptorInfo (analyzeDescriptors (columnState mixedColumn)) !! "x"
  = Some (mkInfo categorical (Categories [VStr "1"; VStr "3"; VNum (ofZ 5)])).
Proof. by vm_compute. Qed.



(** ** The palette and the ordinal scale *)

Lemma paletteAt_in (i : nat) : In (paletteAt i) schemeTableau10.
Proof.
  unfold paletteAt. apply nth_In.
  change (List.length schemeTableau10) with 10%nat.
  apply Nat.mod_upper_bound. lia.
Qed.

Lemma indexOf_app (d : option value) (dom ext : list (option value)) (i : nat) :
  indexOf d dom = Some i -> indexOf d (dom ++ ext) = Some i.
Proof.
  revert i. induction dom as [|k dom IH]; intros i; simpl; [done|].
  destruct (sameKey d k); [done|].
  destruct (indexOf d dom) as [j|]; [|done]. simpl. intros [= <-].
  by rewrite (IH j eq_refl).
Qed.

Lemma applyScale_ordinal (dom0 ext : list (option value)) (d : option value) :
  exists ext',
    (applyScale (Ordinal (dom0 ++ ext)) d).2 = Ordinal (dom0 ++ ext') /\
    In (applyScale (Ordinal (dom0 ++ ext)) d).1 schemeTableau10 /\
    forall i, indexOf d dom0 = Some i ->
              (applyScale (Ordinal (dom0 ++ ext)) d).1 = paletteAt i.
Proof.
  unfold applyScale. destruct (indexOf d (dom0 ++ ext)) as [j|] eqn:Hj; simpl.
  - exists ext. split_and!; [done | apply paletteAt_in |].
    intros i Hi. apply (indexOf_app _ _ ext) in Hi. congruence.
  - exists (ext ++ [d])%list. split_and!; [by rewrite app_assoc | apply paletteAt_in |].
    intros i Hi. apply (indexOf_app _ _ ext) in Hi. congruence.
Qed.

Lemma mergeColors_spec (first : CNode) (rest : list CNode) :
  (forall k, sharedColor (first :: rest) k -> mergeColors (first :: rest) = k) /\
  ((forall k, ~ sharedColor (first :: rest) k) -> mergeColors (first :: rest) = neutral).
Proof.
  unfold mergeColors.
  destruct (forallb _ (first :: rest)) eqn:Hall.
  - split.
    + intros k Hk. apply Hk. by left.
    + intros Hno. exfalso. apply (Hno (color first)).
      rewrite forallb_forall in Hall. intros c Hc. by apply String.eqb_eq, Hall.
  - split; [|done]. intros k Hk.
    assert (forallb (fun c => String.eqb (color c) (color first)) (first :: rest) = true);
      [|congruence].
    apply forallb_forall. intros c Hc. apply String.eqb_eq.
    rewrite (Hk c Hc). symmetry. apply Hk. by left.
Qed.

Lemma HNode_nested_ind (P : HNode -> Prop) :
  (forall d children, Forall P children -> P (H d children)) ->
  forall n, P n.
Proof.
  intros Hstep. fix IH 1. intros [d children]. apply Hstep.
  induction children as [|c children IHc]; constructor; auto.
Qed.

Section ColourFacts.

Variable seqs : list Seq.t.
Variable colorDesc : string.
Variable values : list value.

Local Abbreviation colorInfo := (Some (mkInfo categorical (Categories values))).
Local Abbreviation dom0 := (scaleDomain (map Some values)).

Lemma colorNode_leaf (d : Node) (sc : ColorScale) :
  colorNode seqs colorDesc colorInfo (H d []) sc =
  (C d (leafColor seqs colorDesc colorInfo sc d).1 [],
   (leafColor seqs colorDesc colorInfo sc d).2).
Proof. simpl. by destruct (leafColor _ _ _ sc d). Qed.

Lemma colorNode_inner (d : Node) (c : HNode) (cs : list HNode) (sc : ColorScale) :
  colorNode seqs colorDesc colorInfo (H d (c :: cs)) sc =
  (C d (mergeColors (colorAllWith (colorNode seqs colorDesc colorInfo) (c :: cs) sc).1)
     (colorAllWith (colorNode seqs colorDesc colorInfo) (c :: cs) sc).1,
   (colorAllWith (colorNode seqs colorDesc colorInfo) (c :: cs) sc).2).
Proof.
  cbn [colorNode].
  by destruct (colorAllWith (colorNode seqs colorDesc colorInfo) (c :: cs) sc).
Qed.

Lemma colorAll_cons (h : HNode) (l : list HNode) (sc : ColorScale) :
  colorAllWith (colorNode seqs colorDesc colorInfo) (h :: l) sc =
  let r := colorNode seqs colorDesc colorInfo h sc in
  let rs := colorAllWith (colorNode seqs colorDesc colorInfo) l r.2 in
  (r.1 :: rs.1, rs.2).
Proof.
  cbn [colorAllWith]. destruct (colorNode seqs colorDesc colorInfo h sc) as [c sc1].
  simpl. by destruct (colorAllWith _ l sc1).
Qed.

Lemma colorAll_coloured (l : list HNode) :
  Forall (colouredNode seqs colorDesc values) l ->
  forall ext, exists ext',
    (colorAllWith (colorNode seqs colorDesc colorInfo) l (Ordinal (dom0 ++ ext))).2
    = Ordinal (dom0 ++ ext') /\
    Forall (colouredAs seqs colorDesc values)
      (flat_map nodes
         (colorAllWith (colorNode seqs colorDesc colorInfo) l (Ordinal (dom0 ++ ext))).1).
Proof.
  induction 1 as [|h l Hh _ IH]; intros ext.
  - exists ext. simpl. split; [done | constructor].
  - rewrite colorAll_cons. cbn zeta.
    destruct (Hh ext) as (ext1 & E1 & F1). rewrite E1.
    destruct (IH ext1) as (ext2 & E2 & F2).
    exists ext2. simpl. split; [done|]. apply Forall_app. by split.
Qed.

Lemma leafColor_coloured (d : Node) (ext : list (option value)) :
  exists ext',
    (leafColor seqs colorDesc colorInfo (Ordinal (dom0 ++ ext)) d).2 = Ordinal (dom0 ++ ext') /\
    colouredAs seqs colorDesc values
      (C d (leafColor seqs colorDesc colorInfo (Ordinal (dom0 ++ ext)) d).1 []).
Proof.
  unfold leafColor, colouredAs. simpl.
  destruct (findSequence seqs d) as [s|]; simpl.
  - destruct (applyScale_ordinal dom0 ext (Seq.descriptors s !! colorDesc))
      as (ext' & E & Hin & Hidx).
    exists ext'. split_and!; done.
  - exists ext. done.
Qed.

Lemma colorNode_coloured (h : HNode) : colouredNode seqs colorDesc values h.
Proof.
  induction h as [d children IH] using HNode_nested_ind. intros ext.
  destruct children as [|c cs].
  - rewrite colorNode_leaf. simpl.
    destruct (leafColor_coloured d ext) as (ext' & E & Hc).
    exists ext'. split; [done|]. by constructor.
  - rewrite colorNode_inner.
    destruct (colorAll_coloured (c :: cs) IH ext) as (ext' & E & F).
    assert (Hne : (colorAllWith (colorNode seqs colorDesc colorInfo) (c :: cs)
                     (Ordinal (dom0 ++ ext))).1 <> []).
    { rewrite colorAll_cons. done. }
    destruct (colorAllWith (colorNode seqs colorDesc colorInfo) (c :: cs)
                (Ordinal (dom0 ++ ext))) as [l sc'].
    simpl in *. exists ext'. split; [done|]. constructor; [|done].
    unfold colouredAs. simpl. destruct l as [|first rest]; [done|].
    apply mergeColors_spec.
Qed.

Lemma colorAll_erase (l : list HNode) :
  Forall (fun h => forall sc, erase (colorNode seqs colorDesc colorInfo h sc).1 = h) l ->
  forall sc,
    map erase (colorAllWith (colorNode seqs colorDesc colorInfo) l sc).1 = l.
Proof.
  induction 1 as [|h l Hh _ IH]; intros sc; [done|].
  rewrite colorAll_cons. cbn zeta. cbn [fst map].
  by rewrite Hh, IH.
Qed.

(** The colour pass keeps the shape and the data of the hierarchy. *)
Lemma colorNode_erase (h : HNode) :
  forall sc, erase (colorNode seqs colorDesc colorInfo h sc).1 = h.
Proof.
  induction h as [d children IH] using HNode_nested_ind. intros sc.
  destruct children as [|c cs].
  - rewrite colorNode_leaf. done.
  - rewrite colorNode_inner.
    pose proof (colorAll_erase (c :: cs) IH sc) as Hall.
    destruct (colorAllWith (colorNode seqs colorDesc colorInfo) (c :: cs) sc) as [l sc'].
    simpl in *. by rewrite Hall.
Qed.

End ColourFacts.

Lemma CNode_nested_ind (P : CNode -> Prop) :
  (forall d c children, Forall P children -> P (C d c children)) ->
  forall n, P n.
Proof.
  intros Hstep. fix IH 1. intros [d c children]. apply Hstep.
  induction children as [|x children IHc]; constructor; auto.
Qed.

Lemma nodes_erase (n : CNode) : map erase (nodes n) = hnodes (erase n).
Proof.
  induction n as [d c children IH] using CNode_nested_ind.
  cbn [nodes map erase hnodes]. f_equal.
  induction IH as [|x l Hx _ IHl]; [done|].
  cbn [flat_map map]. by rewrite map_app, Hx, IHl.
Qed.

Lemma erase_data (n : CNode) : hdata (erase n) = cdata n.
Proof. by destruct n. Qed.

Lemma erase_leaf (n : CNode) : hchildren (erase n) = [] <-> cchildren n = [].
Proof. destruct n as [d c [|x l]]; done. Qed.

Lemma Node_nested_ind (P : Node -> Prop) :
  (forall name length, P (Leaf name length)) ->
  (forall branchset name length, Forall P branchset -> P (Group branchset name length)) ->
  forall d, P d.
Proof.
  intros Hleaf Hgroup. fix IH 1. intros [name length | branchset name length].
  - apply Hleaf.
  - apply Hgroup. induction branchset as [|c branchset IHc]; constructor; auto.
Qed.

Lemma flat_map_perm_pointwise {A B : Type} (f g : A -> list B) (l : list A) :
  Forall (fun x => Permutation (f x) (g x)) l ->
  Permutation (flat_map f l) (flat_map g l).
Proof.
  induction 1 as [|x l Hx _ IH]; simpl; [done|]. by apply Permutation_app.
Qed.

Section HierarchyFacts.

Variable sortChildren : list HNode -> list HNode.
Hypothesis sortChildren_perm : forall l, Permutation (sortChildren l) l.

(** The hierarchy holds the nodes of the parsed tree, each once. *)
Lemma hierarchy_nodes (t : Node) :
  Permutation (map hdata (hnodes (hierarchy sortChildren t))) (subtrees t).
Proof.
  induction t as [name length | branchset name length IH] using Node_nested_ind.
  - done.
  - cbn [hierarchy hnodes map hdata subtrees]. constructor.
    rewrite (Permutation_flat_map hnodes (sortChildren_perm _)).
    rewrite flat_map_concat_map, map_map, <- flat_map_concat_map.
    rewrite (flat_map_concat_map _ (A := Node)), concat_map, map_map.
    rewrite <- flat_map_concat_map.
    by apply flat_map_perm_pointwise.
Qed.

(** A node of the hierarchy has no children exactly when it is a parsed
    leaf or an empty group. *)
Lemma hierarchy_leaves (t : Node) :
  Forall (fun h => hchildren h = [] <-> isLeafData (hdata h) = true)
    (hnodes (hierarchy sortChildren t)).
Proof.
  induction t as [name length | branchset name length IH] using Node_nested_ind.
  - by constructor.
  - cbn [hierarchy hnodes]. constructor.
    + cbn [hchildren hdata]. split.
      * intros Hnil.
        pose proof (sortChildren_perm (map (hierarchy sortChildren) branchset)) as Hp.
        rewrite Hnil in Hp. apply Permutation_nil in Hp. by destruct branchset.
      * destruct branchset; [|done]. intros _. cbn [map].
        apply Permutation_nil. symmetry. apply sortChildren_perm.
    + apply Forall_forall. intros h Hh. apply list_elem_of_In, in_flat_map in Hh.
      destruct Hh as (c & Hc & Hh).
      apply (Permutation_in _ (sortChildren_perm _)), in_map_iff in Hc.
      destruct Hc as (x & <- & Hx). rewrite Forall_forall in IH.
      specialize (IH x (proj2 (list_elem_of_In _ _) Hx)).
      rewrite Forall_forall in IH. by apply IH, list_elem_of_In.
Qed.

End HierarchyFacts.

Lemma insertNode_perm (x : HNode) (l : list HNode) :
  Permutation (insertNode x l) (x :: l).
Proof.
  induction l as [|y l IH]; simpl; [done|].
  destruct (sortsBefore y x); [|done]. rewrite IH. apply perm_swap.
Qed.

Lemma sortNodes_perm (l : list HNode) : Permutation (sortNodes l) l.
Proof.
  induction l as [|x l IH]; simpl; [done|].
  unfold sortNodes in *. simpl. by rewrite insertNode_perm, IH.
Qed.

(** ** The colour rule of [drawTree] *)

(** C2, as amended. With a categorical colour descriptor, every node of
    the parsed tree is coloured once, whatever order the sort gives to
    the children, and by this rule: a leaf (a parsed leaf or an empty
    group) without a matching record is neutral; a leaf with a matching
    record gets the colour the scale gives to the record's value, always
    a palette colour, the one at the value's place in the domain when the
    value is in the domain; a node with children gets their colour when
    they all share one and the neutral colour when they do not. *)
Theorem tree_colour_rule
    (sortChildren : list HNode -> list HNode)
    (sortChildren_perm : forall l, Permutation (sortChildren l) l)
    (seqs : list Seq.t) (colorDesc : string) (values : list value) (t : Node) :
  let coloured :=
    colorTree sortChildren seqs colorDesc (Some (mkInfo categorical (Categories values))) t in
  Permutation (map cdata (nodes coloured)) (subtrees t) /\
  forall n, In n (nodes coloured) ->
    (cchildren n = [] <-> isLeafData (cdata n) = true) /\
    colouredAs seqs colorDesc values n.
Proof.
  intros coloured.
  assert (Herase : map erase (nodes coloured) = hnodes (hierarchy sortChildren t)).
  { subst coloured. unfold colorTree. by rewrite nodes_erase, colorNode_erase. }
  split.
  - rewrite <- (hierarchy_nodes sortChildren sortChildren_perm t), <- Herase, map_map.
    apply Permutation_refl'. apply map_ext. intros n. by rewrite erase_data.
  - intros n Hn. split.
    + pose proof (hierarchy_leaves sortChildren sortChildren_perm t) as Hl.
      rewrite <- Herase, Forall_forall in Hl.
      specialize (Hl (erase n)). rewrite erase_data, erase_leaf in Hl.
      apply Hl, list_elem_of_In, in_map, Hn.
    + destruct (colorNode_coloured seqs colorDesc values (hierarchy sortChildren t) [])
        as (ext' & _ & Hall).
      rewrite Forall_forall in Hall. apply Hall.
      apply list_elem_of_In. subst coloured. unfold colorTree. simpl.
      by rewrite app_nil_r in *.
Qed.

Lemma tree_colour_rule_witness :
  In (C (Leaf "A" zero) "#4e79a7" [])
    (nodes (colorTree sortNodes (map toSequence (rows hostTable)) "host"
              (Some (mkInfo categorical (Categories [VStr "cat"; VStr "dog"])))
              (Group [Leaf "A" zero; Leaf "B" zero] None None))) /\
  ((cchildren (C (Leaf "A" zero) "#4e79a7" []) = []
    <-> isLeafData (cdata (C (Leaf "A" zero) "#4e79a7" [])) = true) /\
   colouredAs (map toSequence (rows hostTable)) "host" [VStr "cat"; VStr "dog"]
     (C (Leaf "A" zero) "#4e79a7" [])).
Proof.
  split; [vm_compute; auto|].
  apply (proj2 (tree_colour_rule sortNodes sortNodes_perm
                  (map toSequence (rows hostTable)) "host" [VStr "cat"; VStr "dog"]
                  (Group [Leaf "A" zero; Leaf "B" zero] None None))).
  vm_compute; auto.
Defined.

(** C2, the claim as stated fails: the record of leaf [B] has the missing
    value [NA] and the leaf gets a palette colour, not the neutral one. *)
Lemma missing_value_leaf_is_coloured :
  loadDashboard 4 "(A,B);" hostTable initialState
    ≫= (fun r => drawTreeColours r.1 "host")
  = Some (C (Group [Leaf "A" zero; Leaf "B" zero] None None) "#ccc"
            [C (Leaf "A" zero) "#4e79a7" []; C (Leaf "B" zero) "#e15759" []]).
Proof. by vm_compute. Qed.


(** ** What [Number.prototype.toString] never prints *)

Lemma digitsOf_head (c : Z) :
  exists d rest, digitsOf c = String d rest /\ (d <> "0"%char \/ rest <> "").
Proof.
  unfold digitsOf.
  pose proof (Unsigned.to_uint_nonnil (Z.to_pos c)) as Hnil.
  pose proof (Unsigned.to_uint_nonzero (Z.to_pos c)) as Hzero.
  destruct (Pos.to_uint (Z.to_pos c)) as [|u|u|u|u|u|u|u|u|u|u]; [done|..];
    simpl; eexists _, _; (split; [reflexivity|]); try (by left).
  right. destruct u; try done.
Qed.

Lemma app_not_zero (a b : string) (c : ascii) :
  c <> "0"%char -> a ++ String c b <> "0".
Proof.
  intros Hc. destruct a as [|x a].
  - simpl. intros [= ->]. done.
  - rewrite app_cons. destruct a; [|done]. simpl. done.
Qed.

Lemma app_not_empty (a b : string) (c : ascii) : a ++ String c b <> "".
Proof. by destruct a. Qed.

Lemma formatDigits_not_zero (ds : string) (n : Z) :
  (exists d rest, ds = String d rest /\ (d <> "0"%char \/ rest <> "")) ->
  formatDigits ds n <> "0" /\ formatDigits ds n <> "".
Proof.
  intros (d & rest & -> & Hd). unfold formatDigits.
  destruct (_ && _).
  { rewrite app_cons. split; [|done]. intros [= -> H].
    destruct Hd as [Hd|Hd]; [done|]. by destruct rest. }
  destruct (_ && _).
  { split; [apply app_not_zero; done | apply app_not_empty]. }
  destruct (_ && _).
  { split; done. }
  destruct (_ =? 1).
  - rewrite app_cons. split; [|done]. intros [= -> H]. by destruct rest.
  - split; [apply app_not_zero; done | apply app_not_empty].
Qed.

Lemma positiveToString_not_zero (m : positive) (e : Z) :
  positiveToString m e <> "0" /\ positiveToString m e <> "".
Proof.
  unfold positiveToString.
  destruct (shortestDigits _ _ _ _ _) as [c q].
  destruct (stripZeros _ _ _) as [c' q'].
  apply formatDigits_not_zero, digitsOf_head.
Qed.

Lemma numberToString_nonempty (x : number) : numberToString x <> "".
Proof.
  destruct x as [s|s| |s m e]; simpl; try done.
  - by destruct s.
  - destruct s; [done|]. apply positiveToString_not_zero.
Qed.

Lemma numberToString_zero (x : number) : numberToString x = "0" -> isZero x = true.
Proof.
  destruct x as [s|s| |s m e]; simpl; try done.
  - by destruct s.
  - destruct s; [done|].
    intros H. by destruct (positiveToString_not_zero m e) as [? _].
Qed.

(** ** The hash of the scatter plot *)

Lemma fold_codes (l : list ascii) (h : Z) :
  fold_left (fun h c => h + charCode c) l h = h + sumCodes l.
Proof.
  revert h. induction l as [|c l IH]; intros h; simpl; [lia|]. rewrite IH. lia.
Qed.

Lemma sumCodes_perm (l1 l2 : list ascii) :
  Permutation l1 l2 -> sumCodes l1 = sumCodes l2.
Proof. induction 1; simpl; lia. Qed.

Lemma hash_truthy (v : value) :
  truthy v = true -> hash (Some v) = sumCodes (chars (toString v)).
Proof. intros H. unfold hash. rewrite H, fold_codes. lia. Qed.

Lemma hash_falsy (v : value) : truthy v = false -> hash (Some v) = 0.
Proof. intros H. unfold hash. by rewrite H. Qed.

Lemma chars_nil (s : string) : chars s = [] -> s = "".
Proof. by destruct s. Qed.

Lemma chars_inj (s t : string) : chars s = chars t -> s = t.
Proof.
  revert t. induction s as [|c s IH]; intros [|d t]; simpl; try done.
  intros [= -> H]. by rewrite (IH t H).
Qed.

Lemma stored_cases (v : value) :
  stored v ->
  match v with
  | VStr s => isNaN (stringToNumber s) = true \/ s = ""
  | VNum x => isNaN x = false
  end.
Proof.
  intros (cell & ->). unfold coerce.
  destruct (isNaN (stringToNumber cell)) eqn:Hnan; simpl; [by left|].
  destruct cell; simpl; [by right | done].
Qed.

(** Two stored values written with the same characters are both truthy or
    both falsy. *)
Lemma stored_truthy (v1 v2 : value) :
  stored v1 -> stored v2 ->
  Permutation (chars (toString v1)) (chars (toString v2)) ->
  truthy v1 = false -> truthy v2 = false.
Proof.
  intros S1 S2 Hperm F1.
  apply stored_cases in S1, S2.
  destruct v1 as [s|x]; simpl in *.
  - destruct s; [|done]. simpl in Hperm. apply Permutation_nil in Hperm.
    apply chars_nil in Hperm. destruct v2 as [t|y]; simpl in *.
    + by subst.
    + by apply numberToString_nonempty in Hperm.
  - unfold numberTruthy in F1. rewrite S1 in F1. simpl in F1.
    apply negb_false_iff in F1.
    assert (Hx : numberToString x = "0") by (by destruct x).
    rewrite Hx in Hperm. simpl in Hperm. apply Permutation_singleton_l in Hperm.
    assert (Hz : toString v2 = "0") by (by apply chars_inj).
    destruct v2 as [t|y]; simpl in *.
    + subst t. destruct S2 as [S2|S2]; [by vm_compute in S2 | done].
    + unfold numberTruthy. by rewrite (numberToString_zero y Hz), orb_true_r.
Qed.

Lemma stored_hash_perm (v1 v2 : value) :
  stored v1 -> stored v2 ->
  Permutation (chars (toString v1)) (chars (toString v2)) ->
  hash (Some v1) = hash (Some v2).
Proof.
  intros S1 S2 Hperm.
  destruct (truthy v1) eqn:T1, (truthy v2) eqn:T2.
  - rewrite !hash_truthy by done. by apply sumCodes_perm.
  - by rewrite (stored_truthy v2 v1) in T1.
  - by rewrite (stored_truthy v1 v2) in T2.
  - by rewrite !hash_falsy.
Qed.

(** C10. The hash of a descriptor value is the sum of the character
    codes of the value written as a string when the value is truthy and 0
    when it is not, so two string values, and more generally two stored
    values, written with the same characters in another order get the
    same fill, and a record whose value is empty, zero or absent gets the
    first colour of the palette. *)
Theorem scatter_fill_by_hash :
  (forall v, hash (Some v) = if truthy v then sumCodes (chars (toString v)) else 0) /\
  (forall (a b : string), Permutation (chars a) (chars b) ->
     hash (Some (VStr a)) = hash (Some (VStr b))) /\
  (forall s1 s2 colourDesc v1 v2,
     Seq.descriptors s1 !! colourDesc = Some v1 ->
     Seq.descriptors s2 !! colourDesc = Some v2 ->
     stored v1 -> stored v2 ->
     Permutation (chars (toString v1)) (chars (toString v2)) ->
     pointFill s1 colourDesc = pointFill s2 colourDesc) /\
  (forall s colourDesc,
     match Seq.descriptors s !! colourDesc with
     | Some v => truthy v = false
     | None => True
     end ->
     hash (Seq.descriptors s !! colourDesc) = 0 /\
     pointFill s colourDesc = "#4e79a7") /\
  pointFill (Seq.mk None None {["host" := VStr "ab"]}) "host"
  = pointFill (Seq.mk None None {["host" := VStr "ba"]}) "host".
Proof.
  split_and!.
  - intros v. destruct (truthy v) eqn:T; [by apply hash_truthy | by apply hash_falsy].
  - intros a b Hperm.
    assert (Hab : truthy (VStr a) = truthy (VStr b)).
    { simpl. destruct a, b; try done.
      - by apply Permutation_nil in Hperm.
      - symmetry in Hperm. by apply Permutation_nil in Hperm. }
    destruct (truthy (VStr a)) eqn:T.
    + rewrite !hash_truthy by done. by apply sumCodes_perm.
    + by rewrite !hash_falsy.
  - intros s1 s2 colourDesc v1 v2 H1 H2 S1 S2 Hperm. unfold pointFill.
    by rewrite H1, H2, (stored_hash_perm v1 v2).
  - intros s colourDesc H. unfold pointFill.
    destruct (Seq.descriptors s !! colourDesc) as [v|].
    + by rewrite hash_falsy.
    + done.
  - by vm_compute.
Qed.

Lemma scatter_fill_by_hash_witness :
  stored (VStr "ab") /\ stored (VStr "ba") /\
  Permutation (chars "ab") (chars "ba") /\
  pointFill (Seq.mk None None {["host" := VStr "ab"]}) "host"
  = pointFill (Seq.mk None None {["host" := VStr "ba"]}) "host".
Proof.
  assert (Sab : stored (VStr "ab")) by (by exists "ab").
  assert (Sba : stored (VStr "ba")) by (by exists "ba").
  assert (Hperm : Permutation (chars "ab") (chars "ba")) by apply perm_swap.
  split; [exact Sab|]. split; [exact Sba|]. split; [exact Hperm|].
  exact (proj1 (proj2 (proj2 scatter_fill_by_hash))
           (Seq.mk None None {["host" := VStr "ab"]})
           (Seq.mk None None {["host" := VStr "ba"]})
           "host" (VStr "ab") (VStr "ba") eq_refl eq_refl Sab Sba Hperm).
Defined.

(** ** Ingest coercion *)

Lemma upperChar_N (c : ascii) : upperChar c = "N"%char -> c = "N"%char \/ c = "n"%char.
Proof.
  destruct c as [[] [] [] [] [] [] [] []]; vm_compute; intros H; try discriminate H; auto.
Qed.

Lemma upperChar_A (c : ascii) : upperChar c = "A"%char -> c = "A"%char \/ c = "a"%char.
Proof.
  destruct c as [[] [] [] [] [] [] [] []]; vm_compute; intros H; try discriminate H; auto.
Qed.

Lemma toUpperCase_NA (s : string) :
  toUpperCase s = "NA" -> s = "NA" \/ s = "Na" \/ s = "nA" \/ s = "na".
Proof.
  destruct s as [|c1 [|c2 [|c3 s]]]; simpl; try done.
  intros [= H1 H2].
  destruct (upperChar_N _ H1) as [-> | ->], (upperChar_A _ H2) as [-> | ->]; auto.
Qed.

Lemma toSequence_lookup (d : gmap string string) (k : string) :
  Seq.descriptors (toSequence d) !! k
  = if isReserved k then None else coerce <$> d !! k.
Proof.
  unfold toSequence. simpl. rewrite lookup_fmap.
  destruct (isReserved k) eqn:Hk.
  - rewrite map_lookup_filter_None_2; [done|]. right. intros v _. simpl. congruence.
  - destruct (d !! k) as [v|] eqn:Hd.
    + by rewrite (map_lookup_filter_Some_2 _ _ _ v).
    + rewrite map_lookup_filter_None_2; [done|]. by left.
Qed.

(** C9, as amended. A cell of a column other than [accession] and [pmid]
    is stored as a number exactly when [Number(cell)] is not [NaN] and
    the cell is not the empty string, and as the string it is otherwise.
    The empty cell and a cell that reads [NA] in any case are stored as
    the strings they are, never as a number; the classifier leaves them
    out as missing. *)
Theorem coercion_rule :
  (forall cell x,
     coerce cell = VNum x <->
     x = stringToNumber cell /\ isNaN (stringToNumber cell) = false /\ cell <> "") /\
  (forall cell s,
     coerce cell = VStr s <->
     s = cell /\ (isNaN (stringToNumber cell) = true \/ cell = "")) /\
  (forall d k,
     Seq.descriptors (toSequence d) !! k
     = if isReserved k then None else coerce <$> d !! k) /\
  coerce "" = VStr "" /\
  Classifier.isPresent (Some (coerce "")) = false /\
  (forall cell, toUpperCase cell = "NA" ->
     coerce cell = VStr cell /\ Classifier.isPresent (Some (coerce cell)) = false).
Proof.
  split_and!.
  - intros cell x. unfold coerce.
    destruct (isNaN (stringToNumber cell)) eqn:Hnan; simpl.
    + split; [done|]. intros (_ & ? & _). done.
    + destruct cell as [|c cell]; simpl.
      * split; [done|]. intros (_ & _ & ?). done.
      * split; [intros [= <-]; done | intros (-> & _ & _); done].
  - intros cell s. unfold coerce.
    destruct (isNaN (stringToNumber cell)) eqn:Hnan; simpl.
    + split; [intros [= <-]; auto | intros (-> & _); done].
    + destruct cell as [|c cell]; simpl.
      * split; [intros [= <-]; auto | intros (-> & _); done].
      * split; [done|]. intros (_ & [?|?]); done.
  - apply toSequence_lookup.
  - reflexivity.
  - reflexivity.
  - intros cell H. destruct (toUpperCase_NA cell H) as [-> | [-> | [-> | ->]]];
      split; by vm_compute.
Qed.

Lemma coercion_rule_witness :
  toUpperCase "na" = "NA" /\
  coerce "na" = VStr "na" /\ Classifier.isPresent (Some (coerce "na")) = false.
Proof.
  split; [reflexivity|].
  apply (proj2 (proj2 (proj2 (proj2 (proj2 coercion_rule)))) "na"). reflexivity.
Defined.

(** C9, the claim as stated fails: the cell [NA] is kept as the string
    it is, and the cell [007] is stored as the number 7, which is
    written [7]. *)
Lemma na_cell_kept_as_string :
  coerce "NA" = VStr "NA" /\
  coerce "007" = VNum (ofZ 7) /\
  toString (coerce "007") = "7".
Proof. split_and!; by vm_compute. Qed.

(** ** The search box leaves the classification alone *)

Lemma onSearchInput_frame (text : string) (st : State) :
  descriptorInfo (onSearchInput text st) = descriptorInfo st /\
  descriptors (onSearchInput text st) = descriptors st /\
  allSequences (onSearchInput text st) = allSequences st /\
  tree (onSearchInput text st) = tree st.
Proof.
  unfold onSearchInput. destruct (searchTokens text); [done|].
  destruct (filterSequences _ _); done.
Qed.

Lemma search_fold_frame (texts : list string) :
  forall st,
    descriptorInfo (fold_left (fun s text => onSearchInput text s) texts st) = descriptorInfo st /\
    descriptors (fold_left (fun s text => onSearchInput text s) texts st) = descriptors st /\
    allSequences (fold_left (fun s text => onSearchInput text s) texts st) = allSequences st.
Proof.
  induction texts as [|text texts IH]; intros st; [done|]. simpl.
  destruct (IH (onSearchInput text st)) as (-> & -> & ->).
  destruct (onSearchInput_frame text st) as (-> & -> & -> & _). done.
Qed.

Lemma filterSequences_sub (tokens : list string) (l r : list Seq.t) :
  filterSequences tokens l = Some r -> forall s, In s r -> In s l.
Proof.
  revert r. induction l as [|x l IH]; intros r; simpl.
  - intros [= <-]. done.
  - destruct (matchesTokens tokens x) as [keep|]; [|done].
    destruct (filterSequences tokens l) as [r'|]; [|done].
    intros [= <-] s. destruct keep; simpl; intros H.
    + destruct H as [H|H]; [by left | right; by apply (IH r')].
    + right. by apply (IH r').
Qed.

Lemma onSearchInput_sub (text : string) (st : State) :
  (forall s, In s (sequences st) -> In s (allSequences st)) ->
  forall s, In s (sequences (onSearchInput text st)) -> In s (allSequences st).
Proof.
  intros Hsub s. unfold onSearchInput. destruct (searchTokens text) as [|tok toks]; [done|].
  destruct (filterSequences (tok :: toks) (allSequences st)) as [r|] eqn:Hr; [|by apply Hsub].
  simpl. by apply (filterSequences_sub _ _ _ Hr).
Qed.

Lemma search_fold_sub (texts : list string) :
  forall st,
    (forall s, In s (sequences st) -> In s (allSequences st)) ->
    forall s,
      In s (sequences (fold_left (fun s text => onSearchInput text s) texts st)) ->
      In s (allSequences st).
Proof.
  induction texts as [|text texts IH]; intros st Hsub; [done|]. simpl.
  intros s Hs. apply IH in Hs.
  - by rewrite (proj1 (proj2 (proj2 (onSearchInput_frame text st)))) in Hs.
  - intros x Hx. rewrite (proj1 (proj2 (proj2 (onSearchInput_frame text st)))).
    by apply (onSearchInput_sub text st).
Qed.

Lemma loadDashboard_loaded (fuel : nat) (newick : string) (raw : Csv) (st0 st : State)
    (out : Outcome) :
  loadDashboard fuel newick raw st0 = Some (st, out) ->
  (exists err, out = Failed (Error err) /\ st = st0) \/
  (exists t, parseNewick fuel newick = Some t /\
             st = analyzeDescriptors (setTree (Some t) (ingest raw st0)) /\
             rows raw <> [] /\ newick <> "" /\
             (out = Loaded \/ out = Failed TypeError)).
Proof.
  unfold loadDashboard. destruct (rows raw) as [|r rs] eqn:Hrows.
  { intros [= <- <-]. left. by eexists. }
  destruct newick as [|c newick]; simpl isEmpty; cbn iota.
  { intros [= <- <-]. left. by eexists. }
  destruct (parseNewick fuel (String c newick)) as [t|]; [|done].
  intros H. right. exists t.
  destruct (hasUnnamedLeaf t); injection H as <- <-; split_and!; auto; done.
Qed.

(** C6. After a load that succeeded, any sequence of inputs in the search
    box leaves the descriptor table, the descriptor names and the full
    list of records as the load made them, and the filtered list holds
    records of the full list: every descriptor still has the type and
    domain computed from the full list, and [analyzeDescriptors] run
    again on the filtered state gives the same table. *)
Theorem filtering_keeps_classification
    (fuel : nat) (newick : string) (raw : Csv) (st0 st : State) (texts : list string) :
  loadDashboard fuel newick raw st0 = Some (st, Loaded) ->
  let st' := fold_left (fun s text => onSearchInput text s) texts st in
  descriptorInfo st' = descriptorInfo st /\
  descriptors st' = descriptors st /\
  allSequences st' = allSequences st /\
  (forall s, In s (sequences st') -> In s (allSequences st)) /\
  (forall key, In key (descriptors st') ->
     descriptorInfo st' !! key
     = Some (analyzeColumn (columnValues key (allSequences st')))) /\
  (forall seqs,
     descriptorInfo (analyzeDescriptors (setSequences seqs st')) = descriptorInfo st').
Proof.
  intros Hload st'.
  destruct (search_fold_frame texts st) as (Hinfo & Hkeys & Hall).
  fold st' in Hinfo, Hkeys, Hall.
  destruct (loadDashboard_loaded _ _ _ _ _ _ Hload) as [(err & ? & _) | (t & _ & Hst & _)];
    [done|].
  assert (Hlookup : forall key, In key (descriptors st) ->
            descriptorInfo st !! key
            = Some (analyzeColumn (columnValues key (allSequences st)))).
  { intros key Hkey. subst st.
    exact (analyzeDescriptors_lookup (setTree (Some t) (ingest raw st0)) key Hkey). }
  split_and!; try done.
  - apply search_fold_sub. by subst st.
  - intros key Hkey. rewrite Hinfo, Hall. apply Hlookup. by rewrite <- Hkeys.
  - intros seqs. simpl. rewrite Hinfo, Hkeys, Hall.
    apply map_eq. intros key.
    destruct (in_dec string_dec key (descriptors st)) as [Hin|Hnin].
    + rewrite analyze_fold_lookup by done. by rewrite Hlookup.
    + by rewrite analyze_fold_other by done.
Qed.

Lemma loadedState_loaded :
  loadDashboard 6 "((A,B)X,C,D);" hostTable initialState = Some (loadedState, Loaded).
Proof. by vm_compute. Qed.

Lemma filtering_keeps_classification_witness :
  loadDashboard 6 "((A,B)X,C,D);" hostTable initialState = Some (loadedState, Loaded) /\
  descriptorInfo
    (fold_left (fun s text => onSearchInput text s) ["b"; "zz, 2"; ""] loadedState)
  = descriptorInfo loadedState.
Proof.
  split; [exact loadedState_loaded|].
  exact (proj1 (filtering_keeps_classification _ _ _ _ _ ["b"; "zz, 2"; ""]
                  loadedState_loaded)).
Defined.

(** ** Loads that fail *)

(** C7, as amended. A load stopped by one of its two guards, on a table
    without rows or on an empty tree text, leaves the state as it was.
    (An error raised later, when the state has been written, is caught
    and reported in the same way, and the new state stays.) *)
Theorem failed_guard_keeps_state :
  (forall fuel newick raw st st' message,
     loadDashboard fuel newick raw st = Some (st', Failed (Error message)) ->
     st' = st /\
     ((rows raw = [] /\ message = "CSV data is empty") \/
      (newick = "" /\ message = "Tree data is empty"))) /\
  (forall fuel newick raw st,
     rows raw = [] ->
     loadDashboard fuel newick raw st = Some (st, Failed (Error "CSV data is empty"))) /\
  (forall fuel raw st,
     rows raw <> [] ->
     loadDashboard fuel "" raw st = Some (st, Failed (Error "Tree data is empty"))).
Proof.
  split_and!.
  - intros fuel newick raw st st' message. unfold loadDashboard.
    destruct (rows raw) as [|r rs].
    { intros [= <- <-]. auto. }
    destruct newick as [|c newick]; simpl isEmpty; cbn iota.
    { intros [= <- <-]. auto. }
    destruct (parseNewick fuel (String c newick)) as [t|]; [|done].
    destruct (hasUnnamedLeaf t); discriminate.
  - intros fuel newick raw st Hrows. unfold loadDashboard. by rewrite Hrows.
  - intros fuel raw st Hrows. unfold loadDashboard. by destruct (rows raw).
Qed.

Lemma failed_guard_keeps_state_witness :
  loadDashboard 3 "" otherTable loadedState
  = Some (loadedState, Failed (Error "Tree data is empty")) /\
  loadedState = loadedState /\
  ((rows otherTable = [] /\ "Tree data is empty" = "CSV data is empty") \/
   ("" = "" /\ "Tree data is empty" = "Tree data is empty")).
Proof.
  split; [reflexivity|].
  exact (proj1 failed_guard_keeps_state 3%nat "" otherTable loadedState loadedState
           "Tree data is empty" eq_refl).
Defined.

(** C7, the claim as stated fails: the tree text [()] is parsed into a
    leaf without a name, [drawTree] raises on its label, and the load
    that fails has already replaced the records and the tree. *)
Lemma failed_render_replaces_state :
  (fun r => (r.2, map Seq.accession (sequences r.1), tree r.1))
    <$> loadDashboard 3 "()" otherTable loadedState
  = Some (Failed TypeError, [Some "Z"], Some (Group [] None None)) /\
  map Seq.accession (sequences loadedState) = [Some "A"; Some "B"; Some "C"].
Proof. split; by vm_compute. Qed.


Import Props ExportCsv Scatter Pyramid Heat Radial.

(** * More of the script

    ** [trim] *)

Lemma headOk_trimStart (s : string) : headOk (trimStart s) = true.
Proof.
  induction s as [|c s IH]; [done|]. simpl.
  destruct (isWhiteSpace c) eqn:Hc; [done|]. simpl. by rewrite Hc.
Qed.

Lemma trimStart_headOk (s : string) : headOk s = true -> trimStart s = s.
Proof.
  destruct s as [|c s]; [done|]. simpl. intros H.
  apply negb_true_iff in H. by rewrite H.
Qed.

Lemma headOk_trimEnd (s : string) : headOk s = true -> headOk (trimEnd s) = true.
Proof.
  destruct s as [|c s]; [done|]. simpl. intros H.
  destruct (trimEnd s); [|exact H].
  apply negb_true_iff in H. rewrite H. simpl. by rewrite H.
Qed.

Lemma trimEnd_idem (s : string) : trimEnd (trimEnd s) = trimEnd s.
Proof.
  induction s as [|c s IH]; [done|]. simpl.
  destruct (trimEnd s) as [|d t] eqn:Ht.
  - destruct (isWhiteSpace c) eqn:Hc; [done|]. simpl. by rewrite Hc.
  - change (trimEnd (String c (String d t)))
      with (match trimEnd (String d t) with
            | EmptyString => if isWhiteSpace c then EmptyString else String c EmptyString
            | t' => String c t'
            end).
    by rewrite IH.
Qed.

Lemma trim_idem (s : string) : trim (trim s) = trim s.
Proof.
  unfold trim.
  rewrite (trimStart_headOk (trimEnd (trimStart s)))
    by apply headOk_trimEnd, headOk_trimStart.
  apply trimEnd_idem.
Qed.

(** ** Every parsed node is tidy *)

Lemma parseNameAndLength_tidy (text : string) (pos : nat) :
  let '(name, length, _) := parseNameAndLength text pos in
  match name with Some n => tidyName n = true | None => True end /\
  isNaN length = false.
Proof.
  unfold parseNameAndLength.
  destruct (scanNameAndLength _ _ _ _ _ _) as [[name ls] pos'].
  split.
  - destruct (isEmpty (trim name)) eqn:He; [done|].
    unfold tidyName. rewrite He, trim_idem. simpl. apply String.eqb_refl.
  - unfold orZero. destruct (numberTruthy (parseFloatString ls)) eqn:Ht; [|done].
    unfold numberTruthy in Ht. apply negb_true_iff, orb_false_iff in Ht as [Ht _]. done.
Qed.

Lemma parse_tidy (text : string) (fuel : nat) :
  (forall pos node pos',
      parseSubtree text fuel pos = Some (node, pos') -> tidy node = true) /\
  (forall pos acc children pos',
      forallb tidy acc = true ->
      parseChildren text fuel pos acc = Some (children, pos') ->
      forallb tidy children = true).
Proof.
  induction fuel as [|fuel [IHs IHc]]; [split; intros; discriminate|].
  split.
  - intros pos node pos'. rewrite parseSubtree_S.
    destruct (isChar "(" (charAt text pos)).
    + destruct (parseChildren text fuel (S pos) []) as [[children pos1]|] eqn:Hch; [|done].
      pose proof (parseNameAndLength_tidy text (S pos1)) as Hn.
      destruct (parseNameAndLength text (S pos1)) as [[name len] pos2].
      destruct Hn as [Hname Hlen]. intros [= <- <-]. simpl.
      rewrite (IHc (S pos) [] children pos1 eq_refl Hch). simpl.
      apply andb_true_iff. split.
      * destruct name; [done | done].
      * by destruct (numberTruthy len) eqn:Ht.
    + pose proof (parseNameAndLength_tidy text pos) as Hn.
      destruct (parseNameAndLength text pos) as [[name len] pos2].
      destruct Hn as [Hname Hlen]. intros [= <- <-]. simpl.
      rewrite Hlen. simpl. rewrite andb_true_r. by destruct name.
  - intros pos acc children pos' Hacc. rewrite parseChildren_S.
    destruct (isChar ")" (charAt text pos)); [by intros [= <- <-]|].
    destruct (parseSubtree text fuel pos) as [[child pos1]|] eqn:Hs; [|done].
    apply IHc. rewrite forallb_app, Hacc. simpl. by rewrite (IHs _ _ _ Hs).
Qed.

(** X1. Whatever the text, a tree that [parseNewick] returns is tidy:
    every leaf has a name, not empty and without white space around it,
    and a length that is a number; a group has a name only when its
    label is not blank and a length only when the length is neither zero
    nor [NaN]. So the label of a leaf can always be drawn, and no length
    of the tree is [NaN]. *)
Theorem parseNewick_tidy (text : string) (fuel : nat) (node : Node) :
  parseNewick fuel text = Some node -> tidy node = true.
Proof.
  unfold parseNewick.
  destruct (parseSubtree text fuel 0) as [[n pos]|] eqn:Hs; [|done].
  intros [= <-]. by eapply (parse_tidy text fuel).
Qed.

Lemma parseNewick_tidy_witness :
  parseNewick 4 "( A :x, :2)  ;" = Some (Group [Leaf "A" zero; Leaf "internal" (ofZ 2)] None None)
  /\ tidy (Group [Leaf "A" zero; Leaf "internal" (ofZ 2)] None None) = true.
Proof.
  split; [reflexivity|].
  exact (parseNewick_tidy "( A :x, :2)  ;" 4 _ eq_refl).
Defined.

(** ** What the parser reads of a text *)

Lemma parseSubtree_fuel_le (text : string) (fuel fuel' pos : nat) r :
  (fuel <= fuel')%nat -> parseSubtree text fuel pos = Some r ->
  parseSubtree text fuel' pos = Some r.
Proof.
  induction 1 as [|fuel' _ IH]; [done|]. intros H.
  apply (proj1 (parse_fuel_S text fuel')), IH, H.
Qed.

(** X2. [parseNewick] reads one tree from the first character on. What
    follows a well-formed tree, the semicolon and anything after it, or a
    comma or a closing parenthesis too many, is not read. A text whose
    first character is not [(], white space included, is read as one leaf:
    the trimmed text that [parseNewick] computes is not the text it
    parses. *)
Theorem parseNewick_reads_one_tree :
  (forall t rest,
     wellFormed t = true -> stopsHere rest = true ->
     returns (print t ++ rest) (denote t)) /\
  (forall text,
     isChar "(" (charAt text 0) = false ->
     exists name len, forall fuel, parseNewick (S fuel) text = Some (Leaf name len)) /\
  (forall t c,
     isWhiteSpace c = true ->
     exists name len, returns (String c (print t)) (Leaf name len)).
Proof.
  assert (Hleaf : forall text,
            isChar "(" (charAt text 0) = false ->
            exists name len, forall fuel, parseNewick (S fuel) text = Some (Leaf name len)).
  { intros text Hopen.
    destruct (parseNameAndLength text 0) as [[name len] pos] eqn:Hn.
    exists (default "internal" name), len. intros fuel.
    unfold parseNewick. rewrite parseSubtree_S, Hopen, Hn. reflexivity. }
  split_and!.
  - intros t rest Hwf Hrest.
    destruct (parsesAt_wellFormed t Hwf "" rest Hrest) as [f0 Hf0].
    exists f0. unfold parseNewick. rewrite app_nil_l in Hf0. by rewrite Hf0.
  - exact Hleaf.
  - intros t c Hc.
    destruct (Hleaf (String c (print t))) as (name & len & H).
    + unfold charAt. simpl. destruct (Ascii.eqb_spec c "("); [subst; discriminate | done].
    + exists name, len. exists 1%nat. apply H.
Qed.

Lemma parseNewick_reads_one_tree_witness :
  returns "(A:1,B:2)C:0;(D,E);" (Group [Leaf "A" (ofZ 1); Leaf "B" (ofZ 2)] (Some "C") None)
  /\ (exists name len, forall fuel, parseNewick (S fuel) " (A,B);" = Some (Leaf name len))
  /\ (exists name len, returns (String " " (print sampleTree)) (Leaf name len)).
Proof.
  split_and!.
  - exact (proj1 parseNewick_reads_one_tree sampleTree ";(D,E);" eq_refl eq_refl).
  - exact (proj1 (proj2 parseNewick_reads_one_tree) " (A,B);" eq_refl).
  - exact (proj2 (proj2 parseNewick_reads_one_tree) sampleTree " "%char eq_refl).
Defined.

(** ** A group that is not closed *)

Lemma stuck_stopsHere (rest : string) :
  stuck (charAt rest 0) = true -> stopsHere rest = true.
Proof.
  destruct rest as [|c rest]; [done|]. unfold charAt. simpl.
  intros ->%Ascii.eqb_eq. reflexivity.
Qed.

Lemma parseChildren_open (children : list Tree) :
  Forall (fun c => wellFormedChild c = true /\ parsesAt c) children ->
  forall rest, stuck (charAt rest 0) = true ->
  forall fuel pre acc,
    parseChildren (pre ++ commaSep (map print children) ++ rest) fuel
      (String.length pre) acc = None.
Proof.
  intros Hall rest Hrest.
  induction Hall as [|c children [Hwf Hc] _ IH]; intros fuel pre acc.
  - simpl commaSep. rewrite app_nil_l.
    apply parseChildren_stuck. by rewrite charAt_app_r0.
  - destruct fuel as [|fuel]; [done|].
    destruct children as [|c2 children].
    + simpl map. simpl commaSep. rewrite parseChildren_S.
      rewrite child_not_close by done.
      destruct (parseSubtree (pre ++ print c ++ rest) fuel (String.length pre))
        as [r|] eqn:Hs; [|done].
      destruct (Hc pre rest (stuck_stopsHere _ Hrest)) as [f0 Hf0].
      apply (parseSubtree_fuel_le _ _ (Nat.max fuel f0)) in Hs; [|lia].
      rewrite Hf0 in Hs by lia. injection Hs as <-.
      rewrite <- string_app_assoc, <- string_length_app.
      assert (Hat : stuck (charAt ((pre ++ print c) ++ rest)
                             (String.length (pre ++ print c))) = true)
        by (by rewrite charAt_app_r0).
      rewrite (stuck_isChar _ "," Hat) by done.
      by apply parseChildren_stuck.
    + change (map print (c :: c2 :: children)) with (print c :: map print (c2 :: children)).
      rewrite commaSep_cons by done.
      assert (E : pre ++ (print c ++ "," ++ commaSep (map print (c2 :: children))) ++ rest
                  = pre ++ print c ++ "," ++ commaSep (map print (c2 :: children)) ++ rest).
      { by rewrite !string_app_assoc. }
      rewrite E, parseChildren_S.
      rewrite child_not_close by done.
      destruct (parseSubtree _ fuel (String.length pre)) as [r|] eqn:Hs; [|done].
      destruct (Hc pre ("," ++ commaSep (map print (c2 :: children)) ++ rest) eq_refl)
        as [f0 Hf0].
      apply (parseSubtree_fuel_le _ _ (Nat.max fuel f0)) in Hs; [|lia].
      rewrite Hf0 in Hs by lia. injection Hs as <-.
      assert (Hcomma : isChar ","
                (charAt (pre ++ print c ++ "," ++ commaSep (map print (c2 :: children)) ++ rest)
                   (String.length pre + String.length (print c))) = true).
      { rewrite <- string_app_assoc, <- string_length_app. by rewrite charAt_app_r0. }
      rewrite Hcomma.
      assert (E2 : pre ++ print c ++ "," ++ commaSep (map print (c2 :: children)) ++ rest
                   = (pre ++ print c ++ ",") ++ commaSep (map print (c2 :: children)) ++ rest).
      { by rewrite !string_app_assoc. }
      assert (L2 : S (String.length pre + String.length (print c))
                   = String.length (pre ++ print c ++ ",")).
      { rewrite !string_length_app. simpl. lia. }
      rewrite E2, L2. apply IH.
Qed.

(** X3. A group that is opened and not closed is never parsed: when the
    text ends, or a semicolon comes, after the children of a group whose
    closing parenthesis is missing, the loop of [parseSubtree] goes on
    for ever, whatever the children are and whatever follows the
    semicolon; a load with such a text and a table that has rows does not
    end either, and reports nothing. *)
Theorem unclosed_group_diverges (children : list Tree) (rest : string) :
  forallb wellFormedChild children = true ->
  stuck (charAt rest 0) = true ->
  diverges ("(" ++ commaSep (map print children) ++ rest) /\
  (forall fuel raw st,
     rows raw <> [] ->
     loadDashboard fuel ("(" ++ commaSep (map print children) ++ rest) raw st = None).
Proof.
  intros Hwf Hrest.
  assert (Hdiv : diverges ("(" ++ commaSep (map print children) ++ rest)).
  { intros fuel. unfold parseNewick.
    destruct fuel as [|fuel]; [done|].
    rewrite parseSubtree_S.
    change (isChar "(" (charAt ("(" ++ commaSep (map print children) ++ rest) 0)) with true.
    cbn iota.
    assert (Hall : Forall (fun c => wellFormedChild c = true /\ parsesAt c) children).
    { rewrite forallb_forall in Hwf. rewrite Forall_forall.
      intros c Hc%list_elem_of_In. split; [by apply Hwf|].
      apply parsesAt_wellFormed, wellFormedChild_wellFormed. by apply Hwf. }
    change 1%nat with (String.length "(").
    by rewrite (parseChildren_open children Hall rest Hrest fuel "(" []). }
  split; [exact Hdiv|].
  intros fuel raw st Hrows. unfold loadDashboard.
  destruct (rows raw); [done|].
  rewrite app_cons. simpl isEmpty. cbn iota.
  rewrite <- app_cons. by rewrite Hdiv.
Qed.

Lemma unclosed_group_diverges_witness :
  forallb wellFormedChild [sampleTree; TLeaf "D" None] = true /\
  diverges "((A:1,B:2)C:0,D;E)" /\
  loadDashboard 100 "((A:1,B:2)C:0,D;E)" hostTable initialState = None.
Proof.
  split; [reflexivity|].
  destruct (unclosed_group_diverges [sampleTree; TLeaf "D" None] ";E)" eq_refl eq_refl)
    as [Hdiv Hload].
  split; [exact Hdiv|].
  apply (Hload 100%nat hostTable initialState). discriminate.
Defined.

(** ** The values that are stored *)

(** X4. Of the values [loadDashboard] stores, the classifier counts as
    numeric exactly the ones stored as a finite Number: a cell that is
    kept as a string is never numeric, whatever digits it starts with,
    and a cell stored as a Number is numeric unless it is infinite. *)
Theorem stored_numeric_iff_finite (cell : string) :
  isNumeric (coerce cell) =
  match coerce cell with
  | VNum x => isFiniteNumber x
  | VStr _ => false
  end.
Proof.
  unfold coerce.
  destruct (isNaN (stringToNumber cell)) eqn:Hnan; simpl.
  - unfold isNumeric, isFinite. simpl toNumber.
    destruct (stringToNumber cell); try done. by rewrite andb_false_r.
  - destruct cell as [|c cell]; [reflexivity|]. simpl isEmpty. cbn iota.
    unfold isNumeric, isFinite, parseFloat. simpl toNumber. simpl toString.
    destruct (isFiniteNumber (stringToNumber (String c cell))) eqn:Hfin.
    + by rewrite parseFloat_toString.
    + by rewrite andb_false_r.
Qed.

(** ** The table and the order of the records *)

Lemma filter_perm {A : Type} (f : A -> bool) (l l' : list A) :
  Permutation l l' -> Permutation (List.filter f l) (List.filter f l').
Proof.
  induction 1 as [|x l l' _ IH|x y l|l l' l'' _ IH1 _ IH2]; simpl.
  - constructor.
  - destruct (f x); [by constructor | done].
  - destruct (f x), (f y); try done; by constructor.
  - by etransitivity.
Qed.

Lemma omap_perm {A B : Type} (f : A -> option B) (l l' : list A) :
  Permutation l l' -> Permutation (omap f l) (omap f l').
Proof.
  induction 1 as [|x l l' _ IH|x y l|l l' l'' _ IH1 _ IH2]; simpl.
  - constructor.
  - destruct (f x); [by constructor | done].
  - destruct (f x), (f y); try done; by constructor.
  - by etransitivity.
Qed.

Lemma columnValues_perm (key : string) (seqs seqs' : list Seq.t) :
  Permutation seqs seqs' -> Permutation (columnValues key seqs) (columnValues key seqs').
Proof.
  intros H. unfold columnValues. by apply omap_perm, filter_perm, Permutation_map.
Qed.

Lemma unique_perm (l l' : list value) :
  Permutation l l' -> Permutation (unique l) (unique l').
Proof.
  intros H.
  destruct (unique_spec l) as (Hnd & Hin & _).
  destruct (unique_spec l') as (Hnd' & Hin' & _).
  apply Permutation.NoDup_Permutation; [done | done |].
  intros x. rewrite Hin, Hin'.
  split; apply Permutation_in; [|symmetry]; by apply Permutation_map.
Qed.

Lemma analyzeColumn_type_perm (l l' : list value) :
  Permutation l l' -> type (analyzeColumn l) = type (analyzeColumn l').
Proof.
  intros H.
  pose proof (analyzeColumn_type l) as T. pose proof (analyzeColumn_type l') as T'.
  rewrite (Permutation_length (filter_perm isNumeric _ _ H)) in T.
  rewrite (Permutation_length H) in T.
  rewrite (Permutation_length (unique_perm _ _ H)) in T.
  destruct (type (analyzeColumn l)), (type (analyzeColumn l')); try done.
  - symmetry. apply T'. by apply T.
  - apply T. by apply T'.
Qed.

(** X5. The classification does not depend on the order of the
    records: two tables with the same records in another order give every
    descriptor the same type; a categorical domain holds the same values
    (two values written alike, the string "1" and the number 1, may swap
    places), and the bounds of a numerical domain are equal as numbers. *)
Theorem classification_order_free (st st' : State) (key : string)
    (info info' : DescriptorInfo) :
  Permutation (allSequences st) (allSequences st') ->
  In key (descriptors st) -> In key (descriptors st') ->
  descriptorInfo (analyzeDescriptors st) !! key = Some info ->
  descriptorInfo (analyzeDescriptors st') !! key = Some info' ->
  type info = type info' /\
  match domain info, domain info' with
  | Categories dom, Categories dom' => Permutation dom dom'
  | Extent (Some (lo, hi)), Extent (Some (lo', hi')) =>
      numLt lo lo' = false /\ numLt lo' lo = false /\
      numLt hi hi' = false /\ numLt hi' hi = false
  | Extent None, Extent None => True
  | _, _ => False
  end.
Proof.
  intros Hperm Hkey Hkey' Hinfo Hinfo'.
  rewrite analyzeDescriptors_lookup in Hinfo by done. injection Hinfo as <-.
  rewrite analyzeDescriptors_lookup in Hinfo' by done. injection Hinfo' as <-.
  pose proof (columnValues_perm key _ _ Hperm) as Hcol.
  set (l := columnValues key (allSequences st)) in *.
  set (l' := columnValues key (allSequences st')) in *.
  pose proof (analyzeColumn_type_perm l l' Hcol) as Htype.
  split; [done|].
  destruct (type (analyzeColumn l)) eqn:T.
  - rewrite (analyzeColumn_numerical_domain l T).
    rewrite (analyzeColumn_numerical_domain l') by done.
    pose proof (extent_spec (map toNumber l)) as E.
    pose proof (extent_spec (map toNumber l')) as E'.
    assert (Hmap : Permutation (map toNumber l) (map toNumber l')) by (by apply Permutation_map).
    destruct (extent (map toNumber l)) as [[lo hi]|];
      destruct (extent (map toNumber l')) as [[lo' hi']|]; simpl in E, E'.
    + destruct E as (Hlo & Hhi & Nlo & Nhi & B).
      destruct E' as (Hlo' & Hhi' & Nlo' & Nhi' & B').
      apply (Permutation_in _ Hmap) in Hlo, Hhi.
      apply (Permutation_in _ (Permutation_sym Hmap)) in Hlo', Hhi'.
      split_and!.
      * apply (B' lo Hlo Nlo).
      * apply (B lo' Hlo' Nlo').
      * apply (B hi' Hhi' Nhi').
      * apply (B' hi Hhi Nhi).
    + destruct E as (Hlo & _ & Nlo & _).
      apply (Permutation_in _ Hmap) in Hlo. rewrite (E' lo Hlo) in Nlo. done.
    + destruct E' as (Hlo & _ & Nlo & _).
      apply (Permutation_in _ (Permutation_sym Hmap)) in Hlo.
      rewrite (E lo' Hlo) in Nlo. done.
    + done.
  - rewrite (analyzeColumn_categorical_domain l T).
    rewrite (analyzeColumn_categorical_domain l') by done.
    rewrite sortDefault_perm, sortDefault_perm. by apply unique_perm.
Qed.

Lemma classification_order_free_witness :
  type (mkInfo categorical (Categories [VStr "1"; VNum (ofZ 1)]))
  = type (mkInfo categorical (Categories [VNum (ofZ 1); VStr "1"]))
  /\ Permutation [VStr "1"; VNum (ofZ 1)] [VNum (ofZ 1); VStr "1"].
Proof.
  apply (classification_order_free
           (columnState [VStr "1"; VNum (ofZ 1)]) (columnState [VNum (ofZ 1); VStr "1"]) "x").
  - apply perm_swap.
  - simpl; auto.
  - simpl; auto.
  - by vm_compute.
  - by vm_compute.
Defined.

(** ** What [analyzeDescriptors] and a reload leave in the table *)

Lemma analyzeDescriptors_twice (st : State) :
  analyzeDescriptors (analyzeDescriptors st) = analyzeDescriptors st.
Proof.
  unfold analyzeDescriptors, setDescriptorInfo. simpl. f_equal.
  apply map_eq. intros key.
  destruct (in_dec string_dec key (descriptors st)) as [Hin|Hnin].
  - by rewrite !analyze_fold_lookup by done.
  - by rewrite analyze_fold_other by done.
Qed.

(** X6. [analyzeDescriptors] writes the entries of the descriptors of
    the state and no other: an entry under another key stays as it was.
    The table is never cleared, so after a load, successful or not, the
    entry of a column that the new file does not have is still the one
    an earlier load made; and to run [analyzeDescriptors] again changes
    nothing. *)
Theorem table_keeps_other_entries :
  (forall st key, ~ In key (descriptors st) ->
     descriptorInfo (analyzeDescriptors st) !! key = descriptorInfo st !! key) /\
  (forall fuel newick raw st st' out key,
     loadDashboard fuel newick raw st = Some (st', out) ->
     ~ In key (columns raw) ->
     descriptorInfo st' !! key = descriptorInfo st !! key) /\
  (forall st, analyzeDescriptors (analyzeDescriptors st) = analyzeDescriptors st).
Proof.
  split_and!.
  - intros st key Hkey. simpl. by apply analyze_fold_other.
  - intros fuel newick raw st st' out key Hload Hkey.
    destruct (loadDashboard_loaded _ _ _ _ _ _ Hload)
      as [(err & _ & ->) | (t & _ & -> & _)]; [done|].
    simpl. rewrite analyze_fold_other; [done|].
    intros [H _]%filter_In. done.
  - apply analyzeDescriptors_twice.
Qed.

Lemma table_keeps_other_entries_witness :
  descriptorInfo (analyzeDescriptors (columnState digits17)) !! "host"
  = descriptorInfo (columnState digits17) !! "host"
  /\ (fun r => descriptorInfo r.1 !! "host")
       <$> loadDashboard 3 "(Z);" (mkCsv ["accession"; "size"] [{["accession" := "Z"; "size" := "9"]}])
             loadedState
     = Some (Some (mkInfo categorical (Categories [VStr "cat"; VStr "dog"]))).
Proof.
  split.
  - apply (proj1 table_keeps_other_entries). simpl. intros [H|[]]. discriminate.
  - destruct (loadDashboard 3 "(Z);" (mkCsv ["accession"; "size"] [{["accession" := "Z"; "size" := "9"]}])
                loadedState) as [[st' out]|] eqn:Hload; [|by vm_compute in Hload].
    simpl. f_equal.
    rewrite (proj1 (proj2 table_keeps_other_entries) _ _ _ _ _ _ "host" Hload).
    + by vm_compute.
    + simpl. intros [H|[H|[]]]; discriminate.
Defined.

(** ** A tree without colours *)

Section NeutralFacts.

Variable seqs : list Seq.t.
Variable colorDesc : string.
Variable colorInfo : option DescriptorInfo.
Variable sc : ColorScale.

Lemma mergeColors_neutral (cs : list CNode) :
  Forall (fun c => color c = neutral) cs -> mergeColors cs = neutral.
Proof.
  intros Hall. destruct cs as [|first rest]; [done|]. unfold mergeColors.
  destruct (forallb _ _); [|done].
  rewrite Forall_forall in Hall. apply Hall. by left.
Qed.

Lemma colorAll_neutral (l : list HNode) :
  Forall (fun h =>
            (colorNode seqs colorDesc colorInfo h sc).2 = sc /\
            Forall (fun n => color n = neutral)
              (nodes (colorNode seqs colorDesc colorInfo h sc).1)) l ->
  (colorAllWith (colorNode seqs colorDesc colorInfo) l sc).2 = sc /\
  Forall (fun n => color n = neutral)
    (flat_map nodes (colorAllWith (colorNode seqs colorDesc colorInfo) l sc).1) /\
  Forall (fun c => color c = neutral)
    (colorAllWith (colorNode seqs colorDesc colorInfo) l sc).1.
Proof.
  induction 1 as [|h l [Hsc Hh] _ IH]; [by repeat constructor|].
  cbn [colorAllWith].
  destruct (colorNode seqs colorDesc colorInfo h sc) as [c sc1]. simpl in Hsc, Hh. subst sc1.
  destruct (colorAllWith (colorNode seqs colorDesc colorInfo) l sc) as [cs sc2].
  destruct IH as (IH1 & IH2 & IH3). simpl in *.
  split; [done|]. split.
  - apply Forall_app. by split.
  - constructor; [|done]. destruct c as [d k cs']. simpl in Hh.
    by apply Forall_cons_1 in Hh as [Hh _].
Qed.

(** When the call on every leaf under [h] gives the neutral colour and
    leaves the scale as it is, all of [h] is neutral. *)
Lemma colorNode_neutral (h : HNode) :
  (forall n, In n (hnodes h) -> hchildren n = [] ->
             leafColor seqs colorDesc colorInfo sc (hdata n) = (neutral, sc)) ->
  (colorNode seqs colorDesc colorInfo h sc).2 = sc /\
  Forall (fun n => color n = neutral) (nodes (colorNode seqs colorDesc colorInfo h sc).1).
Proof.
  induction h as [d children IH] using HNode_nested_ind. intros Hleaf.
  destruct children as [|c cs].
  - pose proof (Hleaf (H d []) (or_introl eq_refl) eq_refl) as Hl. simpl in Hl.
    simpl. rewrite Hl. simpl. split; [done|]. by repeat constructor.
  - cbn [colorNode].
    assert (Hall : Forall (fun h =>
                     (colorNode seqs colorDesc colorInfo h sc).2 = sc /\
                     Forall (fun n => color n = neutral)
                       (nodes (colorNode seqs colorDesc colorInfo h sc).1)) (c :: cs)).
    { rewrite Forall_forall in IH. apply Forall_forall. intros h Hh. apply IH; [done|].
      intros n Hn. apply Hleaf. cbn [hnodes]. right.
      apply in_flat_map. exists h. split; [by apply list_elem_of_In | done]. }
    destruct (colorAll_neutral (c :: cs) Hall) as (H1 & H2 & H3).
    destruct (colorAllWith (colorNode seqs colorDesc colorInfo) (c :: cs) sc) as [l sc'].
    simpl in *. split; [done|]. constructor; [|done].
    simpl. by apply mergeColors_neutral.
Qed.

End NeutralFacts.

(** X7. The tree is all neutral unless a categorical descriptor is
    chosen and a record is found: with no descriptor chosen or a
    numerical one, and also when the filtered list has no record for any
    leaf of the tree (a search that matches none of them, whatever else
    it matches), [drawTree] gives the neutral colour to every node of
    the tree, leaves and groups, in whatever order the children are
    sorted. *)
Theorem tree_all_neutral (sortChildren : list HNode -> list HNode)
    (sortChildren_perm : forall l, Permutation (sortChildren l) l)
    (seqs : list Seq.t) (colorDesc : string) (colorInfo : option DescriptorInfo) (t : Node) :
  (colorInfo = None \/ (exists info, colorInfo = Some info /\ type info = numerical)
   \/ (forall d, In d (subtrees t) -> isLeafData d = true -> findSequence seqs d = None)) ->
  forall n, In n (nodes (colorTree sortChildren seqs colorDesc colorInfo t)) ->
            color n = neutral.
Proof.
  intros Hcase n Hn. unfold colorTree in Hn.
  assert (Hleaf : forall h, In h (hnodes (hierarchy sortChildren t)) -> hchildren h = [] ->
            leafColor seqs colorDesc colorInfo (makeScale colorInfo) (hdata h)
            = (neutral, makeScale colorInfo)).
  { intros h Hh Hnil. unfold leafColor.
    destruct Hcase as [-> | [(info & -> & Hnum) | Hnone]].
    - by destruct (findSequence seqs (hdata h)).
    - destruct info as [ty dom]. simpl in Hnum. subst ty.
      by destruct (findSequence seqs (hdata h)).
    - rewrite Hnone; [done | |].
      + apply (Permutation_in _ (hierarchy_nodes sortChildren sortChildren_perm t)).
        by apply in_map.
      + pose proof (hierarchy_leaves sortChildren sortChildren_perm t) as Hl.
        rewrite Forall_forall in Hl. by apply (Hl h); [apply list_elem_of_In|]. }
  destruct (colorNode_neutral seqs colorDesc colorInfo (makeScale colorInfo)
              (hierarchy sortChildren t) Hleaf) as [_ Hall].
  rewrite Forall_forall in Hall. by apply Hall, list_elem_of_In.
Qed.

Lemma tree_all_neutral_witness :
  (forall d, In d (subtrees (Group [Leaf "X" zero; Leaf "A" zero] None None)) ->
             isLeafData d = true ->
             findSequence (sequences (onSearchInput "c" loadedState)) d = None) /\
  map Seq.accession (sequences (onSearchInput "c" loadedState)) = [Some "C"] /\
  (type <$> descriptorInfo loadedState !! "host") = Some categorical /\
  In (C (Leaf "A" zero) "#ccc" [])
    (nodes (colorTree sortNodes (sequences (onSearchInput "c" loadedState)) "host"
              (descriptorInfo loadedState !! "host")
              (Group [Leaf "X" zero; Leaf "A" zero] None None))) /\
  color (C (Leaf "A" zero) "#ccc" []) = neutral /\
  In (C (Leaf "A" zero) "#ccc" [])
    (nodes (colorTree sortNodes (sequences loadedState) "size"
              (Some (mkInfo numerical (Extent None))) (Group [Leaf "A" zero] None None))).
Proof.
  assert (Hnone : forall d,
            In d (subtrees (Group [Leaf "X" zero; Leaf "A" zero] None None)) ->
            isLeafData d = true ->
            findSequence (sequences (onSearchInput "c" loadedState)) d = None).
  { intros d Hd _. simpl in Hd. destruct Hd as [<- | [<- | [<- | []]]]; by vm_compute. }
  split; [exact Hnone|]. split; [by vm_compute|]. split; [by vm_compute|].
  assert (Hin : In (C (Leaf "A" zero) "#ccc" [])
                  (nodes (colorTree sortNodes (sequences (onSearchInput "c" loadedState))
                            "host" (descriptorInfo loadedState !! "host")
                            (Group [Leaf "X" zero; Leaf "A" zero] None None))))
    by (vm_compute; auto).
  split; [exact Hin|]. split; [|vm_compute; auto].
  apply (tree_all_neutral sortNodes sortNodes_perm
           (sequences (onSearchInput "c" loadedState)) "host"
           (descriptorInfo loadedState !! "host")
           (Group [Leaf "X" zero; Leaf "A" zero] None None)); [|exact Hin].
  right. right. exact Hnone.
Defined.

(** ** The radii of the radial layout *)

Lemma numAdd_nan_l (y : number) : isNaN (numAdd NaN y) = true.
Proof. reflexivity. Qed.

Lemma numAdd_nan_r (x : number) : isNaN (numAdd x NaN) = true.
Proof. by destruct x. Qed.

Lemma numMul_nan_l (y : number) : isNaN (numMul NaN y) = true.
Proof. reflexivity. Qed.

Lemma isNaN_eq (x : number) : isNaN x = true -> x = NaN.
Proof. by destruct x. Qed.

Lemma setRadius_nan (d : HNode) (k : number) :
  forall y0,
    isNaN y0 = true \/ isNaN (lengthNumber (hdata d)) = true ->
    Forall (fun n => isNaN (radius n) = true) (rnodes (setRadius d y0 k)).
Proof.
  induction d as [data children IH] using HNode_nested_ind. intros y0 Hnan.
  cbn [setRadius rnodes].
  assert (Hr : isNaN (numAdd y0 (numMul (lengthNumber data) k)) = true).
  { destruct Hnan as [H|H]; apply isNaN_eq in H.
    - by rewrite H.
    - simpl in H. rewrite H. apply numAdd_nan_r. }
  constructor; [done|].
  apply Forall_flat_map. apply Forall_map.
  apply (Forall_impl _ _ _ IH). intros c Hc. apply Hc. by left.
Qed.

(** X8. In the radial layout the radius of a node is the radius of its
    parent plus its own length times the scale, so one node without a
    length makes the radius of its whole subtree [NaN]. The root of a
    parsed tree is a group that has no [length] unless a length other
    than zero is written after its closing parenthesis: for every
    well-formed text with no length after the root group, all the radii
    of the parsed tree are [NaN], whatever the scale [k]. *)
Theorem radial_radius_nan :
  (forall d y0 k,
     isNaN y0 = true \/ isNaN (lengthNumber (hdata d)) = true ->
     forall n, In n (rnodes (setRadius d y0 k)) -> isNaN (radius n) = true) /\
  (forall children label sortChildren k,
     wellFormed (TGroup children label None) = true ->
     returns (print (TGroup children label None) ++ ";")
       (denote (TGroup children label None)) /\
     forall n,
       In n (rnodes (setRadius (hierarchy sortChildren (denote (TGroup children label None)))
                       zero k)) ->
       isNaN (radius n) = true).
Proof.
  assert (H1 : forall d y0 k,
            isNaN y0 = true \/ isNaN (lengthNumber (hdata d)) = true ->
            forall n, In n (rnodes (setRadius d y0 k)) -> isNaN (radius n) = true).
  { intros d y0 k Hnan n Hn.
    pose proof (setRadius_nan d k y0 Hnan) as Hall.
    rewrite Forall_forall in Hall. by apply Hall, list_elem_of_In. }
  split; [exact H1|].
  intros children label sortChildren k Hwf.
  split; [by apply parseNewick_print|].
  apply H1. right. reflexivity.
Qed.

Lemma radial_radius_nan_witness :
  wellFormed bareTree = true /\
  returns "(A,B)C;" (Group [Leaf "A" zero; Leaf "B" zero] (Some "C") None) /\
  In (R (Leaf "A" zero) NaN [])
    (rnodes (setRadius (hierarchy sortNodes (denote bareTree)) zero (ofZ 100))) /\
  isNaN (radius (R (Leaf "A" zero) NaN [])) = true.
Proof.
  destruct (proj2 radial_radius_nan [TLeaf "A" None; TLeaf "B" None] "C" sortNodes (ofZ 100)
              eq_refl) as [Hret Hnan].
  assert (Hin : In (R (Leaf "A" zero) NaN [])
                  (rnodes (setRadius (hierarchy sortNodes (denote bareTree)) zero (ofZ 100))))
    by (vm_compute; auto).
  split; [reflexivity|]. split; [exact Hret|]. split; [exact Hin|].
  exact (Hnan _ Hin).
Defined.

(** ** Three tests for a missing value *)

Lemma hasValue_isPresent (val : option value) :
  hasValue val = true -> isPresent val = true.
Proof.
  destruct val as [v|]; [|done]. unfold hasValue, isPresent.
  intros [Hne Hna]%andb_true_iff. rewrite Hne. simpl.
  destruct (String.eqb_spec (toUpperCase (toString v)) "NA") as [E|]; [|done].
  destruct (toUpperCase_NA _ E) as [H | [H | [H | H]]]; rewrite H in Hna; discriminate.
Qed.

Lemma isPresent_plotted (val : option value) :
  isPresent val = true -> plotted val = true.
Proof.
  destruct val as [v|]; [|done]. unfold isPresent, plotted.
  by intros [_ H]%andb_true_iff.
Qed.

(** X9. The script has three tests for a missing value and they are
    nested: a value the heat map shows as present is kept by the
    classifier, and a value the classifier keeps is plotted by the
    scatter plot. Neither converse holds: [NA] with white space around it
    is absent in the heat map and kept by the classifier, and an empty or
    blank value is left out by the classifier and plotted. *)
Theorem missing_tests_nested :
  (forall val, hasValue val = true -> isPresent val = true) /\
  (forall val, isPresent val = true -> plotted val = true) /\
  (forall s, toUpperCase (trim s) = "NA" -> trim s <> s ->
     hasValue (Some (VStr s)) = false /\ isPresent (Some (VStr s)) = true) /\
  (forall s, trim s = "" ->
     isPresent (Some (VStr s)) = false /\ plotted (Some (VStr s)) = true).
Proof.
  split_and!.
  - apply hasValue_isPresent.
  - apply isPresent_plotted.
  - intros s Hna Hs. unfold hasValue, isPresent. simpl toString. rewrite Hna. simpl.
    split; [apply andb_false_r|].
    assert (Hne : isEmpty (trim s) = false).
    { destruct (toUpperCase_NA _ Hna) as [H | [H | [H | H]]]; by rewrite H. }
    rewrite Hne. simpl.
    destruct (String.eqb_spec (toUpperCase s) "NA") as [E|]; [|done].
    destruct (toUpperCase_NA _ E) as [H | [H | [H | H]]]; subst s; by destruct Hs.
  - intros s Hs. unfold isPresent, plotted. simpl toString. rewrite Hs. simpl.
    split; [done|].
    destruct (String.eqb_spec (toUpperCase s) "NA") as [E|]; [|done].
    destruct (toUpperCase_NA _ E) as [H | [H | [H | H]]]; subst s; discriminate.
Qed.

Lemma missing_tests_nested_witness :
  (hasValue (Some (VStr "cat")) = true /\ isPresent (Some (VStr "cat")) = true /\
   plotted (Some (VStr "cat")) = true) /\
  (hasValue (Some (VStr " na")) = false /\ isPresent (Some (VStr " na")) = true) /\
  (isPresent (Some (VStr "  ")) = false /\ plotted (Some (VStr "  ")) = true).
Proof.
  split; [|split].
  - split; [reflexivity|]. split.
    + exact (proj1 missing_tests_nested (Some (VStr "cat")) eq_refl).
    + exact (proj1 (proj2 missing_tests_nested) _
               (proj1 missing_tests_nested (Some (VStr "cat")) eq_refl)).
  - apply (proj1 (proj2 (proj2 missing_tests_nested)) " na"); [reflexivity | discriminate].
  - apply (proj2 (proj2 (proj2 missing_tests_nested)) "  "). reflexivity.
Defined.

(** ** The heat map *)

Lemma uniqueIds_fold (arr : list (option string)) :
  forall seen,
    List.NoDup seen ->
    List.NoDup (fold_left
                  (fun seen v =>
                     if existsb (strictEqual v) seen then seen else (seen ++ [v])%list)
                  arr seen) /\
    (forall x, In x (fold_left
                       (fun seen v =>
                          if existsb (strictEqual v) seen then seen else (seen ++ [v])%list)
                       arr seen)
               <-> In x seen \/ In x arr).
Proof.
  assert (Heq : forall a b : option string, strictEqual a b = true <-> a = b).
  { intros [a|] [b|]; simpl; try done. rewrite String.eqb_eq. split; congruence. }
  induction arr as [|v arr IH]; intros seen Hnd; simpl.
  - split; [done|]. tauto.
  - destruct (existsb (strictEqual v) seen) eqn:Hex.
    + destruct (IH seen Hnd) as [H1 H2]. split; [done|].
      intros x. rewrite H2. split; [tauto|]. intros [H | [<- | H]]; auto.
      apply existsb_exists in Hex as (y & Hy & E). apply Heq in E. subst y. auto.
    + assert (Hnd' : List.NoDup (seen ++ [v])).
      { apply NoDup_ListNoDup, NoDup_app. split_and!.
        - by apply NoDup_ListNoDup.
        - intros x Hx ->%list_elem_of_singleton.
          assert (existsb (strictEqual v) seen = true); [|congruence].
          apply existsb_exists. exists v. split; [by apply list_elem_of_In | by apply Heq].
        - apply NoDup_singleton. }
      destruct (IH (seen ++ [v])%list Hnd') as [H1 H2]. split; [done|].
      intros x. rewrite H2, in_app_iff. simpl. tauto.
Qed.

Lemma uniqueIds_spec (arr : list (option string)) :
  List.NoDup (uniqueIds arr) /\ (forall x, In x (uniqueIds arr) <-> In x arr).
Proof.
  destruct (uniqueIds_fold arr [] (List.NoDup_nil _)) as [H1 H2].
  split; [done|]. intros x. unfold uniqueIds. rewrite H2. simpl. tauto.
Qed.

Lemma cellValue_spec (st : State) (pmid : option string) (descriptor : string) :
  cellValue st pmid descriptor = true <->
  exists s, In s (sequences st) /\ Seq.pmid s = pmid /\
            hasValue (Seq.descriptors s !! descriptor) = true.
Proof.
  unfold cellValue. rewrite existsb_exists. split.
  - intros (s & [Hs Hp]%filter_In & Hv). exists s. split_and!; try done.
    destruct (Seq.pmid s) as [a|], pmid as [b|]; simpl in Hp; try done.
    by apply String.eqb_eq in Hp as ->.
  - intros (s & Hs & Hp & Hv). exists s. split; [|done].
    apply filter_In. split; [done|]. subst pmid.
    destruct (Seq.pmid s); simpl; [apply String.eqb_refl | done].
Qed.

Lemma columnValues_in (key : string) (seqs : list Seq.t) (s : Seq.t) (v : value) :
  In s seqs -> Seq.descriptors s !! key = Some v -> isPresent (Some v) = true ->
  In v (columnValues key seqs).
Proof.
  intros Hs Hv Hp. unfold columnValues.
  apply list_elem_of_In, list_elem_of_omap. exists (Some v). split; [|done].
  apply list_elem_of_In, filter_In. split; [|done].
  rewrite <- Hv. by apply (in_map (fun s => Seq.descriptors s !! key)).
Qed.

(** X10. The heat map has one column for every [pmid] of the filtered
    records, each once, and a cell is present exactly when a filtered
    record of that paper has a value for the descriptor. So a search can
    only take presence away: a cell present after any searches is
    present with the full list; and a descriptor whose column the
    classifier found empty is absent in every cell. *)
Theorem heat_cells_follow_records (st : State) (texts : list string) :
  (forall s, In s (sequences st) -> In s (allSequences st)) ->
  let st' := fold_left (fun s text => onSearchInput text s) texts st in
  List.NoDup (x_elements st') /\
  (forall pmid, In pmid (x_elements st') <->
                exists s, In s (sequences st') /\ Seq.pmid s = pmid) /\
  (forall pmid descriptor,
     cellValue st' pmid descriptor = true <->
     exists s, In s (sequences st') /\ Seq.pmid s = pmid /\
               hasValue (Seq.descriptors s !! descriptor) = true) /\
  (forall pmid descriptor,
     cellValue st' pmid descriptor = true ->
     cellValue (setSequences (allSequences st) st) pmid descriptor = true) /\
  (forall pmid descriptor,
     columnValues descriptor (allSequences st) = [] ->
     cellValue st' pmid descriptor = false).
Proof.
  intros Hsub st'.
  assert (Hsub' : forall s, In s (sequences st') -> In s (allSequences st)).
  { by apply search_fold_sub. }
  destruct (uniqueIds_spec (map Seq.pmid (sequences st'))) as [Hnd Hin].
  split_and!.
  - exact Hnd.
  - intros pmid. unfold x_elements. rewrite Hin, in_map_iff.
    split; intros (s & H1 & H2); by exists s.
  - intros pmid descriptor. apply cellValue_spec.
  - intros pmid descriptor (s & Hs & Hp & Hv)%cellValue_spec.
    apply cellValue_spec. exists s. split_and!; try done. simpl. by apply Hsub'.
  - intros pmid descriptor Hempty.
    destruct (cellValue st' pmid descriptor) eqn:Hc; [|done].
    apply cellValue_spec in Hc as (s & Hs & _ & Hv).
    destruct (Seq.descriptors s !! descriptor) as [v|] eqn:Hd; [|done].
    assert (Hin' : In v (columnValues descriptor (allSequences st))).
    { apply (columnValues_in _ _ s); [by apply Hsub' | done | by apply hasValue_isPresent]. }
    rewrite Hempty in Hin'. done.
Qed.

Lemma heat_cells_follow_records_witness :
  (forall s, In s (sequences loadedState) -> In s (allSequences loadedState)) /\
  cellValue (onSearchInput "b" loadedState) (Some "2") "host" = false /\
  cellValue (setSequences (allSequences loadedState) loadedState) (Some "2") "host" = true /\
  List.NoDup (x_elements (onSearchInput "b" loadedState)).
Proof.
  assert (Hsub : forall s, In s (sequences loadedState) -> In s (allSequences loadedState)).
  { intros s Hs. exact Hs. }
  split; [exact Hsub|]. split; [by vm_compute|]. split; [by vm_compute|].
  exact (proj1 (heat_cells_follow_records loadedState ["b"] Hsub)).
Defined.

(** ** The bars of the pyramid chart *)

Lemma max_fold (A : Type) (g : A -> nat) (l : list A) :
  forall m0,
    (m0 <= fold_left (fun m y => Nat.max m (g y)) l m0)%nat /\
    (forall y, In y l -> (g y <= fold_left (fun m y => Nat.max m (g y)) l m0)%nat) /\
    (forall B, (m0 <= B)%nat -> (forall y, In y l -> (g y <= B)%nat) ->
               (fold_left (fun m y => Nat.max m (g y)) l m0 <= B)%nat).
Proof.
  induction l as [|x l IH]; intros m0; simpl.
  - split; [lia|]. split; [done|]. auto.
  - destruct (IH (Nat.max m0 (g x))) as (H1 & H2 & H3). split_and!.
    + lia.
    + intros y [<-|Hy]; [lia | by apply H2].
    + intros B HB Hall. apply H3; [|by auto].
      specialize (Hall x (or_introl eq_refl)). lia.
Qed.

(** X11. The bars of the pyramid chart fit its axis: [maxCount] is at
    least the count of every bar drawn, on the left for the first
    category of the X descriptor and on the right for the second, and at
    most the number of filtered records; a bar counts only records whose
    X value is its category. *)
Theorem pyramid_bars_fit (seqs : list Seq.t) (xDesc yDesc : string)
    (xCategories yCategories : list value) :
  (forall yCat, In yCat yCategories ->
     (count seqs xDesc yDesc (xCat1 xCategories) (Some yCat)
      <= maxCount seqs xDesc yDesc xCategories yCategories)%nat /\
     (count seqs xDesc yDesc (xCat2 xCategories) (Some yCat)
      <= maxCount seqs xDesc yDesc xCategories yCategories)%nat) /\
  (maxCount seqs xDesc yDesc xCategories yCategories <= List.length seqs)%nat /\
  (forall x y, (count seqs xDesc yDesc x y
                <= List.length (List.filter
                                  (fun d => sameKey (Seq.descriptors d !! xDesc) x) seqs))%nat).
Proof.
  destruct (max_fold value
              (fun yCat => Nat.max (count seqs xDesc yDesc (xCat1 xCategories) (Some yCat))
                                   (count seqs xDesc yDesc (xCat2 xCategories) (Some yCat)))
              yCategories 0%nat) as (_ & H2 & H3).
  split_and!.
  - intros yCat Hy. specialize (H2 yCat Hy). unfold maxCount. lia.
  - apply H3; [lia|]. intros y _. unfold count.
    apply Nat.max_lub; apply List.filter_length_le.
  - intros x y. unfold count. clear H2 H3.
    induction seqs as [|d seqs IH]; simpl; [lia|].
    destruct (sameKey (Seq.descriptors d !! xDesc) x); simpl; [|exact IH].
    destruct (sameKey (Seq.descriptors d !! yDesc) y); simpl; lia.
Qed.

Lemma pyramid_bars_fit_witness :
  descriptorInfo pyramidState !! "host"
  = Some (mkInfo categorical (Categories [VStr "cat"; VStr "dog"])) /\
  descriptorInfo pyramidState !! "sex"
  = Some (mkInfo categorical (Categories [VStr "f"; VStr "m"])) /\
  In (VStr "f") [VStr "f"; VStr "m"] /\
  In (VStr "m") [VStr "f"; VStr "m"] /\
  count (sequences pyramidState) "host" "sex" (xCat1 [VStr "cat"; VStr "dog"]) (Some (VStr "f"))
  = 2%nat /\
  count (sequences pyramidState) "host" "sex" (xCat2 [VStr "cat"; VStr "dog"]) (Some (VStr "m"))
  = 1%nat /\
  maxCount (sequences pyramidState) "host" "sex" [VStr "cat"; VStr "dog"] [VStr "f"; VStr "m"]
  = 2%nat /\
  (count (sequences pyramidState) "host" "sex" (xCat1 [VStr "cat"; VStr "dog"]) (Some (VStr "f"))
   <= maxCount (sequences pyramidState) "host" "sex" [VStr "cat"; VStr "dog"]
        [VStr "f"; VStr "m"])%nat /\
  (count (sequences pyramidState) "host" "sex" (xCat2 [VStr "cat"; VStr "dog"]) (Some (VStr "m"))
   <= maxCount (sequences pyramidState) "host" "sex" [VStr "cat"; VStr "dog"]
        [VStr "f"; VStr "m"])%nat.
Proof.
  assert (Hf : In (VStr "f") [VStr "f"; VStr "m"]) by (simpl; auto).
  assert (Hm : In (VStr "m") [VStr "f"; VStr "m"]) by (simpl; auto).
  split; [by vm_compute|]. split; [by vm_compute|].
  split; [exact Hf|]. split; [exact Hm|].
  split; [by vm_compute|]. split; [by vm_compute|]. split; [by vm_compute|].
  split.
  - exact (proj1 (proj1 (pyramid_bars_fit (sequences pyramidState) "host" "sex"
                           [VStr "cat"; VStr "dog"] [VStr "f"; VStr "m"]) (VStr "f") Hf)).
  - exact (proj2 (proj1 (pyramid_bars_fit (sequences pyramidState) "host" "sex"
                           [VStr "cat"; VStr "dog"] [VStr "f"; VStr "m"]) (VStr "m") Hm)).
Defined.

(** ** The exported table *)

Lemma rev_app_app (a b : string) : String.rev_app a b = String.rev a ++ b.
Proof.
  revert b. induction a as [|c a IH]; intros b; [done|].
  unfold String.rev. simpl. rewrite (IH (String c b)), (IH (String c "")).
  by rewrite string_app_assoc.
Qed.

Lemma rev_cons (c : ascii) (cur : string) :
  String.rev (String c cur) = String.rev cur ++ String c "".
Proof. unfold String.rev at 1. simpl. apply rev_app_app. Qed.

Lemma splitOn_piece (sep : ascii) (p : string) :
  ~ In sep (chars p) ->
  forall cur,
    splitOn sep cur p = [String.rev cur ++ p] /\
    forall rest,
      splitOn sep cur (p ++ String sep rest) = (String.rev cur ++ p) :: splitOn sep "" rest.
Proof.
  induction p as [|c p IH]; intros Hp cur.
  - rewrite string_app_nil_r. split; [done|]. intros rest. rewrite app_nil_l. simpl.
    by rewrite Ascii.eqb_refl.
  - assert (Hc : Ascii.eqb c sep = false).
    { apply Ascii.eqb_neq. intros ->. apply Hp. by left. }
    destruct (IH (fun H => Hp (or_intror H)) (String c cur)) as [H1 H2].
    assert (E : String.rev (String c cur) ++ p = String.rev cur ++ String c p).
    { by rewrite rev_cons, string_app_assoc. }
    split.
    + simpl. by rewrite Hc, H1, E.
    + intros rest. rewrite app_cons. simpl. by rewrite Hc, H2, E.
Qed.

Lemma split_join (sep : ascii) (parts : list string) :
  parts <> [] -> Forall (fun p => ~ In sep (chars p)) parts ->
  split sep (join (String sep "") parts) = parts.
Proof.
  induction parts as [|p parts IH]; [done|]. intros _ Hall.
  apply Forall_cons_1 in Hall as [Hp Hall]. unfold split in *.
  destruct parts as [|q parts].
  - simpl. by rewrite (proj1 (splitOn_piece sep p Hp "")).
  - change (join (String sep "") (p :: q :: parts))
      with (p ++ String sep "" ++ join (String sep "") (q :: parts)).
    rewrite app_cons, app_nil_l.
    rewrite (proj2 (splitOn_piece sep p Hp "")). by rewrite IH.
Qed.

Lemma splitOn_length (sep : ascii) (s : string) :
  forall cur, List.length (splitOn sep cur s) = S (occurrences sep s).
Proof.
  unfold occurrences. induction s as [|c s IH]; intros cur; [done|]. simpl.
  rewrite (Ascii.eqb_sym sep c). destruct (Ascii.eqb c sep); simpl; by rewrite IH.
Qed.

Lemma occurrences_app (c : ascii) (a b : string) :
  occurrences c (a ++ b) = (occurrences c a + occurrences c b)%nat.
Proof. unfold occurrences. by rewrite chars_app, List.filter_app, length_app. Qed.

Lemma occurrences_join (row : list string) :
  row <> [] ->
  S (occurrences "," (join "," row)) = (List.length row + commasIn row)%nat.
Proof.
  induction row as [|f row IH]; [done|]. intros _.
  destruct row as [|g row].
  - simpl. lia.
  - change (join "," (f :: g :: row)) with (f ++ "," ++ join "," (g :: row)).
    rewrite !occurrences_app.
    change (occurrences "," ",") with 1%nat.
    change (commasIn (f :: g :: row)) with (occurrences "," f + commasIn (g :: row))%nat.
    specialize (IH ltac:(done)). simpl List.length in *. lia.
Qed.

Lemma chars_join (sep : string) (l : list string) (c : ascii) :
  In c (chars (join sep l)) ->
  In c (chars sep) \/ exists f, In f l /\ In c (chars f).
Proof.
  induction l as [|f l IH]; [done|]. destruct l as [|g l].
  - simpl. intros H. right. exists f. auto.
  - change (join sep (f :: g :: l)) with (f ++ sep ++ join sep (g :: l)).
    rewrite !chars_app, !in_app_iff. intros [H | [H | H]].
    + right. exists f. split; [by left | done].
    + by left.
    + destruct (IH H) as [H' | (f' & Hf' & Hc)]; [by left|].
      right. exists f'. split; [by right | done].
Qed.

(** X12. [exportCSV] writes the header and one line for every filtered
    record, and no quotes: when no field holds a comma or a line feed,
    the text cut at the line feeds and the commas gives back the rows,
    and otherwise every comma inside a value is one field more in its
    line. *)
Theorem export_is_plain_text (st : State) :
  ((forall row f, In row (exportRows st) -> In f row ->
      ~ In lineFeed (chars f) /\ ~ In ","%char (chars f)) ->
   map (split ",") (split lineFeed (csvContent st)) = exportRows st) /\
  List.length (exportRows st) = S (List.length (sequences st)) /\
  (forall row, In row (exportRows st) ->
     List.length (split "," (join "," row))
     = (2 + List.length (descriptors st) + commasIn row)%nat).
Proof.
  assert (Hlen : forall row, In row (exportRows st) ->
            List.length row = (2 + List.length (descriptors st))%nat).
  { intros row [<- | (s & <- & _)%in_map_iff]; simpl; [done|]. by rewrite length_map. }
  split_and!.
  - intros Hplain. unfold csvContent.
    rewrite split_join.
    + rewrite map_map. rewrite <- (map_id (exportRows st)) at 2.
      apply map_ext_in. intros row Hrow. apply split_join.
      * specialize (Hlen row Hrow). by destruct row.
      * apply Forall_forall. intros f Hf%list_elem_of_In. by apply (Hplain row f).
    + done.
    + apply Forall_forall. intros line Hline%list_elem_of_In.
      apply in_map_iff in Hline as (row & <- & Hrow).
      intros [Hc | (f & Hf & Hc)]%chars_join.
      * simpl in Hc. destruct Hc as [Hc|[]]. discriminate.
      * by apply (proj1 (Hplain row f Hrow Hf)).
  - unfold exportRows. simpl. by rewrite length_map.
  - intros row Hrow. unfold split. rewrite splitOn_length, occurrences_join.
    + by rewrite (Hlen row Hrow).
    + specialize (Hlen row Hrow). by destruct row.
Qed.

Lemma export_is_plain_text_witness :
  map (split ",") (split lineFeed (csvContent (onSearchInput "b" loadedState)))
  = [["accession"; "pmid"; "host"]; ["B"; "2"; "NA"]]
  /\ List.length (split "," (join "," [""; ""; "a,b"])) = 4%nat.
Proof.
  split.
  - apply (proj1 (export_is_plain_text (onSearchInput "b" loadedState))).
    intros row f Hrow Hf.
    assert (Hcases : In f ["accession"; "pmid"; "host"; "B"; "2"; "NA"]).
    { vm_compute in Hrow. destruct Hrow as [<- | [<- | []]]; simpl in Hf; simpl; tauto. }
    simpl in Hcases.
    repeat (destruct Hcases as [<- | Hcases];
            [split; vm_compute; intros H; repeat (destruct H as [H|H]; [discriminate|]); done|]).
    done.
  - apply (proj2 (proj2 (export_is_plain_text
                           (setSequences (allSequences (columnState [VStr "a,b"]))
                              (columnState [VStr "a,b"]))))
             [""; ""; "a,b"]).
    right. left. reflexivity.
Defined.

(** ** The legend of the scatter plot *)

Lemma hash_nonneg (o : option value) : 0 <= hash o.
Proof.
  destruct o as [v|]; [|done]. unfold hash. destruct (truthy v); [|done].
  rewrite fold_codes.
  assert (H : forall l, 0 <= sumCodes l).
  { induction l as [|c l IH]; simpl; [done|].
    unfold charCode at 1. lia. }
  specialize (H (chars (toString v))). lia.
Qed.

Lemma fill_in_palette (o : option value) :
  In (nth (Z.to_nat (hash o mod 10)) schemeTableau10 "") schemeTableau10.
Proof.
  apply nth_In. change (List.length schemeTableau10) with 10%nat.
  pose proof (Z.mod_pos_bound (hash o) 10). lia.
Qed.

Lemma hash_normalizeZero (v : value) : hash (Some (normalizeZero v)) = hash (Some v).
Proof. destruct v as [s|[]]; try done. Qed.

(** X13. The hash of a value is never negative, so every point of the
    scatter plot is filled with a colour of the palette; and when the
    colour descriptor is categorical every record with a value for it has
    an item of its colour in the legend: the legend lists the domain, and
    the domain holds the value (as [0] when it is [-0]). *)
Theorem point_has_legend_item :
  (forall o, 0 <= hash o) /\
  (forall s colourDesc, In (pointFill s colourDesc) schemeTableau10) /\
  (forall st colourDesc info dom s v,
     In colourDesc (descriptors st) ->
     descriptorInfo (analyzeDescriptors st) !! colourDesc = Some info ->
     domain info = Categories dom ->
     In s (allSequences st) ->
     Seq.descriptors s !! colourDesc = Some v ->
     isPresent (Some v) = true ->
     exists d, In d dom /\ pointFill s colourDesc = legendFill d).
Proof.
  split; [apply hash_nonneg|]. split.
  - intros s colourDesc. apply fill_in_palette.
  - intros st colourDesc info dom s v Hkey Hinfo Hdom Hs Hv Hp.
    rewrite analyzeDescriptors_lookup in Hinfo by done. injection Hinfo as <-.
    exists (normalizeZero v). split.
    + assert (Htype : type (analyzeColumn (columnValues colourDesc (allSequences st)))
                      = categorical).
      { destruct (type _) eqn:T; [|done].
        rewrite (analyzeColumn_numerical_domain _ T) in Hdom. discriminate. }
      rewrite (analyzeColumn_categorical_domain _ Htype) in Hdom. injection Hdom as <-.
      apply (Permutation_in _ (Permutation_sym (sortDefault_perm _))).
      apply (proj1 (proj2 (unique_spec _))). apply in_map.
      by apply (columnValues_in _ _ s).
    + unfold pointFill, legendFill. by rewrite Hv, hash_normalizeZero.
Qed.

Lemma point_has_legend_item_witness :
  exists d, In d [VStr "cat"; VStr "dog"]
            /\ pointFill (toSequence (hostRow "C" "2" "dog")) "host" = legendFill d.
Proof.
  apply (proj2 (proj2 point_has_legend_item)
           (setTree None (ingest hostTable initialState)) "host"
           (mkInfo categorical (Categories [VStr "cat"; VStr "dog"]))
           [VStr "cat"; VStr "dog"]
           (toSequence (hostRow "C" "2" "dog")) (VStr "dog")).
  - simpl; auto.
  - by vm_compute.
  - reflexivity.
  - simpl; auto.
  - by vm_compute.
  - reflexivity.
Defined.

(** ** The search box *)

Lemma filterSequences_total (tokens : list string) (l : list Seq.t) :
  Forall (fun s => Seq.accession s <> None) l ->
  filterSequences tokens l = Some (List.filter (matches tokens) l).
Proof.
  induction 1 as [|s l Hs _ IH]; [done|]. simpl. rewrite IH. unfold matches.
  destruct (matchesTokens tokens s) as [[]|] eqn:Hm; try done.
  unfold matchesTokens in Hm. destruct tokens; [done|]. by destruct (Seq.accession s).
Qed.

Lemma filterSequences_raises (tokens : list string) (l : list Seq.t) :
  tokens <> [] -> Exists (fun s => Seq.accession s = None) l ->
  filterSequences tokens l = None.
Proof.
  intros Htok. induction 1 as [s l Hs | s l _ IH]; simpl.
  - unfold matchesTokens. rewrite Hs. by destruct tokens.
  - rewrite IH. by destruct (matchesTokens tokens s).
Qed.

Lemma onSearchInput_total (text : string) (st : State) :
  Forall (fun s => Seq.accession s <> None) (allSequences st) ->
  onSearchInput text st =
  setSequences
    (match searchTokens text with
     | [] => allSequences st
     | tokens => List.filter (matches tokens) (allSequences st)
     end) st.
Proof.
  intros Hall. unfold onSearchInput. destruct (searchTokens text) as [|t ts]; [done|].
  by rewrite filterSequences_total.
Qed.

(** *** Upper case and the pieces of a query *)

Lemma upperChar_idem (c : ascii) : upperChar (upperChar c) = upperChar c.
Proof. destruct c as [[] [] [] [] [] [] [] []]; reflexivity. Qed.

Lemma upperChar_space (c : ascii) : isWhiteSpace (upperChar c) = isWhiteSpace c.
Proof. destruct c as [[] [] [] [] [] [] [] []]; reflexivity. Qed.

Lemma upperChar_comma (c : ascii) : Ascii.eqb (upperChar c) "," = Ascii.eqb c ",".
Proof. destruct c as [[] [] [] [] [] [] [] []]; reflexivity. Qed.

Lemma toUpperCase_idem (s : string) : toUpperCase (toUpperCase s) = toUpperCase s.
Proof. induction s as [|c s IH]; simpl; [done|]. by rewrite upperChar_idem, IH. Qed.

Lemma toUpperCase_app (a b : string) :
  toUpperCase (a ++ b) = toUpperCase a ++ toUpperCase b.
Proof. induction a as [|c a IH]; [done|]. rewrite app_cons. simpl. by rewrite IH. Qed.

Lemma toUpperCase_rev (s : string) :
  toUpperCase (String.rev s) = String.rev (toUpperCase s).
Proof.
  induction s as [|c s IH]; [done|]. simpl toUpperCase.
  by rewrite !rev_cons, toUpperCase_app, IH.
Qed.

Lemma toUpperCase_trimStart (s : string) :
  trimStart (toUpperCase s) = toUpperCase (trimStart s).
Proof.
  induction s as [|c s IH]; [done|]. simpl.
  rewrite upperChar_space. by destruct (isWhiteSpace c).
Qed.

Lemma toUpperCase_trimEnd (s : string) :
  trimEnd (toUpperCase s) = toUpperCase (trimEnd s).
Proof.
  induction s as [|c s IH]; [done|]. simpl. rewrite IH, upperChar_space.
  destruct (trimEnd s); simpl; [by destruct (isWhiteSpace c) | done].
Qed.

Lemma toUpperCase_trim (s : string) : trim (toUpperCase s) = toUpperCase (trim s).
Proof. unfold trim. by rewrite toUpperCase_trimStart, toUpperCase_trimEnd. Qed.

Lemma toUpperCase_splitOn (s : string) :
  forall cur,
    splitOn "," (toUpperCase cur) (toUpperCase s) = map toUpperCase (splitOn "," cur s).
Proof.
  induction s as [|c s IH]; intros cur; simpl.
  - by rewrite toUpperCase_rev.
  - rewrite upperChar_comma. destruct (Ascii.eqb c ","); simpl.
    + change (splitOn "," "" (toUpperCase s))
        with (splitOn "," (toUpperCase "") (toUpperCase s)).
      by rewrite toUpperCase_rev, (IH "").
    + by rewrite <- (IH (String c cur)).
Qed.

Lemma searchTokens_upper (text : string) :
  searchTokens (toUpperCase text) = searchTokens text.
Proof.
  unfold searchTokens, split.
  change (splitOn "," "" (toUpperCase text))
    with (splitOn "," (toUpperCase "") (toUpperCase text)).
  rewrite (toUpperCase_splitOn text ""), map_map.
  f_equal. apply map_ext. intros t. by rewrite toUpperCase_trim, toUpperCase_idem.
Qed.

(** *** A query of commas and white space *)

Lemma chars_rev_app (a b : string) (c : ascii) :
  In c (chars (String.rev_app a b)) <-> In c (chars a) \/ In c (chars b).
Proof.
  revert b. induction a as [|x a IH]; intros b; simpl; [tauto|].
  rewrite IH. simpl. tauto.
Qed.

Lemma blank_trim (s : string) : blank s = true -> trim s = "".
Proof.
  unfold blank, trim. intros H.
  assert (E : trimStart s = "").
  { induction s as [|c s IH]; [done|]. simpl in *.
    apply andb_true_iff in H as [-> H]. by apply IH. }
  by rewrite E.
Qed.

Lemma splitOn_blank (s : string) :
  forall cur,
    blank cur = true ->
    forallb (fun c => isWhiteSpace c || Ascii.eqb c ",") (chars s) = true ->
    Forall (fun p => blank p = true) (splitOn "," cur s).
Proof.
  assert (Hrev : forall cur, blank cur = true -> blank (String.rev cur) = true).
  { intros cur H. unfold blank in *. rewrite forallb_forall in *.
    intros c Hc. apply H. unfold String.rev in Hc.
    apply chars_rev_app in Hc as [Hc|[]]. done. }
  induction s as [|c s IH]; intros cur Hcur Hs; simpl.
  - constructor; [by apply Hrev | constructor].
  - simpl in Hs. apply andb_true_iff in Hs as [Hc Hs].
    destruct (Ascii.eqb c ",") eqn:E.
    + constructor; [by apply Hrev | by apply IH].
    + apply IH; [|done]. rewrite orb_false_r in Hc. unfold blank. simpl.
      by rewrite Hc.
Qed.

Lemma searchTokens_blank (text : string) :
  forallb (fun c => isWhiteSpace c || Ascii.eqb c ",") (chars text) = true ->
  searchTokens text = [].
Proof.
  intros H. unfold searchTokens, split.
  pose proof (splitOn_blank text "" eq_refl H) as Hall.
  induction Hall as [|p l Hp _ IH]; [done|]. simpl.
  rewrite (blank_trim p Hp). simpl. exact IH.
Qed.

Lemma onSearchInput_shape (text : string) (st : State) :
  exists seqs, onSearchInput text st = setSequences seqs st.
Proof.
  unfold onSearchInput. destruct (searchTokens text) as [|t ts]; [by eexists|].
  destruct (filterSequences _ _); [by eexists|].
  exists (sequences st). by destruct st.
Qed.

Lemma search_fold_shape (texts : list string) :
  forall st, exists seqs,
    fold_left (fun s t => onSearchInput t s) texts st = setSequences seqs st.
Proof.
  induction texts as [|t texts IH]; intros st; simpl.
  - exists (sequences st). by destruct st.
  - destruct (onSearchInput_shape t st) as [seqs1 ->].
    destruct (IH (setSequences seqs1 st)) as [seqs ->]. by exists seqs.
Qed.

Lemma plainRecord_accession (l : list Seq.t) :
  Forall plainRecord l -> Forall (fun s => Seq.accession s <> None) l.
Proof.
  intros Hall. eapply Forall_impl; [exact Hall|].
  intros s [(a & Ha & _) _]. by rewrite Ha.
Qed.

(** X14. For records and queries written in code units below 128, where
    upper-casing changes the letters a to z only: when every record has
    an accession, the state after a search is a function of the full
    list and the text: the filtered list holds, in the order of the full
    list, the records that match a token (all of them when there is no
    token), so of any sequence of searches only the last one counts, and
    the case of the query does not matter. *)
Theorem search_last_wins (st : State) (texts : list string) (text : string) :
  Forall plainRecord (allSequences st) ->
  Forall (fun t => asciiText t = true) (texts ++ [text]) ->
  let st' := fold_left (fun s t => onSearchInput t s) (texts ++ [text]) st in
  st' = onSearchInput text st /\
  sequences st' =
    match searchTokens text with
    | [] => allSequences st
    | tokens => List.filter (matches tokens) (allSequences st)
    end /\
  onSearchInput (toUpperCase text) st = onSearchInput text st.
Proof.
  intros Hplain _ st'. subst st'.
  pose proof (plainRecord_accession _ Hplain) as Hall.
  rewrite fold_left_app. simpl.
  destruct (search_fold_shape texts st) as [seqs ->].
  rewrite (onSearchInput_total text (setSequences seqs st)) by done.
  rewrite (onSearchInput_total text st Hall).
  split_and!.
  - simpl. reflexivity.
  - simpl. reflexivity.
  - by rewrite (onSearchInput_total (toUpperCase text) st Hall), searchTokens_upper.
Qed.

Lemma search_last_wins_witness :
  Forall plainRecord (allSequences loadedState) /\
  Forall (fun t => asciiText t = true) (["zz"; "a"] ++ ["2, b"]) /\
  searchTokens "2, b" = ["2"; "B"] /\
  map Seq.accession
    (sequences (fold_left (fun s t => onSearchInput t s) (["zz"; "a"] ++ ["2, b"]) loadedState))
  = [Some "B"; Some "C"] /\
  onSearchInput (toUpperCase "2, b") loadedState = onSearchInput "2, b" loadedState.
Proof.
  assert (Hall : Forall plainRecord (allSequences loadedState)).
  { change (allSequences loadedState) with (map toSequence (rows hostTable)).
    simpl map. repeat constructor.
    all: try (by eexists; split; [vm_compute; reflexivity | reflexivity]).
    all: intros p Hp; vm_compute in Hp; injection Hp as <-; reflexivity. }
  assert (Htexts : Forall (fun t => asciiText t = true) (["zz"; "a"] ++ ["2, b"])).
  { by repeat constructor. }
  split; [exact Hall|]. split; [exact Htexts|]. split; [by vm_compute|].
  pose proof (search_last_wins loadedState ["zz"; "a"] "2, b" Hall Htexts) as (_ & H2 & H3).
  split; [|exact H3].
  rewrite H2. by vm_compute.
Defined.

(** X15. The edges of the search box. A query that holds only commas
    and white space has no token and puts the full list back. When there
    is a token and a record has no accession (the table has no such
    column), the listener raises before it writes, and the state, the
    filtered list included, stays as it was. *)
Theorem search_edges (st : State) (text : string) :
  (forallb (fun c => isWhiteSpace c || Ascii.eqb c ",") (chars text) = true ->
   onSearchInput text st = setSequences (allSequences st) st) /\
  (searchTokens text <> [] ->
   (exists s, In s (allSequences st) /\ Seq.accession s = None) ->
   onSearchInput text st = st).
Proof.
  split.
  - intros H. unfold onSearchInput. by rewrite searchTokens_blank.
  - intros Htok (s & Hs & Hacc). unfold onSearchInput.
    destruct (searchTokens text) as [|t ts]; [done|].
    rewrite filterSequences_raises; [done | done |].
    apply Exists_exists. exists s. split; [by apply list_elem_of_In | done].
Qed.

Lemma search_edges_witness :
  onSearchInput " , ," (onSearchInput "b" loadedState) = loadedState /\
  onSearchInput "x" (columnState digits17) = columnState digits17.
Proof.
  split.
  - rewrite (proj1 (search_edges (onSearchInput "b" loadedState) " , ,") eq_refl).
    by vm_compute.
  - apply (proj2 (search_edges (columnState digits17) "x")); [discriminate|].
    exists (Seq.mk None None {["x" := VStr "1"]}). split; [simpl; auto | done].
Defined.
